(** * Consumer-group coordinator (package consumergroup)

    A shallow embedding of [consumer_group.go]: configuration validation,
    [JoinConsumerGroup], [Close], the top-level loop, the topic and partition
    workers with their claim-retry protocol, the partition assigner used by
    [topicConsumer], and the goroutines run together over the mutex, the
    stopper and the wait groups.

    Integers of the Go program are [Z]; a [time.Duration] is an [int64]
    number of nanoseconds.  Calls into ZooKeeper, the broker client and the
    runtime scheduler are answered by explicit oracles, and every function
    returns the list of effects it performed next to its result. *)

From Stdlib Require Import ZArith String List Sorted.
From stdpp Require Import gmap strings list fin_maps.

Open Scope Z_scope.

(** ** Machine integers and durations *)

Definition int64_min : Z := - 2 ^ 63.
Definition int64_max : Z := 2 ^ 63 - 1.

Definition in_int64 (z : Z) : Prop := int64_min <= z <= int64_max.

(** Two's-complement wrap-around of a 64-bit signed integer. *)
Definition wrap64 (z : Z) : Z := (z + 2 ^ 63) mod 2 ^ 64 - 2 ^ 63.

(** [time.Second], in nanoseconds. *)
Definition Second : Z := 1000000000.

(** Go's [/] on signed integers truncates toward zero. *)
Definition go_div (a b : Z) : Z := wrap64 (Z.quot a b).

(** ** Constants of the broker and metadata-store clients *)

(** [sarama.OffsetNewest] and [sarama.OffsetOldest]. *)
Definition OffsetNewest : Z := -1.
Definition OffsetOldest : Z := -2.

(** Go [error] values that the package creates or compares against. *)
Inductive error : Type :=
| AlreadyClosing
| ErrOffsetOutOfRange
| ErrPartitionClaimedByOther
| ConfigurationError (msg : string)
| ErrorsNew (msg : string)
| ConsumerError (topic : string) (part : Z) (err : error)
| ExternalError (code : nat).

#[global] Instance error_eq_dec : EqDecision error.
Proof. solve_decision. Defined.

(** ** Partitions and their leaders *)

(** [kazoo.Partition]. *)
Record Partition : Type := mkPartition {
  ID : Z;
  Replicas : list Z
}.

#[global] Instance Partition_eq_dec : EqDecision Partition.
Proof. solve_decision. Defined.

Record partitionLeader : Type := mkPartitionLeader {
  id : Z;
  leader : Z;
  partition : Partition
}.

#[global] Instance partitionLeader_eq_dec : EqDecision partitionLeader.
Proof. solve_decision. Defined.

(** ** Partition assigner *)

(** Members of a group are listed by instance ID in lexicographic order, and
    the partitions of a topic in increasing order of partition id. *)
Definition instanceLess (a b : string) : Prop := String.ltb a b = true.

Definition partitionLess (a b : partitionLeader) : Prop :=
  ID (partition a) < ID (partition b).

Definition sortedInstances (consumers : list string) : Prop :=
  StronglySorted instanceLess consumers.

Definition sortedPartitions (partitions : list partitionLeader) : Prop :=
  StronglySorted partitionLess partitions.

(** The consecutive slices handed to the members, in member order: every
    member receives [n] partitions and the first [m] members one more. *)
Fixpoint divideSlices (n m : nat) (consumers : list string)
    (partitions : list partitionLeader) : list (string * list partitionLeader) :=
  match consumers with
  | [] => []
  | consumer :: rest =>
      let last := (n + (if (0 <? m)%nat then 1 else 0))%nat in
      (consumer, take last partitions)
        :: divideSlices n (Nat.pred m) rest (drop last partitions)
  end.

(** Modelled from the spec: the body of [dividePartitionsBetweenConsumers]
    is not among the sources at hand; only its call in [topicConsumer] is.
    Following section 4.3, the ordered partition list is cut into as many
    contiguous slices as there are members, of sizes that differ by at most
    one, and slice [k] is stored under the ID of member [k].  The result is
    the Go map from instance ID to the partitions of its slice. *)
Definition dividePartitionsBetweenConsumers (consumers : list string)
    (partitions : list partitionLeader) : gmap string (list Partition) :=
  let plen := length partitions in
  let clen := length consumers in
  list_to_map
    (map (fun entry : string * list partitionLeader =>
            (fst entry, map partition (snd entry)))
       (divideSlices (plen / clen) (plen mod clen) consumers partitions)).

(** Indexing a Go map: a missing key yields the zero value, here the nil
    slice.  This is [dividedPartitions[cg.instanceID]] in [topicConsumer]. *)
Definition mapIndex (m : gmap string (list Partition)) (key : string)
    : list Partition :=
  default [] (m !! key).

(** ** Configuration *)

(** [sarama.Config] and [kazoo.Config], as far as the package touches them:
    the client ID it overwrites, the channel buffer size, the session
    timeout.  The remaining fields are kept as an opaque tag. *)
Record SaramaConfig : Type := mkSaramaConfig {
  ClientID : string;
  ChannelBufferSize : Z;
  saramaOther : nat
}.

Record KazooConfig : Type := mkKazooConfig {
  Timeout : Z;
  kazooOther : nat
}.

Record OffsetsConfig : Type := mkOffsetsConfig {
  Initial : Z;
  ProcessingTimeout : Z;
  CommitInterval : Z;
  ResetOffsets : bool
}.

(** [Config] embeds a [*sarama.Config] and holds a [*kazoo.Config]; both
    pointers may be nil. *)
Record Config : Type := mkConfig {
  saramaConfig : option SaramaConfig;
  Zookeeper : option KazooConfig;
  Offsets : OffsetsConfig
}.

(** A Go call either returns or panics (nil dereference). *)
Inductive outcome (A : Type) : Type :=
| Return (a : A)
| Panic.
Arguments Return {A} a.
Arguments Panic {A}.

(** ** Log lines and observable effects *)

(** One constructor per [cg.Logf] call site, carrying its arguments. *)
Inductive logline : Type :=
| LogExistsFailed (err : error)
| LogCreating (group : string)
| LogCreateFailed (err : error)
| LogRegisterFailed (err : error)
| LogRegistered (instance : string)
| LogOffsetManagerCloseFailed (err : error)
| LogDeregisterFailed (err : error)
| LogDeregistered (instance : string)
| LogSaramaCloseFailed (err : error)
| LogTopicStarted (topic : string)
| LogPartitionsFailed (topic : string) (err : error)
| LogLeadersFailed (topic : string) (err : error)
| LogClaiming (topic : string) (mine total : nat)
| LogTopicStopped (topic : string)
| LogOutOfRange (topic : string) (part : Z)
| LogResetOldest (topic : string) (part : Z)
| LogResetNewest (topic : string) (part : Z)
| LogStartFailed (topic : string) (part : Z) (err : error)
| LogClaimRetry (topic : string) (part : Z) (attempt maxRetries : Z) (err : error)
| LogClaimFailed (topic : string) (part : Z) (err : error)
| LogReleaseFailed (topic : string) (part : Z) (err : error)
| LogInitialOffsetFailed (topic : string) (part : Z) (err : error)
| LogStartingAt (topic : string) (part : Z) (offset : Z)
| LogStartingOldest (topic : string) (part : Z)
| LogStartingNewest (topic : string) (part : Z)
| LogInvalidState (topic : string) (part : Z)
| LogStopping (topic : string) (part : Z) (lastOffset : Z)
| LogFinalizeFailed (topic : string) (part : Z) (err : error).

(** [sarama.ConsumerMessage]. *)
Record ConsumerMessage : Type := mkConsumerMessage {
  msgTopic : string;
  msgPartition : Z;
  msgOffset : Z;
  msgValue : string
}.

#[global] Instance logline_eq_dec : EqDecision logline.
Proof. solve_decision. Defined.

#[global] Instance ConsumerMessage_eq_dec : EqDecision ConsumerMessage.
Proof. solve_decision. Defined.

(** Everything a function of the package does to the world outside its own
    local variables, in program order. *)
Inductive event : Type :=
| EvLogf (line : logline)
(* construction *)
| EvNewKazoo (zookeeper : list string)
| EvBrokerList
| EvResetOffsets
| EvGenerateInstanceID
| EvNewConsumer
| EvGroupExists
| EvGroupCreate
| EvRegister (topics : list string)
| EvNewOffsetManager
| EvGoTopicListConsumer (topics : list string)
(* shutdown *)
| EvMuLock
| EvMuUnlock
| EvCloseStopper
| EvWgWait
| EvOffsetManagerClose
| EvDeregister
| EvConsumerClose
| EvCloseMessages
| EvCloseErrors
| EvSetInstanceNil
| EvKazooClose
(* workers *)
| EvWgDone
| EvCancel
| EvTopicPartitions (topic : string)
| EvRetrievePartitionLeaders
| EvLocalWgAdd
| EvGoPartitionConsumer (topic : string) (part : Z)
| EvLocalWgWait
| EvLocalWgDone
| EvTimeAfter (d : Z)
| EvClaimPartition (topic : string) (part : Z)
| EvReleasePartition (topic : string) (part : Z)
| EvSendErrors (err : error)
| EvSendMessages (msg : ConsumerMessage)
| EvInitializePartition (topic : string) (part : Z)
| EvConsumePartition (topic : string) (part : Z) (offset : Z)
| EvPartitionConsumerClose (handle : nat)
| EvFinalizePartition (topic : string) (part : Z) (lastOffset timeout : Z).

#[global] Instance event_eq_dec : EqDecision event.
Proof. solve_decision. Defined.

(** ** The consumer group handle *)

(** The fields of [ConsumerGroup] that the modelled functions read or write.
    [instance] is [true] while [cg.instance] is not nil and [singleShutdown]
    is [true] once the [sync.Once] has fired.  The collaborators behind the
    interfaces ([consumer], [kazoo], [group], [offsetManager]) are reached
    through the oracles of each function. *)
Record ConsumerGroup : Type := mkConsumerGroup {
  config : Config;
  groupName : string;
  instance : bool;
  instanceID : string;
  singleShutdown : bool;
  consumers : list string
}.

(** ** Validation and construction *)

(** Answers of the metadata store and of the broker client during
    [DefaultConsumerGroup]; [None] stands for a nil error. *)
Record constructEnv : Type := mkConstructEnv {
  newKazoo : option error;
  brokerList : option error;
  resetOffsets : option error;
  generateConsumerInstanceID : string * option error;
  newConsumer : option error;
  groupExists : bool * option error;
  groupCreate : option error;
  instanceRegister : option error
}.

(** What a constructor hands back: the pair [(cg, err)] (or a panic) and the
    effects it performed. *)
Definition constructed : Type :=
  (outcome (option ConsumerGroup * option error) * list event)%type.

Definition cgConstructorT : Type :=
  string -> list string -> list string -> Config -> constructed.

Section Construction.

(** The defaults and the validation of the two client libraries. *)
Variable sarama_NewConfig : SaramaConfig.
Variable kazoo_NewConfig : KazooConfig.
Variable sarama_Validate : SaramaConfig -> option error.

Definition NewConfig : Config :=
  {| saramaConfig := Some sarama_NewConfig;
     Zookeeper := Some kazoo_NewConfig;
     Offsets := {| Initial := OffsetOldest;
                   ProcessingTimeout := 60 * Second;
                   CommitInterval := 10 * Second;
                   ResetOffsets := false |} |}.

Definition Validate (cgc : Config) : outcome (option error) :=
  match Zookeeper cgc with
  | None => Panic
  | Some kz =>
      if Timeout kz <=? 0 then
        Return (Some (ConfigurationError "ZookeeperTimeout should have a duration > 0"))
      else if CommitInterval (Offsets cgc) <? 0 then
        Return (Some (ConfigurationError "CommitInterval should have a duration >= 0"))
      else if negb (Initial (Offsets cgc) =? OffsetOldest)
              && negb (Initial (Offsets cgc) =? OffsetNewest) then
        Return (Some (ErrorsNew "Offsets.Initial should be sarama.OffsetOldest or sarama.OffsetNewest."))
      else
        match saramaConfig cgc with
        | Some sc =>
            match sarama_Validate sc with
            | Some err => Return (Some err)
            | None => Return None
            end
        | None => Return None
        end
  end.

Definition DefaultConsumerGroup (env : constructEnv) (name : string)
    (topics zookeeper : list string) (config : Config) : constructed :=
  match newKazoo env with
  | Some err => (Return (None, Some err), [EvNewKazoo zookeeper])
  | None =>
  match brokerList env with
  | Some err => (Return (None, Some err), [EvNewKazoo zookeeper; EvBrokerList; EvKazooClose])
  | None =>
  let reset := if ResetOffsets (Offsets config) then resetOffsets env else None in
  let tr1 := [EvNewKazoo zookeeper; EvBrokerList]
               ++ (if ResetOffsets (Offsets config) then [EvResetOffsets] else []) in
  match reset with
  | Some err => (Return (None, Some err), tr1 ++ [EvKazooClose])
  | None =>
  match generateConsumerInstanceID env with
  | (_, Some err) => (Return (None, Some err), tr1 ++ [EvGenerateInstanceID; EvKazooClose])
  | (instID, None) =>
  match newConsumer env with
  | Some err =>
      (Return (None, Some err), tr1 ++ [EvGenerateInstanceID; EvNewConsumer; EvKazooClose])
  | None =>
  let tr2 := tr1 ++ [EvGenerateInstanceID; EvNewConsumer] in
  match saramaConfig config with
  | None => (Panic, tr2)
  | Some sc =>
  if ChannelBufferSize sc <? 0 then (Panic, tr2) else
  let cg := {| config := config; groupName := name; instance := true;
               instanceID := instID; singleShutdown := false; consumers := [] |} in
  match groupExists env with
  | (_, Some err) =>
      (Return (None, Some err),
       tr2 ++ [EvGroupExists; EvLogf (LogExistsFailed err); EvConsumerClose; EvKazooClose])
  | (exists_, None) =>
  let created := if exists_ then None else groupCreate env in
  let tr3 := tr2 ++ [EvGroupExists]
               ++ (if exists_ then [] else [EvLogf (LogCreating name); EvGroupCreate]) in
  match created with
  | Some err =>
      (Return (None, Some err),
       tr3 ++ [EvLogf (LogCreateFailed err); EvConsumerClose; EvKazooClose])
  | None =>
  match instanceRegister env with
  | Some err =>
      (Return (None, Some err), tr3 ++ [EvRegister topics; EvLogf (LogRegisterFailed err)])
  | None =>
      (Return (Some cg, None),
       tr3 ++ [EvRegister topics; EvLogf (LogRegistered instID); EvNewOffsetManager])
  end end end end end end end end end.

(** [config.ClientID = name]: a write through the embedded pointer. *)
Definition setClientID (config : Config) (name : string) : outcome Config :=
  match saramaConfig config with
  | None => Panic
  | Some sc =>
      Return {| saramaConfig := Some {| ClientID := name;
                                        ChannelBufferSize := ChannelBufferSize sc;
                                        saramaOther := saramaOther sc |};
                Zookeeper := Zookeeper config;
                Offsets := Offsets config |}
  end.

(** Connects to a consumer group.  [config] is [None] for a nil pointer and
    [cgConstructor] is the variadic argument. *)
Definition JoinConsumerGroup (env : constructEnv) (name : string)
    (topics zookeeper : list string) (config : option Config)
    (cgConstructor : list cgConstructorT) : constructed :=
  if decide (name = "") then
    (Return (None, Some (ConfigurationError "Empty consumergroup name")), [])
  else if (length topics =? 0)%nat then
    (Return (None, Some (ConfigurationError "No topics provided")), [])
  else if (length zookeeper =? 0)%nat then
    (Return (None, Some (ErrorsNew "you need to provide at least one zookeeper node address")), [])
  else
    let config := match config with None => NewConfig | Some c => c end in
    match setClientID config name with
    | Panic => (Panic, [])
    | Return config =>
        match Validate config with
        | Panic => (Panic, [])
        | Return (Some err) => (Return (None, Some err), [])
        | Return None =>
            let started (c : constructed) : constructed :=
              match c with
              | (Return (cg, None), tr) =>
                  (Return (cg, None), tr ++ [EvGoTopicListConsumer topics])
              | _ => c
              end in
            match cgConstructor with
            | [] => started (DefaultConsumerGroup env name topics zookeeper config)
            | [construct] => started (construct name topics zookeeper config)
            | _ => (Return (None, Some (ErrorsNew "more than one cgConstructor is not supported")), [])
            end
        end
    end.

End Construction.

(** ** Shutdown *)

(** Results of the calls [Close] makes on its collaborators. *)
Record closeEnv : Type := mkCloseEnv {
  offsetManagerClose : option error;
  instanceDeregister : option error;
  consumerClose : option error;
  kazooClose : option error
}.

Definition Closed (cg : ConsumerGroup) : bool := negb (instance cg).

(** The function passed to [cg.singleShutdown.Do].  It returns the handle
    after the call, the final value of the captured [shutdownError], and the
    effects, the deferred [cg.kazoo.Close()] running last. *)
Definition shutdown (env : closeEnv) (cg : ConsumerGroup)
    : ConsumerGroup * option error * list event :=
  let cg' := {| config := config cg; groupName := groupName cg; instance := false;
                instanceID := instanceID cg; singleShutdown := singleShutdown cg;
                consumers := consumers cg |} in
  (cg', consumerClose env,
   [EvMuLock; EvCloseStopper; EvMuUnlock; EvWgWait; EvOffsetManagerClose]
     ++ match offsetManagerClose env with
        | Some err => [EvLogf (LogOffsetManagerCloseFailed err)]
        | None => []
        end
     ++ [EvDeregister]
     ++ match instanceDeregister env with
        | Some err => [EvLogf (LogDeregisterFailed err)]
        | None => [EvLogf (LogDeregistered (instanceID cg))]
        end
     ++ [EvConsumerClose]
     ++ match consumerClose env with
        | Some err => [EvLogf (LogSaramaCloseFailed err)]
        | None => []
        end
     ++ [EvCloseMessages; EvCloseErrors; EvSetInstanceNil; EvKazooClose]).

(** [sync.Once.Do]: run the function unless the once has fired, and mark it
    fired. *)
Definition Close (env : closeEnv) (cg : ConsumerGroup)
    : ConsumerGroup * option error * list event :=
  if singleShutdown cg then (cg, Some AlreadyClosing, [])
  else
    let '(cg', shutdownError, tr) := shutdown env cg in
    ({| config := config cg'; groupName := groupName cg'; instance := instance cg';
        instanceID := instanceID cg'; singleShutdown := true;
        consumers := consumers cg' |}, shutdownError, tr).

(** [n] successive calls of [Close], each with its own answers from the
    collaborators: the handle after the last call, the value each call
    returned, and the effects of each call. *)
Fixpoint closeCalls (envs : list closeEnv) (cg : ConsumerGroup)
    : ConsumerGroup * list (option error * list event) :=
  match envs with
  | [] => (cg, [])
  | env :: rest =>
      let '(cg1, err, tr) := Close env cg in
      let '(cg2, results) := closeCalls rest cg1 in
      (cg2, (err, tr) :: results)
  end.

(** Effects that tear a resource down. *)
Definition destructive (e : event) : bool :=
  match e with
  | EvCloseStopper | EvOffsetManagerClose | EvDeregister | EvConsumerClose
  | EvCloseMessages | EvCloseErrors | EvSetInstanceNil | EvKazooClose => true
  | _ => false
  end.

Definition isLogf (e : event) : bool :=
  match e with EvLogf _ => true | _ => false end.

(** ** Channel sends and the state of a worker *)

(** What a worker finds when it reaches a send: whether the channel can take
    the value (free buffer slot or waiting receiver), whether the generation
    context is cancelled, and which case a [select] picks when both of its
    cases are ready. *)
Record selectState : Type := mkSelectState {
  chanReady : bool;
  ctxDone : bool;
  pickSend : bool
}.

Inductive sendResult : Type :=
| Sent
| Cancelled
| Blocks.

(** A plain send statement, [ch <- v]. *)
Definition bareSend (s : selectState) : sendResult :=
  if chanReady s then Sent else Blocks.

(** [select { case ch <- v: ... case <-ctx.Done(): ... }]. *)
Definition selectSend (s : selectState) : sendResult :=
  match chanReady s, ctxDone s with
  | true, true => if pickSend s then Sent else Cancelled
  | true, false => Sent
  | false, true => Cancelled
  | false, false => Blocks
  end.

(** Where a worker stands once the model has run it: it returned, it sits in
    a plain send on [cg.errors], or it sits in a [select] none of whose cases
    is ready. *)
Inductive status : Type :=
| Exited
| BlockedOnErrors
| Waiting
| OutOfFuel.

#[global] Instance status_eq_dec : EqDecision status.
Proof. solve_decision. Defined.

(** ** Opening the broker stream *)

(** [broker n offset] is the error of the [n]-th call of
    [cg.consumer.ConsumePartition] made by a worker when it asks for
    [offset]; on success the stream gets the handle [n]. *)
Definition consumePartition (cg : ConsumerGroup) (broker : nat -> Z -> option error)
    (calls : nat) (topic : string) (part : Z) (nextOffset : Z)
    : (option nat * option error) * nat * list event :=
  let err := broker calls nextOffset in
  let '(consumer, err, calls', tr) :=
    if decide (err = Some ErrOffsetOutOfRange) then
      let '(nextOffset', line) :=
        if Initial (Offsets (config cg)) =? OffsetOldest
        then (OffsetOldest, LogResetOldest topic part)
        else (OffsetNewest, LogResetNewest topic part) in
      (S calls, broker (S calls) nextOffset', S (S calls),
       [EvConsumePartition topic part nextOffset;
        EvLogf (LogOutOfRange topic part); EvLogf line;
        EvConsumePartition topic part nextOffset'])
    else (calls, err, S calls, [EvConsumePartition topic part nextOffset]) in
  match err with
  | Some e => ((None, Some e), calls', tr ++ [EvLogf (LogStartFailed topic part e)])
  | None => ((Some consumer, None), calls', tr)
  end.

(** ** The partition worker *)

Inductive loopInput : Type :=
| InputDone
| InputError (err : option error) (s : selectState)
| InputMessage (msg : option ConsumerMessage) (s : selectState).

(** The world as one partition worker meets it. *)
Record partitionEnv : Type := mkPartitionEnv {
  doneBeforeTimer : Z -> bool;
  claimPartition : Z -> option error;
  errorsState : selectState;
  releasePartition : option error;
  initializePartition : Z * option error;
  brokerConsumePartition : nat -> Z -> option error;
  inputs : list loopInput;
  finalizePartition : option error
}.

Inductive attemptResult : Type :=
| AttemptClaimed
| AttemptRetry
| AttemptGiveUp (err : error).

(** The timer case of the claim loop, up to the send of the give-up branch. *)
Definition claimAttempt (env : partitionEnv) (topic : string) (part : Z)
    (maxRetries tries : Z) : attemptResult * list event :=
  match claimPartition env tries with
  | None => (AttemptClaimed, [EvClaimPartition topic part])
  | Some err =>
      if tries + 1 <? maxRetries then
        (AttemptRetry,
         EvClaimPartition topic part
           :: (if decide (err = ErrPartitionClaimedByOther) then []
               else [EvLogf (LogClaimRetry topic part (tries + 1) maxRetries err)]))
      else
        (AttemptGiveUp err,
         [EvClaimPartition topic part; EvLogf (LogClaimFailed topic part err)])
  end.

Inductive claimResult : Type :=
| ClaimProceed
| ClaimCancelled
| ClaimFailed (err : error)
| ClaimOutOfFuel.

(** [partitionClaimLoop], from the value [tries] of the loop variable on.
    The counter cannot overflow: it is incremented only below [maxRetries]. *)
Fixpoint partitionClaimLoop (fuel : nat) (env : partitionEnv) (topic : string)
    (part : Z) (maxRetries tries : Z) : claimResult * list event :=
  if tries <? maxRetries then
    match fuel with
    | O => (ClaimOutOfFuel, [])
    | S fuel' =>
        if doneBeforeTimer env tries then (ClaimCancelled, [])
        else
          match claimAttempt env topic part maxRetries tries with
          | (AttemptClaimed, tr) => (ClaimProceed, EvTimeAfter (1 * Second) :: tr)
          | (AttemptGiveUp err, tr) => (ClaimFailed err, EvTimeAfter (1 * Second) :: tr)
          | (AttemptRetry, tr) =>
              let '(r, tr') :=
                partitionClaimLoop fuel' env topic part maxRetries (tries + 1) in
              (r, EvTimeAfter (1 * Second) :: tr ++ tr')
          end
    end
  else (ClaimProceed, []).

(** [int(cg.config.Offsets.ProcessingTimeout/time.Second) + 2]; [int] is 64
    bits wide. *)
Definition maxRetriesOf (cg : ConsumerGroup) : Z :=
  wrap64 (go_div (ProcessingTimeout (Offsets (config cg))) Second + 2).

(** The offset the stream is first opened at, with the lines logged. *)
Definition startOffset (cg : ConsumerGroup) (topic : string) (part : Z)
    (nextOffset : Z) : Z * list event :=
  if 0 <=? nextOffset then (nextOffset, [EvLogf (LogStartingAt topic part nextOffset)])
  else
    let nextOffset := Initial (Offsets (config cg)) in
    (nextOffset,
     if nextOffset =? OffsetOldest then [EvLogf (LogStartingOldest topic part)]
     else if nextOffset =? OffsetNewest then [EvLogf (LogStartingNewest topic part)]
     else []).

Inductive loopExit : Type :=
| LoopBreak (lastOffset : Z)
| LoopWaiting.

(** [partitionConsumerLoop]: one list element per completed receive of the
    outer [select]; an exhausted list leaves the worker in that [select]. *)
Fixpoint partitionConsumerLoop (cg : ConsumerGroup) (broker : nat -> Z -> option error)
    (topic : string) (part : Z) (ins : list loopInput) (calls : nat)
    (lastOffset : Z) : loopExit * list event :=
  match ins with
  | [] => (LoopWaiting, [])
  | InputDone :: _ => (LoopBreak lastOffset, [])
  | InputError None _ :: rest | InputMessage None _ :: rest =>
      let '((_, cErr), calls', tr) :=
        consumePartition cg broker calls topic part lastOffset in
      match cErr with
      | Some _ => (LoopBreak lastOffset, EvLogf (LogInvalidState topic part) :: tr)
      | None =>
          let '(r, tr') :=
            partitionConsumerLoop cg broker topic part rest calls' lastOffset in
          (r, EvLogf (LogInvalidState topic part) :: tr ++ tr')
      end
  | InputError (Some err) s :: rest =>
      match selectSend s with
      | Sent =>
          let '(r, tr') :=
            partitionConsumerLoop cg broker topic part rest calls lastOffset in
          (r, EvSendErrors err :: tr')
      | Cancelled => (LoopBreak lastOffset, [])
      | Blocks => (LoopWaiting, [])
      end
  | InputMessage (Some message) s :: rest =>
      match selectSend s with
      | Sent =>
          let '(r, tr') :=
            partitionConsumerLoop cg broker topic part rest calls (msgOffset message) in
          (r, EvSendMessages message :: tr')
      | Cancelled => (LoopBreak lastOffset, [])
      | Blocks => (LoopWaiting, [])
      end
  end.

(** A plain send of a consumer error on [cg.errors], followed by [after]
    when the send completes. *)
Definition sendConsumerError (s : selectState) (err : error) (before after : list event)
    : status * list event :=
  match bareSend s with
  | Sent => (Exited, before ++ EvSendErrors err :: after)
  | _ => (BlockedOnErrors, before)
  end.

(** The worker between the registration of the deferred release and its
    return, the deferred [consumer.Close()] included. *)
Definition consumeClaimed (env : partitionEnv) (cg : ConsumerGroup) (topic : string)
    (part : Z) : status * list event :=
  match initializePartition env with
  | (_, Some err) =>
      (Exited, [EvInitializePartition topic part;
                EvLogf (LogInitialOffsetFailed topic part err)])
  | (nextOffset, None) =>
      let '(nextOffset, lines) := startOffset cg topic part nextOffset in
      let '((consumer, err), calls, tr) :=
        consumePartition cg (brokerConsumePartition env) 0 topic part nextOffset in
      match consumer, err with
      | Some handle, None =>
          match partitionConsumerLoop cg (brokerConsumePartition env) topic part
                  (inputs env) calls (-1) with
          | (LoopWaiting, tr') =>
              (Waiting, EvInitializePartition topic part :: lines ++ tr ++ tr')
          | (LoopBreak lastOffset, tr') =>
              (Exited,
               EvInitializePartition topic part :: lines ++ tr ++ tr'
                 ++ [EvLogf (LogStopping topic part lastOffset);
                     EvFinalizePartition topic part lastOffset
                       (ProcessingTimeout (Offsets (config cg)))]
                 ++ match finalizePartition env with
                    | Some e => [EvLogf (LogFinalizeFailed topic part e)]
                    | None => []
                    end
                 ++ [EvPartitionConsumerClose handle])
          end
      | _, Some e =>
          (Exited, EvInitializePartition topic part :: lines ++ tr
                     ++ [EvLogf (LogStartFailed topic part e)])
      | None, None => (Exited, EvInitializePartition topic part :: lines ++ tr)
      end
  end.

(** Consumes a partition. *)
Definition partitionConsumer (env : partitionEnv) (cg : ConsumerGroup) (topic : string)
    (part : Z) : status * list event :=
  let maxRetries := maxRetriesOf cg in
  match partitionClaimLoop (Z.to_nat maxRetries) env topic part maxRetries 0 with
  | (ClaimOutOfFuel, tr) => (OutOfFuel, tr)
  | (ClaimCancelled, tr) => (Exited, tr ++ [EvLocalWgDone])
  | (ClaimFailed err, tr) =>
      sendConsumerError (errorsState env) (ConsumerError topic part err)
        tr [EvLocalWgDone]
  | (ClaimProceed, tr) =>
      match consumeClaimed env cg topic part with
      | (Exited, tr') =>
          match releasePartition env with
          | None => (Exited, tr ++ tr' ++ [EvReleasePartition topic part; EvLocalWgDone])
          | Some err =>
              sendConsumerError (errorsState env) (ConsumerError topic part err)
                (tr ++ tr' ++ [EvReleasePartition topic part;
                               EvLogf (LogReleaseFailed topic part err)])
                [EvLocalWgDone]
          end
      | (st, tr') => (st, tr ++ tr')
      end
  end.

(** ** The topic worker *)

Record topicEnv : Type := mkTopicEnv {
  doneAtStart : bool;
  topicPartitions : list Partition * option error;
  partitionLeaderOf : Partition -> Z * option error;
  topicErrorsState : selectState
}.

(** [zookeeperClient.RetrievePartitionLeaders]. *)
Fixpoint RetrievePartitionLeaders (leaderOf : Partition -> Z * option error)
    (partitions : list Partition) : list partitionLeader * option error :=
  match partitions with
  | [] => ([], None)
  | p :: rest =>
      match leaderOf p with
      | (_, Some err) => ([], Some err)
      | (l, None) =>
          match RetrievePartitionLeaders leaderOf rest with
          | (_, Some err) => ([], Some err)
          | (pls, None) => ({| id := ID p; leader := l; partition := p |} :: pls, None)
          end
      end
  end.

Definition topicConsumer (env : topicEnv) (cg : ConsumerGroup) (topic : string)
    : status * list event :=
  if doneAtStart env then (Exited, [EvWgDone])
  else
    match topicPartitions env with
    | (_, Some err) =>
        sendConsumerError (topicErrorsState env) (ConsumerError topic (-1) err)
          [EvLogf (LogTopicStarted topic); EvTopicPartitions topic;
           EvLogf (LogPartitionsFailed topic err)]
          [EvCancel; EvWgDone]
    | (partitions, None) =>
        match RetrievePartitionLeaders (partitionLeaderOf env) partitions with
        | (_, Some err) =>
            sendConsumerError (topicErrorsState env) (ConsumerError topic (-1) err)
              [EvLogf (LogTopicStarted topic); EvTopicPartitions topic;
               EvRetrievePartitionLeaders; EvLogf (LogLeadersFailed topic err)]
              [EvCancel; EvWgDone]
        | (topicPartitionLeaders, None) =>
            let dividedPartitions :=
              dividePartitionsBetweenConsumers (consumers cg) topicPartitionLeaders in
            let myPartitions := mapIndex dividedPartitions (instanceID cg) in
            (Exited,
             [EvLogf (LogTopicStarted topic); EvTopicPartitions topic;
              EvRetrievePartitionLeaders;
              EvLogf (LogClaiming topic (length myPartitions)
                        (length topicPartitionLeaders))]
               ++ concat (map (fun pid : Partition =>
                                 [EvLocalWgAdd; EvGoPartitionConsumer topic (ID pid)])
                            myPartitions)
               ++ [EvLocalWgWait; EvLogf (LogTopicStopped topic); EvWgDone])
        end
    end.

(** ** Reading traces *)

Definition isTimerOrClaim (e : event) : bool :=
  match e with
  | EvTimeAfter _ | EvClaimPartition _ _ => true
  | _ => false
  end.

(** The waits and claim attempts of a trace, in order. *)
Definition waitsAndClaims (tr : list event) : list event :=
  List.filter isTimerOrClaim tr.

Definition isClaimAttempt (e : event) : bool :=
  match e with EvClaimPartition _ _ => true | _ => false end.

Definition claimAttempts (tr : list event) : nat :=
  length (List.filter isClaimAttempt tr).

(** The offsets of the [ConsumePartition] calls of a trace, in order. *)
Fixpoint consumeOffsets (tr : list event) : list Z :=
  match tr with
  | [] => []
  | EvConsumePartition _ _ offset :: rest => offset :: consumeOffsets rest
  | _ :: rest => consumeOffsets rest
  end.

Definition countEvent (e : event) (tr : list event) : nat :=
  length (List.filter (fun e' => bool_decide (e' = e)) tr).

(** The kinds of effect of the claim phase, and of the phase after it. *)
Definition claimPhaseEvent (e : event) : bool :=
  match e with
  | EvLogf _ | EvTimeAfter _ | EvClaimPartition _ _ => true
  | _ => false
  end.

Definition consumePhaseEvent (e : event) : bool :=
  match e with
  | EvLogf _ | EvInitializePartition _ _ | EvConsumePartition _ _ _
  | EvSendErrors _ | EvSendMessages _ | EvFinalizePartition _ _ _ _
  | EvPartitionConsumerClose _ => true
  | _ => false
  end.

Definition closesDownstream (e : event) : bool :=
  match e with
  | EvCloseMessages | EvCloseErrors => true
  | _ => false
  end.

(** The retry budget as section 4.4 words it: the processing timeout in
    seconds, rounded up, plus two. *)
Definition ceilSeconds (d : Z) : Z := - ((- d) / Second).

Definition specRetryBudget (processingTimeout : Z) : Z :=
  ceilSeconds processingTimeout + 2.

(** ** Sample inputs *)

Definition sampleSaramaConfig : SaramaConfig :=
  {| ClientID := "sarama"; ChannelBufferSize := 256; saramaOther := 0 |}.

Definition sampleKazooConfig : KazooConfig :=
  {| Timeout := 1 * Second; kazooOther := 0 |}.

(** A configuration as [NewConfig] builds it, with the given offsets. *)
Definition sampleConfig (initial processingTimeout commitInterval : Z) : Config :=
  {| saramaConfig := Some sampleSaramaConfig;
     Zookeeper := Some sampleKazooConfig;
     Offsets := {| Initial := initial;
                   ProcessingTimeout := processingTimeout;
                   CommitInterval := commitInterval;
                   ResetOffsets := false |} |}.

(** A live handle of instance [member-a] in a group of two. *)
Definition sampleGroup (initial processingTimeout : Z) : ConsumerGroup :=
  {| config := sampleConfig initial processingTimeout (10 * Second);
     groupName := "group";
     instance := true;
     instanceID := "host-1:member-a";
     singleShutdown := false;
     consumers := ["host-1:member-a"; "host-2:member-b"] |}.

Definition readyState : selectState :=
  {| chanReady := true; ctxDone := false; pickSend := true |}.

(** The downstream channel is full, nobody receives, and the generation has
    been cancelled. *)
Definition wedgedState : selectState :=
  {| chanReady := false; ctxDone := true; pickSend := true |}.

(** A partition that another member never lets go of. *)
Definition contendedEnv (s : selectState) : partitionEnv :=
  {| doneBeforeTimer := fun _ => false;
     claimPartition := fun _ => Some ErrPartitionClaimedByOther;
     errorsState := s;
     releasePartition := None;
     initializePartition := (-1, None);
     brokerConsumePartition := fun _ _ => None;
     inputs := [InputDone];
     finalizePartition := None |}.

(** A partition claimed at the first attempt, whose stored offset is
    [stored], consumed until the generation is cancelled; [release] is the
    answer of [ReleasePartition]. *)
Definition claimedEnv (stored : Z) (broker : nat -> Z -> option error)
    (ins : list loopInput) (release : option error) (s : selectState) : partitionEnv :=
  {| doneBeforeTimer := fun _ => false;
     claimPartition := fun _ => None;
     errorsState := s;
     releasePartition := release;
     initializePartition := (stored, None);
     brokerConsumePartition := broker;
     inputs := ins;
     finalizePartition := None |}.

Definition samplePartitions : list partitionLeader :=
  map (fun i => {| id := i; leader := 1;
                   partition := {| ID := i; Replicas := [1] |} |}) [0; 1; 2; 3].

Definition sampleCloseEnv : closeEnv :=
  {| offsetManagerClose := None; instanceDeregister := None;
     consumerClose := None; kazooClose := None |}.

Definition sampleConstructEnv : constructEnv :=
  {| newKazoo := None; brokerList := None; resetOffsets := None;
     generateConsumerInstanceID := ("host-1:member-a", None);
     newConsumer := None; groupExists := (true, None);
     groupCreate := None; instanceRegister := None |}.

(** ** The log prefix *)

(** The identifier [cg.Logf] prints after the group name: the last twelve
    bytes of the instance ID, or "(defunct)" once the instance handle is
    nil.  Slicing an ID of fewer than twelve bytes panics. *)
Definition logIdentifier (cg : ConsumerGroup) : outcome string :=
  if instance cg then
    let n := String.length (instanceID cg) in
    if (n <? 12)%nat then Panic
    else Return (String.substring (n - 12) 12 (instanceID cg))
  else Return "(defunct)".

(** [cg.Logf], given the message that [fmt.Sprintf] has formatted: the line
    handed to [sarama.Logger.Printf]. *)
Definition Logf (cg : ConsumerGroup) (message : string) : outcome string :=
  match logIdentifier cg with
  | Panic => Panic
  | Return identifier =>
      Return (String.append "["
                (String.append (groupName cg)
                   (String.append "/"
                      (String.append identifier (String.append "] " message)))))
  end.

(** ** The top-level loop *)

Inductive supervisorLog : Type :=
| LogWatchFailed (err : error)
| LogRegisteredConsumers (n : nat)
| LogRegisterStatusFailed (err : error)
| LogReregisterFailed (err : error)
| LogReregistered (instance : string)
| LogRebalance.

(** The effects of [topicListConsumer], in program order. *)
Inductive supervisorEvent : Type :=
| SvMuLock
| SvMuUnlock
| SvLimiterWait
| SvWatchInstances
| SvLogf (line : supervisorLog)
| SvWgAdd
| SvGoTopicConsumer (topic : string)
| SvCancel
| SvWgWait
| SvSleep (d : Z)
| SvRegistered
| SvRegister (topics : list string).

(** Which case of the second [select] of an iteration fires: the generation
    context is done, the stopper is closed (with or without
    [TESTING_FAILURE_INJECTION] set to 1), or the member list changed, in
    which case [registered] and [register] are the answers of
    [cg.instance.Registered()] and [cg.instance.Register(topics)]; or none
    yet. *)
Inductive generationEnd : Type :=
| EndCtxDone
| EndStopper (failureInjection : bool)
| EndChanges (registered : bool * option error) (register : option error)
| EndBlocked.

(** The world as one iteration of the loop meets it. *)
Record generation : Type := mkGeneration {
  stopperClosed : bool;
  watchInstances : list string * option error;
  generationEnds : generationEnd
}.

Inductive supervisorStatus : Type :=
| SupReturned
| SupWaiting
| SupScriptEnd
| SupPanicked.

Definition setConsumers (cg : ConsumerGroup) (members : list string) : ConsumerGroup :=
  {| config := config cg; groupName := groupName cg; instance := instance cg;
     instanceID := instanceID cg; singleShutdown := singleShutdown cg;
     consumers := members |}.

(** [time.Millisecond], in nanoseconds. *)
Definition Millisecond : Z := 1000000.

(** [topicListConsumer]: one list element per iteration of the loop.  The
    call [cg.instance.Registered()] panics when the instance handle is
    nil. *)
Fixpoint topicListConsumer (cg : ConsumerGroup) (topics : list string)
    (gens : list generation) : supervisorStatus * ConsumerGroup * list supervisorEvent :=
  match gens with
  | [] => (SupScriptEnd, cg, [])
  | g :: rest =>
      if stopperClosed g then (SupReturned, cg, [SvMuLock; SvMuUnlock])
      else
        match watchInstances g with
        | (_, Some err) =>
            (SupReturned, cg,
             [SvMuLock; SvLimiterWait; SvWatchInstances; SvLogf (LogWatchFailed err);
              SvCancel; SvMuUnlock])
        | (members, None) =>
            let cg1 := setConsumers cg members in
            let tr :=
              [SvMuLock; SvLimiterWait; SvWatchInstances;
               SvLogf (LogRegisteredConsumers (length members))]
                ++ concat (map (fun topic => [SvWgAdd; SvGoTopicConsumer topic]) topics)
                ++ [SvMuUnlock] in
            match generationEnds g with
            | EndBlocked => (SupWaiting, cg1, tr)
            | EndCtxDone =>
                let '(st, cg2, tr') := topicListConsumer cg1 topics rest in
                (st, cg2, tr ++ SvWgWait :: tr')
            | EndStopper failureInjection =>
                (SupReturned, cg1,
                 tr ++ (if failureInjection then [SvSleep (1 * Millisecond)] else [])
                    ++ [SvCancel])
            | EndChanges registered register =>
                if instance cg1 then
                  let lines :=
                    match registered with
                    | (_, Some err) => [SvRegistered; SvLogf (LogRegisterStatusFailed err)]
                    | (true, None) => [SvRegistered]
                    | (false, None) =>
                        [SvRegistered; SvRegister topics;
                         match register with
                         | Some err => SvLogf (LogReregisterFailed err)
                         | None => SvLogf (LogReregistered (instanceID cg1))
                         end]
                    end in
                  let '(st, cg2, tr') := topicListConsumer cg1 topics rest in
                  (st, cg2, tr ++ lines ++ SvLogf LogRebalance :: SvCancel :: SvWgWait :: tr')
                else (SupPanicked, cg1, tr)
            end
        end
  end.

(** Runs a trace of the loop against the mutex: [Some held] is the state of
    [cg.mu] at the end, [None] means the trace locks a held mutex, unlocks a
    free one, or watches the member list, adds to the wait group or starts a
    topic worker without holding it. *)
Fixpoint lockDiscipline (held : bool) (tr : list supervisorEvent) : option bool :=
  match tr with
  | [] => Some held
  | SvMuLock :: rest => if held then None else lockDiscipline true rest
  | SvMuUnlock :: rest => if held then lockDiscipline false rest else None
  | SvWatchInstances :: rest | SvWgAdd :: rest | SvGoTopicConsumer _ :: rest =>
      if held then lockDiscipline held rest else None
  | _ :: rest => lockDiscipline held rest
  end.

(** [live] tells whether topic workers have been started and not joined
    since.  The result is [false] when the trace begins an iteration (locks
    the mutex) while such workers exist. *)
Fixpoint joinedBeforeNext (live : bool) (tr : list supervisorEvent) : bool :=
  match tr with
  | [] => true
  | SvMuLock :: rest => negb live && joinedBeforeNext live rest
  | SvGoTopicConsumer _ :: rest => joinedBeforeNext true rest
  | SvWgWait :: rest => joinedBeforeNext false rest
  | _ :: rest => joinedBeforeNext live rest
  end.

Fixpoint spawnedTopics (tr : list supervisorEvent) : list string :=
  match tr with
  | [] => []
  | SvGoTopicConsumer topic :: rest => topic :: spawnedTopics rest
  | _ :: rest => spawnedTopics rest
  end.

(** The number of member-list snapshots a trace took successfully. *)
Fixpoint generationsStarted (tr : list supervisorEvent) : nat :=
  match tr with
  | [] => 0
  | SvLogf (LogRegisteredConsumers _) :: rest => S (generationsStarted rest)
  | _ :: rest => generationsStarted rest
  end.

(** ** More ways to read a worker's trace *)

Fixpoint sentMessages (tr : list event) : list ConsumerMessage :=
  match tr with
  | [] => []
  | EvSendMessages msg :: rest => msg :: sentMessages rest
  | _ :: rest => sentMessages rest
  end.

(** The messages the broker stream hands to the main loop, nil sentinels
    left out. *)
Fixpoint receivedMessages (ins : list loopInput) : list ConsumerMessage :=
  match ins with
  | [] => []
  | InputMessage (Some msg) _ :: rest => msg :: receivedMessages rest
  | _ :: rest => receivedMessages rest
  end.

(** The offset of the last message of a list, [fallback] for none. *)
Definition lastOffsetOf (fallback : Z) (msgs : list ConsumerMessage) : Z :=
  match last msgs with
  | Some msg => msgOffset msg
  | None => fallback
  end.

(** The arguments [lastOffset] and [timeout] of the [FinalizePartition]
    calls of a trace. *)
Fixpoint finalizeCalls (tr : list event) : list (Z * Z) :=
  match tr with
  | [] => []
  | EvFinalizePartition _ _ lastOffset timeout :: rest =>
      (lastOffset, timeout) :: finalizeCalls rest
  | _ :: rest => finalizeCalls rest
  end.

Fixpoint spawnedPartitions (tr : list event) : list Z :=
  match tr with
  | [] => []
  | EvGoPartitionConsumer _ part :: rest => part :: spawnedPartitions rest
  | _ :: rest => spawnedPartitions rest
  end.

(** ** Auxiliary readings of traces *)

(** The effects of opening a stream: log lines and calls to the offset
    manager and the broker, which neither forward nor finalise anything. *)
Definition quietEvent (e : event) : bool :=
  match e with
  | EvLogf _ | EvConsumePartition _ _ _ | EvInitializePartition _ _ => true
  | _ => false
  end.


(** Whether topic workers started in a trace are still unjoined at its end. *)
Fixpoint liveAfter (live : bool) (tr : list supervisorEvent) : bool :=
  match tr with
  | [] => live
  | SvGoTopicConsumer _ :: rest => liveAfter true rest
  | SvWgWait :: rest => liveAfter false rest
  | _ :: rest => liveAfter live rest
  end.

(** The number of [cg.wg.Add(1)] calls of a trace. *)
Fixpoint countWgAdd (tr : list supervisorEvent) : nat :=
  match tr with
  | [] => 0
  | SvWgAdd :: rest => S (countWgAdd rest)
  | _ :: rest => countWgAdd rest
  end.

(** The body of the [for _, topic := range topics] loop. *)
Definition spawnAll (topics : list string) : list supervisorEvent :=
  concat (map (fun topic => [SvWgAdd; SvGoTopicConsumer topic]) topics).

(** The trace of one iteration up to the second [select]. *)
Definition generationStart (members : list string) (topics : list string)
    : list supervisorEvent :=
  [SvMuLock; SvLimiterWait; SvWatchInstances;
   SvLogf (LogRegisteredConsumers (length members))]
    ++ spawnAll topics ++ [SvMuUnlock].

(** Two handles that differ at most in their member-list snapshot. *)
Definition sameIdentity (a b : ConsumerGroup) : Prop :=
  config a = config b /\ groupName a = groupName b /\ instance a = instance b /\
  instanceID a = instanceID b /\ singleShutdown a = singleShutdown b.

(** The effects of handling a membership change up to the rebalance. *)
Definition reregistration (e : supervisorEvent) : bool :=
  match e with
  | SvRegistered | SvRegister _
  | SvLogf (LogRegisterStatusFailed _) | SvLogf (LogReregisterFailed _)
  | SvLogf (LogReregistered _) => true
  | _ => false
  end.

(** Whether every [go cg.topicConsumer] of a trace comes directly after a
    [cg.wg.Add(1)] of its own.  [pending] tells that an Add waits for its go
    statement; the result is [false] when a worker is started with no Add
    pending, when an Add is followed by anything but the go statement, or
    when the trace ends with an Add pending. *)
Fixpoint addedBeforeGo (pending : bool) (tr : list supervisorEvent) : bool :=
  match tr with
  | [] => negb pending
  | SvWgAdd :: rest => negb pending && addedBeforeGo true rest
  | SvGoTopicConsumer _ :: rest => pending && addedBeforeGo false rest
  | _ :: rest => negb pending && addedBeforeGo false rest
  end.

(** ** The goroutines together *)

(** [Close], the top-level loop and the workers run as goroutines that meet
    in the mutex [cg.mu], the channel [cg.stopper], the wait group [cg.wg],
    the wait group local to each topic worker, and the two downstream
    channels.  A goroutine is run by performing, one at a time, the effects
    that its function above yields for the answers it gets from its
    environment; an effect that has to wait (a lock of the held mutex, a
    [Wait] on a wait group that is not at zero) cannot be performed yet.
    Any interleaving of the goroutines is a run.  A worker whose function
    ends blocked in a send never returns; the log lines are taken to be
    printed (the instance ID has the twelve bytes [Logf] needs). *)

(** A partition worker: the status its function ends in and the effects it
    has still to perform. *)
Record partitionWorker : Type := mkPartitionWorker {
  pwStatus : status;
  pwTodo : list event
}.

(** A topic worker, with the counter of its local [sync.WaitGroup] and the
    partition workers it has started. *)
Record topicWorker : Type := mkTopicWorker {
  twStatus : status;
  twTodo : list event;
  twWg : Z;
  twPartitions : list partitionWorker
}.

(** Where the top-level loop stands: before [cg.mu.Lock()] at the head of an
    iteration, before the [select] on the stopper that follows it, or inside
    an iteration whose remaining effects are [todo] and which ends in
    [st]. *)
Inductive supervisorPc : Type :=
| SupAtLock
| SupAtSelect
| SupInIteration (st : supervisorStatus) (todo : list supervisorEvent).

(** The shared state and the goroutines.  [closer] is [None] until [Close]
    is called; [messagesCloses] and [errorsCloses] count the executions of
    [close(cg.messages)] and [close(cg.errors)]. *)
Record world : Type := mkWorld {
  muHeld : bool;
  stopperIsClosed : bool;
  wgCounter : Z;
  messagesCloses : nat;
  errorsCloses : nat;
  handle : ConsumerGroup;
  closer : option (list event);
  supervisor : supervisorPc;
  topicWorkers : list topicWorker
}.

Definition withMu (b : bool) (w : world) : world :=
  {| muHeld := b; stopperIsClosed := stopperIsClosed w; wgCounter := wgCounter w;
     messagesCloses := messagesCloses w; errorsCloses := errorsCloses w;
     handle := handle w; closer := closer w; supervisor := supervisor w;
     topicWorkers := topicWorkers w |}.

Definition withStopper (b : bool) (w : world) : world :=
  {| muHeld := muHeld w; stopperIsClosed := b; wgCounter := wgCounter w;
     messagesCloses := messagesCloses w; errorsCloses := errorsCloses w;
     handle := handle w; closer := closer w; supervisor := supervisor w;
     topicWorkers := topicWorkers w |}.

Definition withWg (n : Z) (w : world) : world :=
  {| muHeld := muHeld w; stopperIsClosed := stopperIsClosed w; wgCounter := n;
     messagesCloses := messagesCloses w; errorsCloses := errorsCloses w;
     handle := handle w; closer := closer w; supervisor := supervisor w;
     topicWorkers := topicWorkers w |}.

Definition withMessagesCloses (n : nat) (w : world) : world :=
  {| muHeld := muHeld w; stopperIsClosed := stopperIsClosed w; wgCounter := wgCounter w;
     messagesCloses := n; errorsCloses := errorsCloses w;
     handle := handle w; closer := closer w; supervisor := supervisor w;
     topicWorkers := topicWorkers w |}.

Definition withErrorsCloses (n : nat) (w : world) : world :=
  {| muHeld := muHeld w; stopperIsClosed := stopperIsClosed w; wgCounter := wgCounter w;
     messagesCloses := messagesCloses w; errorsCloses := n;
     handle := handle w; closer := closer w; supervisor := supervisor w;
     topicWorkers := topicWorkers w |}.

Definition withHandle (cg : ConsumerGroup) (w : world) : world :=
  {| muHeld := muHeld w; stopperIsClosed := stopperIsClosed w; wgCounter := wgCounter w;
     messagesCloses := messagesCloses w; errorsCloses := errorsCloses w;
     handle := cg; closer := closer w; supervisor := supervisor w;
     topicWorkers := topicWorkers w |}.

Definition withCloser (c : option (list event)) (w : world) : world :=
  {| muHeld := muHeld w; stopperIsClosed := stopperIsClosed w; wgCounter := wgCounter w;
     messagesCloses := messagesCloses w; errorsCloses := errorsCloses w;
     handle := handle w; closer := c; supervisor := supervisor w;
     topicWorkers := topicWorkers w |}.

Definition withSupervisor (pc : supervisorPc) (w : world) : world :=
  {| muHeld := muHeld w; stopperIsClosed := stopperIsClosed w; wgCounter := wgCounter w;
     messagesCloses := messagesCloses w; errorsCloses := errorsCloses w;
     handle := handle w; closer := closer w; supervisor := pc;
     topicWorkers := topicWorkers w |}.

Definition withTopicWorkers (tws : list topicWorker) (w : world) : world :=
  {| muHeld := muHeld w; stopperIsClosed := stopperIsClosed w; wgCounter := wgCounter w;
     messagesCloses := messagesCloses w; errorsCloses := errorsCloses w;
     handle := handle w; closer := closer w; supervisor := supervisor w;
     topicWorkers := tws |}.

(** The handle once [cg.singleShutdown] has fired, and once [cg.instance]
    is nil. *)
Definition markShutdown (cg : ConsumerGroup) : ConsumerGroup :=
  {| config := config cg; groupName := groupName cg; instance := instance cg;
     instanceID := instanceID cg; singleShutdown := true; consumers := consumers cg |}.

Definition clearInstance (cg : ConsumerGroup) : ConsumerGroup :=
  {| config := config cg; groupName := groupName cg; instance := false;
     instanceID := instanceID cg; singleShutdown := singleShutdown cg;
     consumers := consumers cg |}.

(** What an effect of [Close] or of a worker does to the shared state;
    [None] when it has to wait.  The effects on a topic worker's own wait
    group are those of [stepTopic] and [stepPartition] below. *)
Definition perform (e : event) (w : world) : option world :=
  match e with
  | EvMuLock => if muHeld w then None else Some (withMu true w)
  | EvMuUnlock => Some (withMu false w)
  | EvCloseStopper => Some (withStopper true w)
  | EvWgWait => if wgCounter w =? 0 then Some w else None
  | EvWgDone => Some (withWg (wgCounter w - 1) w)
  | EvCloseMessages => Some (withMessagesCloses (S (messagesCloses w)) w)
  | EvCloseErrors => Some (withErrorsCloses (S (errorsCloses w)) w)
  | EvSetInstanceNil => Some (withHandle (clearInstance (handle w)) w)
  | _ => Some w
  end.

(** A call of [Close]: the first one takes [cg.singleShutdown] and has the
    effects of [Close] to perform; a later one has none. *)
Definition callClose (env : closeEnv) (w : world) : option world :=
  if singleShutdown (handle w) then Some w
  else Some (withCloser (Some (snd (Close env (handle w))))
               (withHandle (markShutdown (handle w)) w)).

Definition stepClose (w : world) : option world :=
  match closer w with
  | Some (e :: rest) =>
      match perform e w with
      | Some w' => Some (withCloser (Some rest) w')
      | None => None
      end
  | _ => None
  end.

(** A step of the top-level loop.  At the head of an iteration it locks the
    mutex; at the [select] it reads the stopper, and the rest of the
    iteration is the one [topicListConsumer] yields for what it read, for
    the member list [g] answers and for the case of the second [select]
    that [g] lets fire; inside the iteration it performs the next effect,
    [tenv] being the world as a topic worker started now will meet it.
    Which case of the second [select] fires, and when, is the choice of
    the environment: the cancellation of a generation and the changes of
    the member list are not tracked, and the stopper case is not held back
    until the stopper is closed, so the runs include those of the
    program. *)
Definition stepSupervisor (topics : list string) (g : generation) (tenv : topicEnv)
    (w : world) : option world :=
  match supervisor w with
  | SupAtLock =>
      if muHeld w then None else Some (withSupervisor SupAtSelect (withMu true w))
  | SupAtSelect =>
      let seen := {| stopperClosed := stopperIsClosed w;
                     watchInstances := watchInstances g;
                     generationEnds := generationEnds g |} in
      match topicListConsumer (handle w) topics [seen] with
      | (st, cg, SvMuLock :: todo) =>
          Some (withSupervisor (SupInIteration st todo) (withHandle cg w))
      | _ => None
      end
  | SupInIteration SupScriptEnd [] => Some (withSupervisor SupAtLock w)
  | SupInIteration _ [] => None
  | SupInIteration st (e :: rest) =>
      let next := withSupervisor (SupInIteration st rest) in
      match e with
      | SvMuLock => if muHeld w then None else Some (next (withMu true w))
      | SvMuUnlock => Some (next (withMu false w))
      | SvWgAdd => Some (next (withWg (wgCounter w + 1) w))
      | SvWgWait => if wgCounter w =? 0 then Some (next w) else None
      | SvGoTopicConsumer topic =>
          let '(st', todo) := topicConsumer tenv (handle w) topic in
          Some (next (withTopicWorkers
                        (topicWorkers w
                           ++ [{| twStatus := st'; twTodo := todo; twWg := 0;
                                  twPartitions := [] |}]) w))
      | _ => Some (next w)
      end
  end.

(** A step of the [i]-th topic worker; [penv] is the world as a partition
    worker started now will meet it. *)
Definition stepTopic (i : nat) (penv : partitionEnv) (w : world) : option world :=
  match topicWorkers w !! i with
  | Some tw =>
      match twTodo tw with
      | [] => None
      | e :: rest =>
          let put (wg : Z) (parts : list partitionWorker) (w' : world) : world :=
            withTopicWorkers
              (<[i := {| twStatus := twStatus tw; twTodo := rest; twWg := wg;
                         twPartitions := parts |}]> (topicWorkers w')) w' in
          match e with
          | EvLocalWgAdd => Some (put (twWg tw + 1) (twPartitions tw) w)
          | EvLocalWgWait =>
              if twWg tw =? 0 then Some (put (twWg tw) (twPartitions tw) w) else None
          | EvGoPartitionConsumer topic part =>
              let '(st, todo) := partitionConsumer penv (handle w) topic part in
              Some (put (twWg tw)
                      (twPartitions tw ++ [{| pwStatus := st; pwTodo := todo |}]) w)
          | _ =>
              match perform e w with
              | Some w' => Some (put (twWg tw) (twPartitions tw) w')
              | None => None
              end
          end
      end
  | None => None
  end.

(** A step of the [j]-th partition worker of the [i]-th topic worker. *)
Definition stepPartition (i j : nat) (w : world) : option world :=
  match topicWorkers w !! i with
  | Some tw =>
      match twPartitions tw !! j with
      | Some pw =>
          match pwTodo pw with
          | [] => None
          | e :: rest =>
              let put (wg : Z) (w' : world) : world :=
                withTopicWorkers
                  (<[i := {| twStatus := twStatus tw; twTodo := twTodo tw; twWg := wg;
                             twPartitions :=
                               <[j := {| pwStatus := pwStatus pw; pwTodo := rest |}]>
                                 (twPartitions tw) |}]> (topicWorkers w')) w' in
              match e with
              | EvLocalWgDone => Some (put (twWg tw - 1) w)
              | _ =>
                  match perform e w with
                  | Some w' => Some (put (twWg tw) w')
                  | None => None
                  end
              end
          end
      | None => None
      end
  | None => None
  end.

(** What the scheduler and the environment choose next. *)
Inductive choice : Type :=
| CallClose (env : closeEnv)
| StepClose
| StepSupervisor (g : generation) (tenv : topicEnv)
| StepTopic (i : nat) (penv : partitionEnv)
| StepPartition (i j : nat).

Definition schedule (topics : list string) (w : world) (c : choice) : option world :=
  match c with
  | CallClose env => callClose env w
  | StepClose => stepClose w
  | StepSupervisor g tenv => stepSupervisor topics g tenv w
  | StepTopic i penv => stepTopic i penv w
  | StepPartition i j => stepPartition i j w
  end.

(** A run: the world after the chosen steps, [None] if one of them cannot
    be taken where it is chosen. *)
Fixpoint run (topics : list string) (w : world) (choices : list choice) : option world :=
  match choices with
  | [] => Some w
  | c :: rest =>
      match schedule topics w c with
      | Some w' => run topics w' rest
      | None => None
      end
  end.

(** The world when [JoinConsumerGroup] returns the handle [cg]: the
    top-level loop has been started, no worker exists, [Close] has not been
    called. *)
Definition joined (cg : ConsumerGroup) : world :=
  {| muHeld := false; stopperIsClosed := false; wgCounter := 0;
     messagesCloses := 0; errorsCloses := 0; handle := cg; closer := None;
     supervisor := SupAtLock; topicWorkers := [] |}.

(** A goroutine has returned when its function ends by returning and none
    of its effects is left. *)
Definition returned (st : status) (todo : list event) : bool :=
  bool_decide (st = Exited) && match todo with [] => true | _ => false end.

Definition runningPartition (pw : partitionWorker) : bool :=
  negb (returned (pwStatus pw) (pwTodo pw)).

Definition runningTopic (tw : topicWorker) : bool :=
  negb (returned (twStatus tw) (twTodo tw)).

(** Every topic worker and every partition worker ever started has
    returned. *)
Definition allJoined (w : world) : bool :=
  forallb (fun tw => negb (runningTopic tw)
                     && forallb (fun pw => negb (runningPartition pw)) (twPartitions tw))
    (topicWorkers w).

Definition nextIsGoTopic (todo : list supervisorEvent) : bool :=
  match todo with SvGoTopicConsumer _ :: _ => true | _ => false end.

(** [1] while the top-level loop stands between a [cg.wg.Add(1)] and the go
    statement that follows it. *)
Definition pendingGo (w : world) : Z :=
  match supervisor w with
  | SupInIteration _ todo => if nextIsGoTopic todo then 1 else 0
  | _ => 0
  end.

(** How far [Close] has come, read off the effects it has left: 0 before
    the lock, 1 before [close(cg.stopper)], 2 before the unlock, 3 before
    [cg.wg.Wait()], 4 once the wait is over. *)
Definition closerStage (todo : list event) : nat :=
  match todo with
  | EvMuLock :: _ => 0
  | EvCloseStopper :: _ => 1
  | EvMuUnlock :: _ => 2
  | EvWgWait :: _ => 3
  | _ => 4
  end.

(** [cg.wg.Wait()] in [Close] has returned. *)
Definition joinPassed (w : world) : bool :=
  match closer w with
  | Some todo => (4 <=? closerStage todo)%nat
  | None => false
  end.

(** *** Shapes of the effects a goroutine has left *)

(** Effects that touch none of the mutex, the stopper, the wait groups and
    the downstream channels' closing. *)
Definition silent (e : event) : bool :=
  match e with
  | EvMuLock | EvMuUnlock | EvCloseStopper | EvWgWait | EvWgDone
  | EvCloseMessages | EvCloseErrors | EvSetInstanceNil
  | EvLocalWgAdd | EvGoPartitionConsumer _ _ | EvLocalWgWait | EvLocalWgDone => false
  | _ => true
  end.

(** Silent effects, followed by [final] and nothing more if the goroutine
    returns ([exits]), by nothing if it does not. *)
Fixpoint runsOut (final : event) (exits : bool) (todo : list event) : bool :=
  match todo with
  | [] => negb exits
  | e :: rest =>
      if bool_decide (e = final)
      then exits && match rest with [] => true | _ => false end
      else silent e && runsOut final exits rest
  end.

(** A topic worker that has still to wait for its partition workers:
    silent effects and pairs of [wg.Add(1)] and a go statement, then
    [wg.Wait()], then the run-out to [cg.wg.Done()].  [pending] tells that
    the next effect is the go statement of an Add already performed. *)
Fixpoint spawnShape (pending : bool) (todo : list event) : bool :=
  match todo with
  | [] => false
  | EvLocalWgAdd :: rest => negb pending && spawnShape true rest
  | EvGoPartitionConsumer _ _ :: rest => pending && spawnShape false rest
  | EvLocalWgWait :: rest => negb pending && runsOut EvWgDone true rest
  | e :: rest => negb pending && silent e && spawnShape false rest
  end.

Definition nextIsGoPartition (todo : list event) : bool :=
  match todo with EvGoPartitionConsumer _ _ :: _ => true | _ => false end.

(** Effects of the top-level loop outside the critical section. *)
Definition svQuiet (e : supervisorEvent) : bool :=
  match e with
  | SvMuLock | SvMuUnlock | SvWgAdd | SvGoTopicConsumer _ => false
  | _ => true
  end.

Definition svSpawns (e : supervisorEvent) : bool :=
  match e with
  | SvWgAdd | SvGoTopicConsumer _ => true
  | _ => false
  end.

(** The rest of an iteration that still holds the mutex: pairs of
    [cg.wg.Add(1)] and a go statement among other effects, the unlock, and
    quiet effects after it. *)
Fixpoint insideCS (pending : bool) (todo : list supervisorEvent) : bool :=
  match todo with
  | [] => false
  | SvMuLock :: _ => false
  | SvMuUnlock :: rest => negb pending && forallb svQuiet rest
  | SvWgAdd :: rest => negb pending && insideCS true rest
  | SvGoTopicConsumer _ :: rest => pending && insideCS false rest
  | _ :: rest => negb pending && insideCS false rest
  end.

(** The effects of [Close] after [cg.wg.Wait()]. *)
Definition teardown (e : event) : bool :=
  match e with
  | EvLogf _ | EvOffsetManagerClose | EvDeregister | EvConsumerClose
  | EvCloseMessages | EvCloseErrors | EvSetInstanceNil | EvKazooClose => true
  | _ => false
  end.

Definition closerShape (todo : list event) : bool :=
  match todo with
  | EvMuLock :: EvCloseStopper :: EvMuUnlock :: EvWgWait :: rest
  | EvCloseStopper :: EvMuUnlock :: EvWgWait :: rest
  | EvMuUnlock :: EvWgWait :: rest
  | EvWgWait :: rest
  | rest => forallb teardown rest
  end.

(** *** What holds in every world of a run *)

Definition closerHolds (w : world) : bool :=
  match closer w with
  | Some todo => (closerStage todo =? 1)%nat || (closerStage todo =? 2)%nat
  | None => false
  end.

Definition supervisorHolds (w : world) : bool :=
  match supervisor w with
  | SupAtLock => false
  | SupAtSelect => true
  | SupInIteration _ todo => negb (forallb svQuiet todo)
  end.

Definition closerOK (w : world) : Prop :=
  match closer w with
  | None =>
      stopperIsClosed w = false /\ messagesCloses w = 0%nat /\ errorsCloses w = 0%nat
  | Some todo =>
      closerShape todo = true /\
      singleShutdown (handle w) = true /\
      stopperIsClosed w = (2 <=? closerStage todo)%nat /\
      (messagesCloses w + countEvent EvCloseMessages todo = 1)%nat /\
      (errorsCloses w + countEvent EvCloseErrors todo = 1)%nat /\
      ((closerStage todo < 4)%nat -> messagesCloses w = 0%nat /\ errorsCloses w = 0%nat) /\
      ((4 <= closerStage todo)%nat -> wgCounter w = 0)
  end.

Definition supervisorOK (w : world) : Prop :=
  match supervisor w with
  | SupInIteration _ todo =>
      (insideCS (nextIsGoTopic todo) todo = true \/ forallb svQuiet todo = true) /\
      (existsb svSpawns todo = true -> stopperIsClosed w = false)
  | _ => True
  end.

Definition partitionOK (pw : partitionWorker) : Prop :=
  runningPartition pw = false \/
  runsOut EvLocalWgDone (bool_decide (pwStatus pw = Exited)) (pwTodo pw) = true.

Definition topicOK (tw : topicWorker) : Prop :=
  (runningTopic tw = false /\
   Forall (fun pw => runningPartition pw = false) (twPartitions tw)) \/
  (runsOut EvWgDone (bool_decide (twStatus tw = Exited)) (twTodo tw) = true /\
   Forall (fun pw => runningPartition pw = false) (twPartitions tw)) \/
  (twStatus tw = Exited /\
   spawnShape (nextIsGoPartition (twTodo tw)) (twTodo tw) = true /\
   twWg tw
   = Z.of_nat (length (List.filter runningPartition (twPartitions tw)))
     + (if nextIsGoPartition (twTodo tw) then 1 else 0) /\
   Forall partitionOK (twPartitions tw)).

Record consistent (w : world) : Prop := mkConsistent {
  mutexOwned : muHeld w = closerHolds w || supervisorHolds w;
  mutexExclusive : closerHolds w && supervisorHolds w = false;
  closerConsistent : closerOK w;
  supervisorConsistent : supervisorOK w;
  waitGroupCounts :
    wgCounter w
    = Z.of_nat (length (List.filter runningTopic (topicWorkers w))) + pendingGo w;
  workersConsistent : Forall topicOK (topicWorkers w)
}.

(** *** A sample run *)

(** A topic with two partitions, of which the first falls to this member. *)
Definition sampleTopicEnv : topicEnv :=
  {| doneAtStart := false;
     topicPartitions := ([ {| ID := 0; Replicas := [1] |};
                           {| ID := 1; Replicas := [1] |} ], None);
     partitionLeaderOf := fun _ => (1, None);
     topicErrorsState := readyState |}.

(** One generation of two members that ends when the stopper is closed. *)
Definition sampleGeneration : generation :=
  {| stopperClosed := false;
     watchInstances := (["host-1:member-a"; "host-2:member-b"], None);
     generationEnds := EndStopper false |}.

Definition samplePartitionEnv : partitionEnv :=
  claimedEnv 7 (fun _ _ => None) [InputDone] None readyState.

(** The loop starts a generation; [Close] is called and closes the stopper;
    the loop cancels the generation and returns; the topic worker starts
    its partition worker, which claims, finalises and releases its
    partition and returns; the topic worker returns; [Close] gets past
    [cg.wg.Wait()] and tears down. *)
Definition sampleSchedule : list choice :=
  repeat (StepSupervisor sampleGeneration sampleTopicEnv) 8
    ++ [CallClose sampleCloseEnv; StepClose; StepClose; StepClose]
    ++ [StepSupervisor sampleGeneration sampleTopicEnv]
    ++ repeat (StepTopic 0 samplePartitionEnv) 6
    ++ repeat (StepPartition 0 0) 10
    ++ repeat (StepTopic 0 samplePartitionEnv) 3
    ++ repeat StepClose 9.

(** * Verified properties *)

(** ** The partition assigner *)

Lemma divideSlices_length n m (consumers : list string) partitions :
  length (divideSlices n m consumers partitions) = length consumers.
Proof.
  revert m partitions. induction consumers as [|c rest IH]; intros m partitions; simpl.
  - reflexivity.
  - now rewrite IH.
Qed.

Lemma divideSlices_keys n m (consumers : list string) partitions :
  map fst (divideSlices n m consumers partitions) = consumers.
Proof.
  revert m partitions. induction consumers as [|c rest IH]; intros m partitions; simpl.
  - reflexivity.
  - now rewrite IH.
Qed.

Lemma divideSlices_concat n m (consumers : list string) partitions :
  (length partitions <= n * length consumers + m)%nat ->
  (m <= length consumers)%nat ->
  concat (map snd (divideSlices n m consumers partitions)) = partitions.
Proof.
  revert m partitions. induction consumers as [|c rest IH]; intros m partitions Hlen Hm; simpl in *.
  - destruct partitions; [reflexivity | simpl in Hlen; lia].
  - rewrite IH.
    + apply take_drop.
    + rewrite length_drop. destruct m; simpl; lia.
    + destruct m; simpl; lia.
Qed.

Lemma divideSlices_size n m (consumers : list string) partitions k entry :
  length partitions = (n * length consumers + m)%nat ->
  (m <= length consumers)%nat ->
  divideSlices n m consumers partitions !! k = Some entry ->
  length (snd entry) = (n + (if (k <? m)%nat then 1 else 0))%nat.
Proof.
  revert m partitions k.
  induction consumers as [|c rest IH]; intros m partitions k Hlen Hm Hk; simpl in *.
  - discriminate.
  - destruct k as [|k]; simpl in Hk.
    + inversion Hk; subst; simpl. rewrite length_take.
      destruct m; simpl; lia.
    + apply IH in Hk.
      * rewrite Hk. destruct m as [|m]; simpl; [reflexivity|].
        destruct m; reflexivity.
      * rewrite length_drop. destruct m; simpl; lia.
      * destruct m; simpl; lia.
Qed.

Lemma instanceLess_irrefl (a : string) : ~ instanceLess a a.
Proof.
  unfold instanceLess, String.ltb. intros H.
  pose proof (String.compare_antisym a a) as Ha.
  destruct (String.compare a a); simpl in *; discriminate.
Qed.

Lemma StronglySorted_NoDup_irrefl {A} (R : A -> A -> Prop) (l : list A) :
  (forall x, ~ R x x) -> StronglySorted R l -> NoDup l.
Proof.
  intros Hirr Hs. induction Hs as [|a l Hs IH Hall].
  - constructor.
  - constructor; [|exact IH].
    intros Hin. rewrite Forall_forall in Hall.
    apply (Hirr a), Hall, Hin.
Qed.

Lemma sortedInstances_NoDup consumers : sortedInstances consumers -> NoDup consumers.
Proof. apply StronglySorted_NoDup_irrefl, instanceLess_irrefl. Qed.

Lemma sortedPartitions_NoDup partitions :
  sortedPartitions partitions -> NoDup (map partition partitions).
Proof.
  intros Hs. induction Hs as [|a l Hs IH Hall]; simpl.
  - constructor.
  - constructor; [|exact IH].
    rewrite list_elem_of_fmap. intros (b & Heq & Hin).
    rewrite Forall_forall in Hall. specialize (Hall b Hin).
    unfold partitionLess in Hall. rewrite Heq in Hall. lia.
Qed.

Lemma NoDup_concat_disjoint {A} (L : list (list A)) j k a b x :
  NoDup (concat L) -> j <> k -> L !! j = Some a -> L !! k = Some b ->
  x ∈ a -> x ∉ b.
Proof.
  revert j k. induction L as [|l L IH]; intros j k Hnd Hjk Hj Hk Ha Hb.
  - discriminate.
  - simpl in Hnd. apply NoDup_app in Hnd as (Hl & Hdis & HL).
    destruct j as [|j], k as [|k]; simpl in *.
    + congruence.
    + inversion Hj; subst. apply (Hdis x Ha).
      apply list_elem_of_In, in_concat. exists b. split.
      * apply list_elem_of_In. eapply list_elem_of_lookup_2; eauto.
      * apply list_elem_of_In; exact Hb.
    + inversion Hk; subst. apply (Hdis x Hb).
      apply list_elem_of_In, in_concat. exists a. split.
      * apply list_elem_of_In. eapply list_elem_of_lookup_2; eauto.
      * apply list_elem_of_In; exact Ha.
    + eapply (IH j k); eauto.
Qed.

Lemma divided_lookup (consumers : list string) partitions k c s :
  NoDup consumers ->
  consumers !! k = Some c ->
  map snd (divideSlices (length partitions / length consumers)
             (length partitions mod length consumers) consumers partitions) !! k = Some s ->
  mapIndex (dividePartitionsBetweenConsumers consumers partitions) c = map partition s.
Proof.
  intros Hnd Hc Hs.
  unfold mapIndex, dividePartitionsBetweenConsumers.
  set (sl := divideSlices _ _ consumers partitions) in *.
  rewrite list_lookup_fmap in Hs.
  destruct (sl !! k) as [[c' s']|] eqn:Hk; [|discriminate].
  simpl in Hs. inversion Hs; subst s'. clear Hs.
  assert (c' = c) as ->.
  { pose proof (divideSlices_keys (length partitions / length consumers)
       (length partitions mod length consumers) consumers partitions) as Hkeys.
    fold sl in Hkeys.
    assert (map fst sl !! k = Some c') as H1 by (rewrite list_lookup_fmap, Hk; reflexivity).
    rewrite Hkeys in H1. congruence. }
  erewrite elem_of_list_to_map_1; [reflexivity | |].
  - rewrite <- list_fmap_compose.
    replace (fst ∘ _ <$> sl) with (map fst sl).
    + subst sl. rewrite divideSlices_keys. exact Hnd.
    + apply list_fmap_ext. intros ? [? ?] ?; reflexivity.
  - apply list_elem_of_fmap. exists (c, s). split; [reflexivity|].
    eapply list_elem_of_lookup_2; eauto.
Qed.

Lemma concat_map_map {A B} (f : A -> B) (L : list (list A)) :
  concat (map (map f) L) = map f (concat L).
Proof.
  induction L as [|s L IH]; simpl; [reflexivity|].
  rewrite map_app, IH. reflexivity.
Qed.

(** C1.  For a non-empty member list in lexicographic order and a partition
    list in order of partition id, the assigner cuts the partition list into
    one contiguous slice per member, the sizes of any two slices differing by
    at most one, and member [k] is assigned slice [k].  Hence the members'
    assignments, taken in member order, make up the whole partition list,
    the assignments of two distinct members share no partition, and the
    sizes of any two assignments differ by at most one. *)
Theorem dividePartitionsBetweenConsumers_balanced
    (I : list string) (P : list partitionLeader) :
  I <> [] -> sortedInstances I -> sortedPartitions P ->
  let divided := dividePartitionsBetweenConsumers I P in
  exists slices : list (list partitionLeader),
    length slices = length I /\
    concat slices = P /\
    (forall j k sj sk, slices !! j = Some sj -> slices !! k = Some sk ->
       (length sj <= length sk + 1)%nat) /\
    (forall k c s, I !! k = Some c -> slices !! k = Some s ->
       mapIndex divided c = map partition s) /\
    concat (map (mapIndex divided) I) = map partition P /\
    (forall j k cj ck p, j <> k -> I !! j = Some cj -> I !! k = Some ck ->
       p ∈ mapIndex divided cj -> p ∉ mapIndex divided ck) /\
    (forall cj ck, cj ∈ I -> ck ∈ I ->
       (length (mapIndex divided cj) <= length (mapIndex divided ck) + 1)%nat).
Proof.
  intros Hne HsI HsP divided.
  set (n := (length P / length I)%nat).
  set (m := (length P mod length I)%nat).
  set (sl := divideSlices n m I P).
  assert (length I <> 0%nat) as HI by (destruct I; simpl; [congruence | lia]).
  assert (length P = (n * length I + m)%nat) as HP.
  { subst n m. pose proof (Nat.div_mod_eq (length P) (length I)). lia. }
  assert (m <= length I)%nat as Hm.
  { subst m. pose proof (Nat.mod_upper_bound (length P) (length I) HI). lia. }
  pose proof (sortedInstances_NoDup I HsI) as HndI.
  pose proof (sortedPartitions_NoDup P HsP) as HndP.
  assert (length (map snd sl) = length I) as Hlen.
  { rewrite length_map. apply divideSlices_length. }
  assert (concat (map snd sl) = P) as Hcat.
  { apply divideSlices_concat; [lia | exact Hm]. }
  assert (forall k s, map snd sl !! k = Some s ->
            length s = (n + (if (k <? m)%nat then 1 else 0))%nat) as Hsize.
  { intros k s Hk. rewrite list_lookup_fmap in Hk.
    destruct (sl !! k) as [e|] eqn:He; [|discriminate].
    simpl in Hk. inversion Hk; subst s.
    eapply divideSlices_size; eauto. }
  assert (forall k c s, I !! k = Some c -> map snd sl !! k = Some s ->
            mapIndex divided c = map partition s) as Hlook.
  { intros k c s Hc Hs. eapply divided_lookup; eauto. }
  assert (map (mapIndex divided) I = map (map partition) (map snd sl)) as Hmap.
  { apply list_eq. intros k. rewrite !list_lookup_fmap.
    destruct (I !! k) as [c|] eqn:Hc.
    - destruct (lookup_lt_is_Some_2 (map snd sl) k) as [s Hs].
      { rewrite Hlen. eapply lookup_lt_Some; eauto. }
      rewrite list_lookup_fmap in Hs. rewrite Hs. simpl. f_equal.
      eapply Hlook; eauto. rewrite list_lookup_fmap. exact Hs.
    - apply lookup_ge_None in Hc.
      rewrite (proj2 (lookup_ge_None sl k)); [reflexivity|].
      subst sl. rewrite divideSlices_length. exact Hc. }
  exists (map snd sl). repeat split.
  - exact Hlen.
  - exact Hcat.
  - intros j k sj sk Hj Hk. rewrite (Hsize _ _ Hj), (Hsize _ _ Hk).
    destruct (j <? m)%nat, (k <? m)%nat; lia.
  - exact Hlook.
  - rewrite Hmap, concat_map_map, Hcat. reflexivity.
  - intros j k cj ck p Hjk Hj Hk Hp.
    destruct (lookup_lt_is_Some_2 (map snd sl) j) as [sj Hsj].
    { rewrite Hlen. eapply lookup_lt_Some; eauto. }
    destruct (lookup_lt_is_Some_2 (map snd sl) k) as [sk Hsk].
    { rewrite Hlen. eapply lookup_lt_Some; eauto. }
    rewrite (Hlook _ _ _ Hj Hsj) in Hp. rewrite (Hlook _ _ _ Hk Hsk).
    eapply (NoDup_concat_disjoint (map (map partition) (map snd sl)) j k); eauto.
    + rewrite concat_map_map, Hcat. exact HndP.
    + change (map (map partition) (map snd sl) !! j = Some (map partition sj)).
      rewrite list_lookup_fmap, Hsj. reflexivity.
    + change (map (map partition) (map snd sl) !! k = Some (map partition sk)).
      rewrite list_lookup_fmap, Hsk. reflexivity.
  - intros cj ck Hcj Hck.
    apply list_elem_of_lookup in Hcj as [j Hj].
    apply list_elem_of_lookup in Hck as [k Hk].
    destruct (lookup_lt_is_Some_2 (map snd sl) j) as [sj Hsj].
    { rewrite Hlen. eapply lookup_lt_Some; eauto. }
    destruct (lookup_lt_is_Some_2 (map snd sl) k) as [sk Hsk].
    { rewrite Hlen. eapply lookup_lt_Some; eauto. }
    rewrite (Hlook _ _ _ Hj Hsj), (Hlook _ _ _ Hk Hsk), !length_map.
    rewrite (Hsize _ _ Hsj), (Hsize _ _ Hsk).
    destruct (j <? m)%nat, (k <? m)%nat; lia.
Qed.

(** The four partitions of scenario 2 shared by two members. *)
Lemma dividePartitionsBetweenConsumers_balanced_witness :
  let divided :=
    dividePartitionsBetweenConsumers ["host-1:member-a"; "host-2:member-b"]
      samplePartitions in
  concat (map (mapIndex divided) ["host-1:member-a"; "host-2:member-b"])
  = map partition samplePartitions.
Proof.
  destruct (dividePartitionsBetweenConsumers_balanced
              ["host-1:member-a"; "host-2:member-b"] samplePartitions)
    as (slices & _ & _ & _ & _ & Hunion & _).
  - discriminate.
  - unfold sortedInstances, instanceLess. repeat constructor.
  - unfold sortedPartitions, partitionLess, samplePartitions. simpl.
    repeat constructor; simpl; lia.
  - exact Hunion.
Defined.

(** ** The claim phase *)

Lemma wrap64_id z : in_int64 z -> wrap64 z = z.
Proof.
  unfold in_int64, int64_min, int64_max, wrap64. intros H.
  rewrite Z.mod_small; lia.
Qed.

Lemma quot_Second_bounds d :
  in_int64 d -> int64_min <= Z.quot d Second /\ Z.quot d Second + 2 <= int64_max.
Proof.
  unfold in_int64, int64_min, int64_max, Second. intros H.
  Z.to_euclidean_division_equations. lia.
Qed.

Lemma maxRetriesOf_eq cg :
  in_int64 (ProcessingTimeout (Offsets (config cg))) ->
  maxRetriesOf cg = Z.quot (ProcessingTimeout (Offsets (config cg))) Second + 2.
Proof.
  intros H. unfold maxRetriesOf, go_div.
  pose proof (quot_Second_bounds _ H) as [H1 H2].
  rewrite (wrap64_id (Z.quot _ _)).
  - apply wrap64_id. unfold in_int64, int64_min, int64_max in *. lia.
  - unfold in_int64, int64_min, int64_max in *. lia.
Qed.

Lemma partitionClaimLoop_fuel env topic part maxRetries (fuel : nat) tries :
  (Z.to_nat (maxRetries - tries) <= fuel)%nat ->
  fst (partitionClaimLoop fuel env topic part maxRetries tries) <> ClaimOutOfFuel.
Proof.
  revert tries. induction fuel as [|fuel IH]; intros tries Hf; simpl.
  - destruct (tries <? maxRetries) eqn:Hlt; simpl; [|discriminate].
    apply Z.ltb_lt in Hlt. lia.
  - destruct (tries <? maxRetries) eqn:Hlt; simpl; [|discriminate].
    apply Z.ltb_lt in Hlt.
    destruct (doneBeforeTimer env tries); simpl; [discriminate|].
    destruct (claimAttempt env topic part maxRetries tries) as [[| |err] tr]; simpl;
      try discriminate.
    specialize (IH (tries + 1) ltac:(lia)).
    destruct (partitionClaimLoop fuel env topic part maxRetries (tries + 1)); simpl in *.
    exact IH.
Qed.

Lemma claimAttempt_events env topic part maxRetries tries :
  Forall (fun e => claimPhaseEvent e = true)
    (snd (claimAttempt env topic part maxRetries tries)).
Proof.
  unfold claimAttempt.
  destruct (claimPartition env tries) as [err|]; [|repeat constructor].
  destruct (tries + 1 <? maxRetries); [|repeat constructor].
  destruct (decide (err = ErrPartitionClaimedByOther)); repeat constructor.
Qed.

Lemma partitionClaimLoop_events env topic part maxRetries (fuel : nat) tries :
  Forall (fun e => claimPhaseEvent e = true)
    (snd (partitionClaimLoop fuel env topic part maxRetries tries)).
Proof.
  revert tries. induction fuel as [|fuel IH]; intros tries; simpl.
  - destruct (tries <? maxRetries); constructor.
  - destruct (tries <? maxRetries); [|constructor].
    destruct (doneBeforeTimer env tries); [constructor|].
    pose proof (claimAttempt_events env topic part maxRetries tries) as Ha.
    destruct (claimAttempt env topic part maxRetries tries) as [[| |err] tr]; simpl in *.
    + constructor; [reflexivity | exact Ha].
    + specialize (IH (tries + 1)).
      destruct (partitionClaimLoop fuel env topic part maxRetries (tries + 1)); simpl in *.
      constructor; [reflexivity|]. apply Forall_app; split; assumption.
    + constructor; [reflexivity | exact Ha].
Qed.

Lemma waitsAndClaims_app tr1 tr2 :
  waitsAndClaims (tr1 ++ tr2) = waitsAndClaims tr1 ++ waitsAndClaims tr2.
Proof. apply List.filter_app. Qed.

Lemma partitionClaimLoop_exhausts env topic part maxRetries :
  (forall i, 0 <= i < maxRetries ->
     doneBeforeTimer env i = false /\ claimPartition env i <> None) ->
  forall (n : nat) tries,
    0 <= tries -> tries + Z.of_nat n = maxRetries -> (0 < n)%nat ->
    exists err tr,
      partitionClaimLoop n env topic part maxRetries tries = (ClaimFailed err, tr)
      /\ claimPartition env (maxRetries - 1) = Some err
      /\ waitsAndClaims tr
         = concat (repeat [EvTimeAfter (1 * Second); EvClaimPartition topic part] n)
      /\ last tr = Some (EvLogf (LogClaimFailed topic part err)).
Proof.
  intros Henv n. induction n as [|n IH]; intros tries Ht Hsum Hn; [lia|].
  simpl partitionClaimLoop.
  assert ((tries <? maxRetries) = true) as -> by (apply Z.ltb_lt; lia).
  destruct (Henv tries ltac:(lia)) as [-> Hclaim].
  unfold claimAttempt.
  destruct (claimPartition env tries) as [err|] eqn:Hc; [|congruence].
  destruct (tries + 1 <? maxRetries) eqn:Hlt.
  - apply Z.ltb_lt in Hlt.
    destruct (IH (tries + 1) ltac:(lia) ltac:(lia) ltac:(lia))
      as (err' & tr' & Hloop & Hlast & Hwc & Hl).
    rewrite Hloop. exists err', (EvTimeAfter (1 * Second)
      :: (EvClaimPartition topic part
            :: (if decide (err = ErrPartitionClaimedByOther) then []
                else [EvLogf (LogClaimRetry topic part (tries + 1) maxRetries err)]))
         ++ tr').
    split; [reflexivity|]. split; [exact Hlast|]. split.
    + change (EvTimeAfter (1 * Second) :: ?l) with ([EvTimeAfter (1 * Second)] ++ l).
      rewrite !waitsAndClaims_app, Hwc.
      destruct (decide (err = ErrPartitionClaimedByOther)); reflexivity.
    + destruct tr' as [|e tr']; [discriminate|].
      destruct (decide (err = ErrPartitionClaimedByOther)); simpl; exact Hl.
  - apply Z.ltb_ge in Hlt. assert (n = 0%nat) as -> by lia.
    exists err, [EvTimeAfter (1 * Second); EvClaimPartition topic part;
                 EvLogf (LogClaimFailed topic part err)].
    split; [reflexivity|]. split.
    + replace (maxRetries - 1) with tries by lia. exact Hc.
    + split; reflexivity.
Qed.

Ltac forall_events :=
  repeat first
    [ apply List.Forall_nil
    | apply List.Forall_cons; [reflexivity|]
    | apply Forall_app; split
    | assumption ].

Lemma consumePartition_events cg broker calls topic part nextOffset :
  Forall (fun e => consumePhaseEvent e = true)
    (snd (consumePartition cg broker calls topic part nextOffset)).
Proof.
  unfold consumePartition.
  destruct (decide (broker calls nextOffset = Some ErrOffsetOutOfRange)).
  - destruct (Initial (Offsets (config cg)) =? OffsetOldest);
      destruct (broker (S calls) _); simpl; forall_events.
  - destruct (broker calls nextOffset); simpl; forall_events.
Qed.

Lemma partitionConsumerLoop_events cg broker topic part ins :
  forall calls lastOffset,
    Forall (fun e => consumePhaseEvent e = true)
      (snd (partitionConsumerLoop cg broker topic part ins calls lastOffset)).
Proof.
  induction ins as [|i rest IH]; intros calls lastOffset; simpl.
  - constructor.
  - destruct i as [|[err|] s|[message|] s].
    + constructor.
    + destruct (selectSend s); simpl; try constructor.
      specialize (IH calls lastOffset).
      destruct (partitionConsumerLoop cg broker topic part rest calls lastOffset);
        simpl in *. forall_events.
    + pose proof (consumePartition_events cg broker calls topic part lastOffset) as Hc.
      destruct (consumePartition cg broker calls topic part lastOffset)
        as [[[consumer cErr] calls'] tr]; simpl in *.
      destruct cErr; simpl; [forall_events|].
      specialize (IH calls' lastOffset).
      destruct (partitionConsumerLoop cg broker topic part rest calls' lastOffset);
        simpl in *. forall_events.
    + destruct (selectSend s); simpl; try constructor.
      specialize (IH calls (msgOffset message)).
      destruct (partitionConsumerLoop cg broker topic part rest calls (msgOffset message));
        simpl in *. forall_events.
    + pose proof (consumePartition_events cg broker calls topic part lastOffset) as Hc.
      destruct (consumePartition cg broker calls topic part lastOffset)
        as [[[consumer cErr] calls'] tr]; simpl in *.
      destruct cErr; simpl; [forall_events|].
      specialize (IH calls' lastOffset).
      destruct (partitionConsumerLoop cg broker topic part rest calls' lastOffset);
        simpl in *. forall_events.
Qed.

Lemma startOffset_events cg topic part nextOffset :
  Forall (fun e => consumePhaseEvent e = true)
    (snd (startOffset cg topic part nextOffset)).
Proof.
  unfold startOffset. destruct (0 <=? nextOffset); simpl; [forall_events|].
  destruct (_ =? OffsetOldest); [forall_events|].
  destruct (_ =? OffsetNewest); forall_events.
Qed.

Lemma consumeClaimed_events env cg topic part :
  Forall (fun e => consumePhaseEvent e = true)
    (snd (consumeClaimed env cg topic part)).
Proof.
  unfold consumeClaimed.
  destruct (initializePartition env) as [nextOffset [err|]]; simpl; [forall_events|].
  pose proof (startOffset_events cg topic part nextOffset) as Hs.
  destruct (startOffset cg topic part nextOffset) as [next lines]; simpl in Hs.
  pose proof (consumePartition_events cg (brokerConsumePartition env) 0 topic part next)
    as Hc.
  destruct (consumePartition cg (brokerConsumePartition env) 0 topic part next)
    as [[[consumer err] calls] tr]; simpl in Hc.
  destruct consumer as [handle|], err as [e|]; simpl; try forall_events.
  pose proof (partitionConsumerLoop_events cg (brokerConsumePartition env) topic part
                (inputs env) calls (-1)) as Hl.
  destruct (partitionConsumerLoop cg (brokerConsumePartition env) topic part
              (inputs env) calls (-1)) as [[lastOffset|] tr']; simpl in *.
  - destruct (finalizePartition env); forall_events.
  - forall_events.
Qed.

Lemma filter_none {A} (p q : A -> bool) (l : list A) :
  (forall x, q x = true -> p x = false) ->
  Forall (fun x => q x = true) l -> List.filter p l = [].
Proof.
  intros Hpq Hl. induction Hl as [|x l Hx Hl IH]; simpl; [reflexivity|].
  rewrite (Hpq x Hx). exact IH.
Qed.

Lemma consumeClaimed_no_claims env cg topic part :
  waitsAndClaims (snd (consumeClaimed env cg topic part)) = [].
Proof.
  apply (filter_none _ (fun e => consumePhaseEvent e)).
  - intros []; simpl; congruence.
  - apply consumeClaimed_events.
Qed.

Lemma partitionConsumer_waitsAndClaims env cg topic part :
  waitsAndClaims (snd (partitionConsumer env cg topic part))
  = waitsAndClaims
      (snd (partitionClaimLoop (Z.to_nat (maxRetriesOf cg)) env topic part
              (maxRetriesOf cg) 0)).
Proof.
  unfold partitionConsumer.
  destruct (partitionClaimLoop _ env topic part (maxRetriesOf cg) 0) as [[| |err|] tr];
    simpl.
  - pose proof (consumeClaimed_no_claims env cg topic part) as Hc.
    destruct (consumeClaimed env cg topic part) as [[] tr']; simpl in *;
      [ destruct (releasePartition env) as [e|];
        unfold sendConsumerError; try destruct (bareSend _) | | | ];
      simpl; repeat rewrite waitsAndClaims_app; rewrite Hc; simpl;
      rewrite ?app_nil_r; reflexivity.
  - rewrite waitsAndClaims_app. simpl. rewrite app_nil_r. reflexivity.
  - unfold sendConsumerError. destruct (bareSend _); simpl; try reflexivity.
    rewrite waitsAndClaims_app. simpl. rewrite app_nil_r. reflexivity.
  - reflexivity.
Qed.

Lemma claimAttempts_waitsAndClaims tr :
  claimAttempts (waitsAndClaims tr) = claimAttempts tr.
Proof.
  unfold claimAttempts, waitsAndClaims.
  induction tr as [|e tr IH]; simpl; [reflexivity|].
  destruct e; simpl; try exact IH; rewrite IH; reflexivity.
Qed.

Lemma claimAttempts_rounds topic part (n : nat) :
  claimAttempts
    (concat (repeat [EvTimeAfter (1 * Second); EvClaimPartition topic part] n)) = n.
Proof.
  unfold claimAttempts. induction n as [|n IH]; simpl; [reflexivity|].
  simpl in IH. rewrite IH. reflexivity.
Qed.

(** C2 as stated fails: with a processing timeout of 1.5 seconds the loop
    makes three attempts, while the rounded-up budget is four. *)
Lemma claim_budget_not_ceiling :
  ~ (forall env cg topic part,
       in_int64 (ProcessingTimeout (Offsets (config cg))) ->
       (forall i, doneBeforeTimer env i = false) ->
       (forall i, claimPartition env i <> None) ->
       Z.of_nat (claimAttempts (snd (partitionConsumer env cg topic part)))
       = specRetryBudget (ProcessingTimeout (Offsets (config cg)))).
Proof.
  intros H.
  specialize (H (contendedEnv readyState) (sampleGroup OffsetOldest 1500000000)
                "topic"%string 0).
  assert (in_int64 1500000000) as Hr by (unfold in_int64, int64_min, int64_max; lia).
  specialize (H Hr (fun _ => eq_refl) ltac:(intros i; discriminate)).
  vm_compute in H. discriminate.
Qed.

(** C2, amended.  When no attempt succeeds and the generation is not
    cancelled, the claim loop makes exactly
    [ProcessingTimeout / 1s + 2] attempts, the quotient being truncated
    toward zero (and no attempt at all when that number is not positive);
    every attempt comes right after a one-second wait, and the last failure
    ends the claim phase. *)
Theorem claim_budget_truncated env cg topic part :
  in_int64 (ProcessingTimeout (Offsets (config cg))) ->
  (forall i, doneBeforeTimer env i = false) ->
  (forall i, claimPartition env i <> None) ->
  let budget :=
    Z.to_nat (Z.quot (ProcessingTimeout (Offsets (config cg))) Second + 2) in
  let tr := snd (partitionConsumer env cg topic part) in
  claimAttempts tr = budget /\
  waitsAndClaims tr
  = concat (repeat [EvTimeAfter (1 * Second); EvClaimPartition topic part] budget) /\
  ((0 < budget)%nat ->
   exists err,
     claimPartition env (maxRetriesOf cg - 1) = Some err /\
     fst (partitionClaimLoop (Z.to_nat (maxRetriesOf cg)) env topic part
            (maxRetriesOf cg) 0) = ClaimFailed err).
Proof.
  intros Hrange Hdone Hfail. rewrite <- (maxRetriesOf_eq cg Hrange). cbv zeta.
  set (maxRetries := maxRetriesOf cg).
  assert (forall i, 0 <= i < maxRetries ->
            doneBeforeTimer env i = false /\ claimPartition env i <> None) as Henv
    by (intros i _; split; [apply Hdone | apply Hfail]).
  assert (waitsAndClaims (snd (partitionConsumer env cg topic part))
          = concat (repeat [EvTimeAfter (1 * Second); EvClaimPartition topic part]
                      (Z.to_nat maxRetries))) as Hwc.
  { rewrite partitionConsumer_waitsAndClaims. fold maxRetries.
    destruct (Z_lt_le_dec 0 maxRetries) as [Hpos|Hnon].
    - destruct (partitionClaimLoop_exhausts env topic part maxRetries Henv
                  (Z.to_nat maxRetries) 0) as (err & tr' & Hloop & _ & Hw & _);
        try lia.
      rewrite Hloop. exact Hw.
    - replace (Z.to_nat maxRetries) with 0%nat by lia. simpl.
      assert ((0 <? maxRetries) = false) as -> by (apply Z.ltb_ge; lia).
      reflexivity. }
  split; [|split].
  - rewrite <- claimAttempts_waitsAndClaims, Hwc. apply claimAttempts_rounds.
  - exact Hwc.
  - intros Hpos.
    destruct (partitionClaimLoop_exhausts env topic part maxRetries Henv
                (Z.to_nat maxRetries) 0) as (err & tr' & Hloop & Hlast & _); try lia.
    exists err. split; [exact Hlast|]. rewrite Hloop. reflexivity.
Qed.

(** A timeout of 1.5 seconds gives three attempts. *)
Lemma claim_budget_truncated_witness :
  claimAttempts (snd (partitionConsumer (contendedEnv readyState)
                        (sampleGroup OffsetOldest 1500000000) "topic" 0)) = 3%nat.
Proof.
  refine (proj1 (claim_budget_truncated (contendedEnv readyState)
                   (sampleGroup OffsetOldest 1500000000) "topic" 0 _ _ _)).
  - unfold in_int64, int64_min, int64_max. simpl. lia.
  - intros i. reflexivity.
  - intros i. discriminate.
Defined.

Lemma claimPhase_not_In (e : event) (tr : list event) :
  claimPhaseEvent e = false ->
  Forall (fun e' => claimPhaseEvent e' = true) tr -> ~ In e tr.
Proof.
  intros He Hall Hin. rewrite List.Forall_forall in Hall.
  specialize (Hall e Hin). congruence.
Qed.

Lemma consumeOffsets_claimPhase (tr : list event) :
  Forall (fun e => claimPhaseEvent e = true) tr -> consumeOffsets tr = [].
Proof.
  induction 1 as [|e tr He Hall IH]; simpl; [reflexivity|].
  destruct e; simpl in *; try discriminate; exact IH.
Qed.

Lemma consumeOffsets_app (tr1 tr2 : list event) :
  consumeOffsets (tr1 ++ tr2) = consumeOffsets tr1 ++ consumeOffsets tr2.
Proof.
  induction tr1 as [|e tr1 IH]; simpl; [reflexivity|].
  destruct e; simpl; rewrite ?IH; reflexivity.
Qed.

(** C7.  In the claim phase, a failure with the claimed-by-other error on a
    non-final attempt is retried without a log line; any other non-final
    failure is logged and retried; a retry is the next iteration of the loop.
    When the final attempt fails, the worker logs it, sends on [cg.errors] a
    consumer error carrying the topic, the partition id and the error of that
    attempt, and returns; it never calls [ReleasePartition], never asks for
    the initial offset and never opens the broker stream. *)
Theorem claim_failure_handling env cg topic part :
  let maxRetries := maxRetriesOf cg in
  (forall tries,
     tries + 1 < maxRetries ->
     claimPartition env tries = Some ErrPartitionClaimedByOther ->
     claimAttempt env topic part maxRetries tries
     = (AttemptRetry, [EvClaimPartition topic part])) /\
  (forall tries err,
     tries + 1 < maxRetries ->
     claimPartition env tries = Some err -> err <> ErrPartitionClaimedByOther ->
     claimAttempt env topic part maxRetries tries
     = (AttemptRetry,
        [EvClaimPartition topic part;
         EvLogf (LogClaimRetry topic part (tries + 1) maxRetries err)])) /\
  (forall fuel tries,
     tries < maxRetries -> doneBeforeTimer env tries = false ->
     fst (claimAttempt env topic part maxRetries tries) = AttemptRetry ->
     partitionClaimLoop (S fuel) env topic part maxRetries tries
     = (fst (partitionClaimLoop fuel env topic part maxRetries (tries + 1)),
        EvTimeAfter (1 * Second)
          :: snd (claimAttempt env topic part maxRetries tries)
          ++ snd (partitionClaimLoop fuel env topic part maxRetries (tries + 1)))) /\
  (forall err,
     0 < maxRetries ->
     (forall i, 0 <= i < maxRetries ->
        doneBeforeTimer env i = false /\ claimPartition env i <> None) ->
     claimPartition env (maxRetries - 1) = Some err ->
     exists tr,
       last tr = Some (EvLogf (LogClaimFailed topic part err)) /\
       partitionConsumer env cg topic part
       = (if chanReady (errorsState env)
          then (Exited,
                tr ++ [EvSendErrors (ConsumerError topic part err); EvLocalWgDone])
          else (BlockedOnErrors, tr)) /\
       (~ In (EvReleasePartition topic part) (snd (partitionConsumer env cg topic part))) /\
       (~ In (EvInitializePartition topic part) (snd (partitionConsumer env cg topic part))) /\
       consumeOffsets (snd (partitionConsumer env cg topic part)) = []).
Proof.
  intros maxRetries. repeat split.
  - intros tries Hlt Hc. unfold claimAttempt. rewrite Hc.
    assert ((tries + 1 <? maxRetries) = true) as -> by (apply Z.ltb_lt; exact Hlt).
    reflexivity.
  - intros tries err Hlt Hc Hne. unfold claimAttempt. rewrite Hc.
    assert ((tries + 1 <? maxRetries) = true) as -> by (apply Z.ltb_lt; exact Hlt).
    destruct (decide (err = ErrPartitionClaimedByOther)); [contradiction | reflexivity].
  - intros fuel tries Hlt Hdone Hretry. simpl.
    assert ((tries <? maxRetries) = true) as -> by (apply Z.ltb_lt; exact Hlt).
    rewrite Hdone.
    destruct (claimAttempt env topic part maxRetries tries) as [[| |e] tr];
      simpl in Hretry; try discriminate.
    destruct (partitionClaimLoop fuel env topic part maxRetries (tries + 1)).
    reflexivity.
  - intros err Hpos Henv Hfinal.
    destruct (partitionClaimLoop_exhausts env topic part maxRetries Henv
                (Z.to_nat maxRetries) 0)
      as (err' & tr & Hloop & Hlast & _ & Hl); try lia.
    assert (err' = err) as -> by congruence.
    pose proof (partitionClaimLoop_events env topic part maxRetries
                  (Z.to_nat maxRetries) 0) as Hev.
    rewrite Hloop in Hev. simpl in Hev.
    assert (partitionConsumer env cg topic part
            = (if chanReady (errorsState env)
               then (Exited,
                     tr ++ [EvSendErrors (ConsumerError topic part err); EvLocalWgDone])
               else (BlockedOnErrors, tr))) as Hpc.
    { unfold partitionConsumer. fold maxRetries. rewrite Hloop.
      unfold sendConsumerError, bareSend.
      destruct (chanReady (errorsState env)); reflexivity. }
    exists tr. split; [exact Hl|]. split; [exact Hpc|].
    rewrite Hpc.
    destruct (chanReady (errorsState env)); simpl; repeat split.
    + intros Hin. apply in_app_or in Hin as [Hin|Hin].
      * revert Hin. apply claimPhase_not_In; [reflexivity | exact Hev].
      * simpl in Hin. destruct Hin as [Hin|[Hin|[]]]; discriminate.
    + intros Hin. apply in_app_or in Hin as [Hin|Hin].
      * revert Hin. apply claimPhase_not_In; [reflexivity | exact Hev].
      * simpl in Hin. destruct Hin as [Hin|[Hin|[]]]; discriminate.
    + rewrite consumeOffsets_app, (consumeOffsets_claimPhase tr Hev). reflexivity.
    + apply claimPhase_not_In; [reflexivity | exact Hev].
    + apply claimPhase_not_In; [reflexivity | exact Hev].
    + apply consumeOffsets_claimPhase; exact Hev.
Qed.

(** Two contended attempts with a zero timeout end in the consumer error. *)
Lemma claim_failure_handling_witness :
  exists tr,
    partitionConsumer (contendedEnv readyState) (sampleGroup OffsetOldest 0) "topic" 0
    = (Exited,
       tr ++ [EvSendErrors (ConsumerError "topic" 0 ErrPartitionClaimedByOther);
              EvLocalWgDone]).
Proof.
  destruct (proj2 (proj2 (proj2 (claim_failure_handling (contendedEnv readyState)
              (sampleGroup OffsetOldest 0) "topic" 0))) ErrPartitionClaimedByOther)
    as (tr & _ & Hpc & _).
  - vm_compute. reflexivity.
  - intros i _. split; [reflexivity | discriminate].
  - reflexivity.
  - exists tr. exact Hpc.
Defined.

(** ** Opening the stream *)

Lemma consumePartition_shape cg broker calls topic part nextOffset :
  let fallback :=
    if Initial (Offsets (config cg)) =? OffsetOldest then OffsetOldest else OffsetNewest in
  let r := consumePartition cg broker calls topic part nextOffset in
  (broker calls nextOffset = Some ErrOffsetOutOfRange ->
     consumeOffsets (snd r) = [nextOffset; fallback] /\
     snd (fst (fst r)) = broker (S calls) fallback) /\
  (broker calls nextOffset <> Some ErrOffsetOutOfRange ->
     consumeOffsets (snd r) = [nextOffset] /\
     snd (fst (fst r)) = broker calls nextOffset) /\
  (snd (fst (fst r)) = None <-> fst (fst (fst r)) <> None).
Proof.
  cbv zeta. unfold consumePartition.
  destruct (decide (broker calls nextOffset = Some ErrOffsetOutOfRange)) as [Hoor|Hoor].
  - destruct (Initial (Offsets (config cg)) =? OffsetOldest);
      destruct (broker (S calls) _) eqn:Hsecond; simpl;
      (split; [intros _; split; reflexivity|]);
      (split; [intros Hne; contradiction|]);
      split; congruence.
  - destruct (broker calls nextOffset) eqn:Hfirst; simpl;
      (split; [intros Heq; congruence|]);
      (split; [intros _; split; reflexivity|]);
      split; congruence.
Qed.

Lemma consumePartition_first_offset cg broker calls topic part nextOffset :
  head (consumeOffsets (snd (consumePartition cg broker calls topic part nextOffset)))
  = Some nextOffset.
Proof.
  destruct (consumePartition_shape cg broker calls topic part nextOffset)
    as (Hoor & Hother & _).
  destruct (decide (broker calls nextOffset = Some ErrOffsetOutOfRange)) as [H|H].
  - destruct (Hoor H) as [-> _]. reflexivity.
  - destruct (Hother H) as [-> _]. reflexivity.
Qed.

Lemma startOffset_no_consume cg topic part stored :
  consumeOffsets (snd (startOffset cg topic part stored)) = [].
Proof.
  unfold startOffset. destruct (0 <=? stored); [reflexivity|]. simpl.
  destruct (_ =? OffsetOldest); [reflexivity|].
  destruct (_ =? OffsetNewest); reflexivity.
Qed.

Lemma consumeClaimed_open_failure env cg topic part stored e :
  initializePartition env = (stored, None) ->
  snd (fst (fst (consumePartition cg (brokerConsumePartition env) 0 topic part
                   (fst (startOffset cg topic part stored))))) = Some e ->
  fst (consumeClaimed env cg topic part) = Exited /\
  consumeOffsets (snd (consumeClaimed env cg topic part))
  = consumeOffsets
      (snd (consumePartition cg (brokerConsumePartition env) 0 topic part
              (fst (startOffset cg topic part stored)))).
Proof.
  intros Hinit Herr. unfold consumeClaimed. rewrite Hinit.
  pose proof (startOffset_no_consume cg topic part stored) as Hlines.
  destruct (startOffset cg topic part stored) as [next lines]. simpl in *.
  destruct (consumePartition cg (brokerConsumePartition env) 0 topic part next)
    as [[[consumer err] calls] tr]. simpl in *. subst err.
  destruct consumer; simpl; (split; [reflexivity|]);
    rewrite !consumeOffsets_app, Hlines; simpl; rewrite app_nil_r; reflexivity.
Qed.

Lemma partitionConsumerLoop_reconnect_failure cg broker topic part calls lastOffset e :
  snd (fst (fst (consumePartition cg broker calls topic part lastOffset))) = Some e ->
  forall s ins,
    fst (partitionConsumerLoop cg broker topic part
           (InputError None s :: ins) calls lastOffset) = LoopBreak lastOffset /\
    fst (partitionConsumerLoop cg broker topic part
           (InputMessage None s :: ins) calls lastOffset) = LoopBreak lastOffset.
Proof.
  intros Herr s ins. simpl.
  destruct (consumePartition cg broker calls topic part lastOffset)
    as [[[consumer err] calls'] tr]. simpl in Herr. subst err. split; reflexivity.
Qed.

(** C8.  [consumePartition] first asks the broker for [nextOffset].  When the
    answer is the out-of-range error it asks exactly once more, at
    [OffsetOldest] if [Offsets.Initial] is [OffsetOldest] and at
    [OffsetNewest] otherwise, and the answer to that call is its result; for
    any other answer it makes no second call and the first answer is its
    result.  A stream is returned exactly when no error is.  On an error the
    worker leaves its main loop, or returns at once if the stream was being
    opened for the first time, without asking the broker again. *)
Theorem consumePartition_out_of_range_retry cg broker calls topic part nextOffset :
  let fallback :=
    if Initial (Offsets (config cg)) =? OffsetOldest then OffsetOldest else OffsetNewest in
  let r := consumePartition cg broker calls topic part nextOffset in
  let consumer := fst (fst (fst r)) in
  let err := snd (fst (fst r)) in
  head (consumeOffsets (snd r)) = Some nextOffset /\
  (broker calls nextOffset = Some ErrOffsetOutOfRange ->
     consumeOffsets (snd r) = [nextOffset; fallback] /\
     err = broker (S calls) fallback) /\
  (broker calls nextOffset <> Some ErrOffsetOutOfRange ->
     consumeOffsets (snd r) = [nextOffset] /\ err = broker calls nextOffset) /\
  (err = None <-> consumer <> None) /\
  (forall e, err = Some e ->
     (forall s ins,
        fst (partitionConsumerLoop cg broker topic part
               (InputError None s :: ins) calls nextOffset) = LoopBreak nextOffset /\
        fst (partitionConsumerLoop cg broker topic part
               (InputMessage None s :: ins) calls nextOffset) = LoopBreak nextOffset) /\
     (forall env stored,
        calls = 0%nat -> brokerConsumePartition env = broker ->
        initializePartition env = (stored, None) ->
        fst (startOffset cg topic part stored) = nextOffset ->
        fst (consumeClaimed env cg topic part) = Exited /\
        consumeOffsets (snd (consumeClaimed env cg topic part))
        = consumeOffsets (snd r))).
Proof.
  cbv zeta.
  destruct (consumePartition_shape cg broker calls topic part nextOffset)
    as (Hoor & Hother & Hiff).
  split; [|split; [exact Hoor | split; [exact Hother | split; [exact Hiff|]]]].
  - apply consumePartition_first_offset.
  - intros e Herr. split.
    + apply (partitionConsumerLoop_reconnect_failure _ _ _ _ _ _ e Herr).
    + intros env stored -> <- Hinit <-.
      apply (consumeClaimed_open_failure env cg topic part stored e Hinit Herr).
Qed.

(** Out of range at offset 100 with the newest policy. *)
Lemma consumePartition_out_of_range_retry_witness :
  consumeOffsets
    (snd (consumePartition (sampleGroup OffsetNewest (60 * Second))
            (fun n _ => if (n =? 0)%nat then Some ErrOffsetOutOfRange else None)
            0 "topic" 0 100))
  = [100; OffsetNewest].
Proof.
  refine (proj1 (proj1 (proj2 (consumePartition_out_of_range_retry
                 (sampleGroup OffsetNewest (60 * Second))
                 (fun n _ => if (n =? 0)%nat then Some ErrOffsetOutOfRange else None)
                 0 "topic" 0 100)) _)).
  reflexivity.
Defined.

Lemma partitionConsumer_consumeOffsets env cg topic part :
  fst (partitionClaimLoop (Z.to_nat (maxRetriesOf cg)) env topic part
         (maxRetriesOf cg) 0) = ClaimProceed ->
  consumeOffsets (snd (partitionConsumer env cg topic part))
  = consumeOffsets (snd (consumeClaimed env cg topic part)).
Proof.
  intros Hproceed. unfold partitionConsumer.
  pose proof (partitionClaimLoop_events env topic part (maxRetriesOf cg)
                (Z.to_nat (maxRetriesOf cg)) 0) as Hev.
  destruct (partitionClaimLoop _ env topic part (maxRetriesOf cg) 0) as [r tr].
  simpl in Hproceed, Hev. subst r.
  pose proof (consumeOffsets_claimPhase tr Hev) as Htr.
  destruct (consumeClaimed env cg topic part) as [[] tr']; simpl;
    [ destruct (releasePartition env) as [e|];
      unfold sendConsumerError; try destruct (bareSend _) | | | ];
    simpl; repeat rewrite consumeOffsets_app; rewrite Htr; simpl;
    rewrite ?app_nil_r; reflexivity.
Qed.

Lemma consumeClaimed_first_open env cg topic part stored :
  initializePartition env = (stored, None) ->
  head (consumeOffsets (snd (consumeClaimed env cg topic part)))
  = Some (fst (startOffset cg topic part stored)).
Proof.
  intros Hinit. unfold consumeClaimed. rewrite Hinit.
  pose proof (startOffset_no_consume cg topic part stored) as Hlines.
  destruct (startOffset cg topic part stored) as [next lines]. simpl in *.
  pose proof (consumePartition_first_offset cg (brokerConsumePartition env)
                0 topic part next) as Hhead.
  destruct (consumePartition cg (brokerConsumePartition env) 0 topic part next)
    as [[[consumer err] calls] tr]. simpl in Hhead.
  destruct (consumeOffsets tr) as [|o os] eqn:Htr; [discriminate|].
  simpl in Hhead. inversion Hhead; subst o.
  destruct consumer as [handle|], err as [e|]; simpl;
    try (rewrite !consumeOffsets_app, Hlines, Htr; reflexivity).
  destruct (partitionConsumerLoop cg (brokerConsumePartition env) topic part
              (inputs env) calls (-1)) as [[lastOffset|] tr']; simpl;
    rewrite !consumeOffsets_app, Hlines, Htr; reflexivity.
Qed.

(** C9.  After a successful claim the stream is first opened at the stored
    offset whenever that offset is not negative, and at [Offsets.Initial]
    only when it is strictly negative; a stored offset of exactly 0 opens the
    stream at offset 0. *)
Theorem stored_offset_zero_is_resumed env cg topic part stored :
  initializePartition env = (stored, None) ->
  fst (partitionClaimLoop (Z.to_nat (maxRetriesOf cg)) env topic part
         (maxRetriesOf cg) 0) = ClaimProceed ->
  head (consumeOffsets (snd (partitionConsumer env cg topic part)))
  = Some (if stored <? 0 then Initial (Offsets (config cg)) else stored) /\
  (fst (startOffset cg topic part stored) <> stored -> stored < 0) /\
  (stored = 0 ->
   head (consumeOffsets (snd (partitionConsumer env cg topic part))) = Some 0).
Proof.
  intros Hinit Hproceed.
  rewrite (partitionConsumer_consumeOffsets env cg topic part Hproceed).
  rewrite (consumeClaimed_first_open env cg topic part stored Hinit).
  unfold startOffset.
  destruct (Z.ltb_spec stored 0) as [Hneg|Hnn].
  - assert ((0 <=? stored) = false) as -> by (apply Z.leb_gt; exact Hneg).
    simpl. repeat split; [intros _; exact Hneg | intros ->; lia].
  - assert ((0 <=? stored) = true) as -> by (apply Z.leb_le; exact Hnn).
    simpl. repeat split; [intros Hne; congruence | intros ->; reflexivity].
Qed.

(** A stored offset of 0 under the newest policy. *)
Lemma stored_offset_zero_is_resumed_witness :
  head (consumeOffsets
          (snd (partitionConsumer
                  (claimedEnv 0 (fun _ _ => None) [InputDone] None readyState)
                  (sampleGroup OffsetNewest (60 * Second)) "topic" 0)))
  = Some 0.
Proof.
  refine (proj2 (proj2 (stored_offset_zero_is_resumed
                   (claimedEnv 0 (fun _ _ => None) [InputDone] None readyState)
                   (sampleGroup OffsetNewest (60 * Second)) "topic" 0 0 _ _)) _).
  - reflexivity.
  - vm_compute. reflexivity.
  - reflexivity.
Defined.

(** ** Shutdown *)

Lemma Close_again env cg :
  singleShutdown cg = true -> Close env cg = (cg, Some AlreadyClosing, []).
Proof. intros H. unfold Close. rewrite H. reflexivity. Qed.

Lemma Close_marks env cg : singleShutdown (fst (fst (Close env cg))) = true.
Proof.
  unfold Close. destruct (singleShutdown cg) eqn:H; simpl; [exact H | reflexivity].
Qed.

Lemma closeCalls_closed envs cg :
  singleShutdown cg = true ->
  closeCalls envs cg = (cg, repeat (Some AlreadyClosing, []) (length envs)).
Proof.
  intros H. induction envs as [|env envs IH]; simpl; [reflexivity|].
  rewrite (Close_again env cg H), IH. reflexivity.
Qed.

Lemma closeCalls_first env envs cg :
  closeCalls (env :: envs) cg
  = (fst (fst (Close env cg)),
     (snd (fst (Close env cg)), snd (Close env cg))
       :: repeat (Some AlreadyClosing, []) (length envs)).
Proof.
  simpl. pose proof (Close_marks env cg) as Hm.
  destruct (Close env cg) as [[cg1 err] tr]. simpl in *.
  rewrite (closeCalls_closed envs cg1 Hm). reflexivity.
Qed.

Lemma concat_quiet_calls (n : nat) :
  concat (map snd (repeat (Some AlreadyClosing, @nil event) n)) = [].
Proof. induction n as [|n IH]; simpl; [reflexivity | exact IH]. Qed.

Lemma Close_first_effects env cg :
  singleShutdown cg = false ->
  List.filter (fun e => negb (isLogf e)) (snd (Close env cg))
  = [EvMuLock; EvCloseStopper; EvMuUnlock; EvWgWait; EvOffsetManagerClose;
     EvDeregister; EvConsumerClose; EvCloseMessages; EvCloseErrors;
     EvSetInstanceNil; EvKazooClose].
Proof.
  intros H. unfold Close. rewrite H. unfold shutdown. simpl.
  destruct (offsetManagerClose env), (instanceDeregister env), (consumerClose env);
    reflexivity.
Qed.

Lemma partitionConsumer_no_close env cg topic part :
  Forall (fun e => closesDownstream e = false) (snd (partitionConsumer env cg topic part)).
Proof.
  assert (forall tr, Forall (fun e => claimPhaseEvent e = true) tr ->
            Forall (fun e => closesDownstream e = false) tr) as Hclaim.
  { intros tr. apply List.Forall_impl. intros []; simpl; congruence. }
  assert (forall tr, Forall (fun e => consumePhaseEvent e = true) tr ->
            Forall (fun e => closesDownstream e = false) tr) as Hconsume.
  { intros tr. apply List.Forall_impl. intros []; simpl; congruence. }
  unfold partitionConsumer.
  pose proof (Hclaim _ (partitionClaimLoop_events env topic part (maxRetriesOf cg)
                          (Z.to_nat (maxRetriesOf cg)) 0)) as Hev.
  destruct (partitionClaimLoop _ env topic part (maxRetriesOf cg) 0) as [[| |err|] tr];
    simpl in *.
  - pose proof (Hconsume _ (consumeClaimed_events env cg topic part)) as Hc.
    destruct (consumeClaimed env cg topic part) as [[] tr']; simpl in *;
      [ destruct (releasePartition env) as [e|];
        unfold sendConsumerError; try destruct (bareSend _) | | | ];
      simpl; forall_events.
  - forall_events.
  - unfold sendConsumerError. destruct (bareSend _); simpl; forall_events.
  - exact Hev.
Qed.

Lemma topicConsumer_no_close env cg topic :
  Forall (fun e => closesDownstream e = false) (snd (topicConsumer env cg topic)).
Proof.
  unfold topicConsumer.
  destruct (doneAtStart env); [forall_events|].
  destruct (topicPartitions env) as [partitions [err|]].
  - unfold sendConsumerError. destruct (bareSend _); simpl; forall_events.
  - destruct (RetrievePartitionLeaders _ partitions) as [leaders [err|]].
    + unfold sendConsumerError. destruct (bareSend _); simpl; forall_events.
    + simpl. forall_events.
      induction (mapIndex _ _) as [|p ps IH]; simpl; forall_events.
Qed.

(** *** Shapes of the traces *)

Lemma runsOut_silent final exits pre post :
  silent final = false ->
  Forall (fun e => silent e = true) pre ->
  runsOut final exits (pre ++ post) = runsOut final exits post.
Proof.
  intros Hfinal. induction 1 as [|e pre He _ IH]; simpl; [reflexivity|].
  rewrite bool_decide_eq_false_2 by (intros ->; congruence).
  rewrite He, IH. reflexivity.
Qed.

Lemma runsOut_blocked final tr :
  silent final = false ->
  Forall (fun e => silent e = true) tr -> runsOut final false tr = true.
Proof.
  intros Hfinal Htr. rewrite <- (app_nil_r tr).
  rewrite (runsOut_silent _ _ _ _ Hfinal Htr). reflexivity.
Qed.

Lemma runsOut_running final st todo :
  runsOut final (bool_decide (st = Exited)) todo = true -> returned st todo = false.
Proof.
  unfold returned. destruct (bool_decide (st = Exited)); [|reflexivity].
  destruct todo; [discriminate | reflexivity].
Qed.

Lemma claimPhase_silent tr :
  Forall (fun e => claimPhaseEvent e = true) tr -> Forall (fun e => silent e = true) tr.
Proof. apply List.Forall_impl. intros []; simpl; congruence. Qed.

Lemma consumePhase_silent tr :
  Forall (fun e => consumePhaseEvent e = true) tr -> Forall (fun e => silent e = true) tr.
Proof. apply List.Forall_impl. intros []; simpl; congruence. Qed.

(** A partition worker performs silent effects and, exactly when it
    returns, ends with the [wg.Done()] of its topic worker's wait group. *)
Lemma partitionConsumer_runsOut env cg topic part :
  runsOut EvLocalWgDone
    (bool_decide (fst (partitionConsumer env cg topic part) = Exited))
    (snd (partitionConsumer env cg topic part)) = true.
Proof.
  unfold partitionConsumer.
  pose proof (claimPhase_silent _
                (partitionClaimLoop_events env topic part (maxRetriesOf cg)
                   (Z.to_nat (maxRetriesOf cg)) 0)) as Hclaim.
  destruct (partitionClaimLoop _ env topic part (maxRetriesOf cg) 0) as [[| |err|] tr];
    simpl in Hclaim.
  - pose proof (consumePhase_silent _ (consumeClaimed_events env cg topic part)) as Hbody.
    destruct (consumeClaimed env cg topic part) as [[] tr']; simpl in Hbody.
    + destruct (releasePartition env) as [e|].
      * unfold sendConsumerError. destruct (bareSend _); simpl;
          rewrite <- ?app_assoc, !(runsOut_silent EvLocalWgDone _ _ _ eq_refl Hclaim),
            !(runsOut_silent EvLocalWgDone _ _ _ eq_refl Hbody); reflexivity.
      * simpl. rewrite !(runsOut_silent EvLocalWgDone _ _ _ eq_refl Hclaim),
          !(runsOut_silent EvLocalWgDone _ _ _ eq_refl Hbody). reflexivity.
    + simpl. apply runsOut_blocked; [reflexivity | apply Forall_app; split; assumption].
    + simpl. apply runsOut_blocked; [reflexivity | apply Forall_app; split; assumption].
    + simpl. apply runsOut_blocked; [reflexivity | apply Forall_app; split; assumption].
  - simpl. rewrite (runsOut_silent EvLocalWgDone _ _ _ eq_refl Hclaim). reflexivity.
  - unfold sendConsumerError. destruct (bareSend _); simpl.
    + rewrite (runsOut_silent EvLocalWgDone _ _ _ eq_refl Hclaim). reflexivity.
    + apply runsOut_blocked; [reflexivity | exact Hclaim].
    + apply runsOut_blocked; [reflexivity | exact Hclaim].
  - simpl. apply runsOut_blocked; [reflexivity | exact Hclaim].
Qed.

Lemma spawnShape_next pending todo :
  spawnShape pending todo = true -> nextIsGoPartition todo = pending.
Proof.
  destruct todo as [|e rest]; [discriminate|].
  destruct e, pending; simpl; intros H; try reflexivity; discriminate.
Qed.

Lemma spawnShape_spawns topic (my : list Partition) rest :
  spawnShape false
    (concat (map (fun pid : Partition =>
                    [EvLocalWgAdd; EvGoPartitionConsumer topic (ID pid)]) my) ++ rest)
  = spawnShape false rest.
Proof. induction my as [|p ps IH]; simpl; [reflexivity | exact IH]. Qed.

(** A topic worker either performs silent effects and, exactly when it
    returns, ends with [cg.wg.Done()]; or it starts its partition workers,
    waits for them and returns. *)
Lemma topicConsumer_shape env cg topic :
  runsOut EvWgDone (bool_decide (fst (topicConsumer env cg topic) = Exited))
    (snd (topicConsumer env cg topic)) = true \/
  (fst (topicConsumer env cg topic) = Exited /\
   spawnShape false (snd (topicConsumer env cg topic)) = true).
Proof.
  unfold topicConsumer.
  destruct (doneAtStart env); [left; reflexivity|].
  destruct (topicPartitions env) as [partitions [err|]].
  - left. unfold sendConsumerError. destruct (bareSend _); reflexivity.
  - destruct (RetrievePartitionLeaders _ partitions) as [leaders [err|]].
    + left. unfold sendConsumerError. destruct (bareSend _); reflexivity.
    + right. split; [reflexivity|]. simpl. rewrite spawnShape_spawns. reflexivity.
Qed.

Lemma insideCS_next pending todo :
  insideCS pending todo = true -> nextIsGoTopic todo = pending.
Proof.
  destruct todo as [|e rest]; [discriminate|].
  destruct e, pending; simpl; intros H; try reflexivity; discriminate.
Qed.

Lemma insideCS_holds pending todo :
  insideCS pending todo = true -> forallb svQuiet todo = false.
Proof.
  revert pending. induction todo as [|e rest IH]; intros pending H; [discriminate|].
  destruct e; simpl in *; try reflexivity;
    apply andb_true_iff in H; destruct H as [_ H]; exact (IH _ H).
Qed.

Lemma svQuiet_no_spawns todo :
  forallb svQuiet todo = true -> existsb svSpawns todo = false.
Proof.
  induction todo as [|e rest IH]; [reflexivity|].
  destruct e; simpl; try discriminate; exact IH.
Qed.

Lemma svQuiet_next todo : forallb svQuiet todo = true -> nextIsGoTopic todo = false.
Proof. destruct todo as [|[] rest]; simpl; try reflexivity; discriminate. Qed.

Lemma insideCS_spawns topics rest :
  insideCS false
    (concat (map (fun topic => [SvWgAdd; SvGoTopicConsumer topic]) topics)
       ++ SvMuUnlock :: rest)
  = forallb svQuiet rest.
Proof. induction topics as [|t ts IH]; simpl; [reflexivity | exact IH]. Qed.

(** One iteration of the top-level loop: it begins with the lock, keeps the
    identity of the handle, holds the mutex while it adds to the wait group
    and starts workers, and does neither when it saw the stopper closed. *)
Lemma topicListConsumer_iteration cg topics g :
  exists st cg' todo,
    topicListConsumer cg topics [g] = (st, cg', SvMuLock :: todo) /\
    singleShutdown cg' = singleShutdown cg /\
    insideCS false todo = true /\
    (stopperClosed g = true -> existsb svSpawns todo = false).
Proof.
  simpl. destruct (stopperClosed g).
  { eexists _, _, _. repeat split; reflexivity. }
  destruct (watchInstances g) as [members [err|]].
  { eexists _, _, _. repeat split; reflexivity. }
  destruct (generationEnds g) as [|inj|registered register|].
  - eexists _, _, _. split; [reflexivity|]. split; [reflexivity|].
    split; [|discriminate]. simpl. rewrite <- app_assoc. simpl.
    rewrite insideCS_spawns. reflexivity.
  - eexists _, _, _. split; [reflexivity|]. split; [reflexivity|].
    split; [|discriminate]. simpl. rewrite <- app_assoc. simpl.
    rewrite insideCS_spawns. destruct inj; reflexivity.
  - destruct (instance cg).
    + eexists _, _, _. split; [reflexivity|]. split; [reflexivity|].
      split; [|discriminate]. simpl. rewrite <- app_assoc. simpl.
      rewrite insideCS_spawns.
      destruct registered as [[] [e|]]; try destruct register; reflexivity.
    + eexists _, _, _. split; [reflexivity|]. split; [reflexivity|].
      split; [|discriminate]. simpl. rewrite insideCS_spawns. reflexivity.
  - eexists _, _, _. split; [reflexivity|]. split; [reflexivity|].
    split; [|discriminate]. simpl. rewrite insideCS_spawns. reflexivity.
Qed.

(** The effects of the first [Close]: lock, close the stopper, unlock, wait,
    and then the teardown, which closes each channel once. *)
Lemma Close_todo env cg :
  singleShutdown cg = false ->
  closerShape (snd (Close env cg)) = true /\
  closerStage (snd (Close env cg)) = 0%nat /\
  countEvent EvCloseMessages (snd (Close env cg)) = 1%nat /\
  countEvent EvCloseErrors (snd (Close env cg)) = 1%nat.
Proof.
  intros H. unfold Close. rewrite H. unfold shutdown. simpl.
  destruct (offsetManagerClose env), (instanceDeregister env), (consumerClose env);
    repeat split; reflexivity.
Qed.

(** *** Counting the running workers *)

Lemma filter_length_app {A} (f : A -> bool) (l1 l2 : list A) :
  length (List.filter f (l1 ++ l2))
  = (length (List.filter f l1) + length (List.filter f l2))%nat.
Proof. rewrite List.filter_app, length_app. reflexivity. Qed.

Lemma filter_length_insert {A} (f : A -> bool) (l : list A) (i : nat) (x y : A) :
  l !! i = Some x ->
  (length (List.filter f (<[i := y]> l)) + (if f x then 1 else 0)
   = length (List.filter f l) + (if f y then 1 else 0))%nat.
Proof.
  revert i. induction l as [|a l IH]; intros i Hi; [discriminate|].
  destruct i as [|i]; simpl in *.
  - inversion Hi; subst a. destruct (f x), (f y); simpl; lia.
  - specialize (IH i Hi). destruct (f a); simpl; lia.
Qed.

Lemma filter_length_zero {A} (f : A -> bool) (l : list A) :
  length (List.filter f l) = 0%nat -> Forall (fun x => f x = false) l.
Proof.
  induction l as [|a l IH]; simpl; [constructor|].
  destruct (f a) eqn:Ha; [discriminate|]. intros H. constructor; [exact Ha | exact (IH H)].
Qed.

(** *** Every step keeps the world consistent *)

Lemma perform_silent e w : silent e = true -> perform e w = Some w.
Proof. destruct e; simpl; try discriminate; reflexivity. Qed.

Lemma countEvent_cons x e rest :
  countEvent x (e :: rest)
  = ((if bool_decide (e = x) then 1 else 0) + countEvent x rest)%nat.
Proof. unfold countEvent. simpl. destruct (bool_decide (e = x)); reflexivity. Qed.

Lemma countEvent_cons_eq x rest : countEvent x (x :: rest) = S (countEvent x rest).
Proof. rewrite countEvent_cons, bool_decide_eq_true_2 by reflexivity. reflexivity. Qed.

Lemma countEvent_cons_ne x e rest : e <> x -> countEvent x (e :: rest) = countEvent x rest.
Proof. intros H. rewrite countEvent_cons, bool_decide_eq_false_2 by exact H. reflexivity. Qed.

Lemma teardown_stage rest :
  forallb teardown rest = true -> closerStage rest = 4%nat /\ closerShape rest = true.
Proof.
  destruct rest as [|e rest]; [split; reflexivity|].
  destruct e; simpl; try discriminate; intros H; split; try reflexivity; exact H.
Qed.

(** The next effect of [Close] and what is left after it. *)
Lemma closerShape_step e rest :
  closerShape (e :: rest) = true ->
  closerShape rest = true /\
  ((e = EvMuLock /\ closerStage rest = 1%nat) \/
   (e = EvCloseStopper /\ closerStage rest = 2%nat) \/
   (e = EvMuUnlock /\ closerStage rest = 3%nat) \/
   (e = EvWgWait /\ closerStage rest = 4%nat) \/
   (teardown e = true /\ closerStage (e :: rest) = 4%nat /\ closerStage rest = 4%nat)).
Proof.
  intros H. destruct e; simpl in H; try discriminate;
    try (apply teardown_stage in H; destruct H as [H1 H2];
         split; [exact H2|]; do 4 right; repeat split; try reflexivity; exact H1).
  - destruct rest as [|[] [|[] [|[] rest]]]; simpl in H; try discriminate.
    split; [exact H|]. left. split; reflexivity.
  - destruct rest as [|[] rest]; simpl in H; try discriminate.
    split; [exact H|]. right. right. left. split; reflexivity.
  - destruct rest as [|[] [|[] rest]]; simpl in H; try discriminate.
    split; [exact H|]. right. left. split; reflexivity.
  - destruct (teardown_stage _ H) as [H1 H2].
    split; [exact H2|]. right. right. right. left. split; [reflexivity | exact H1].
Qed.

Lemma consistent_joined cg : consistent (joined cg).
Proof.
  constructor; try reflexivity; try exact I; try constructor.
  all: repeat split; try reflexivity; try constructor.
Qed.

Lemma callClose_consistent env w w' :
  consistent w -> callClose env w = Some w' -> consistent w'.
Proof.
  intros [Hmu Hex Hc Hs Hwg Htw]. unfold callClose.
  destruct (singleShutdown (handle w)) eqn:Hflag; intros H; inversion H; subst w'.
  { constructor; assumption. }
  clear H. unfold closerOK, closerHolds in *.
  destruct (closer w) as [todo|] eqn:Hcl; [destruct Hc as (_ & Hc & _); congruence|].
  destruct Hc as (Hstop & Hm & He).
  destruct (Close_todo env (handle w) Hflag) as (Hshape & Hstage & Hcm & Hce).
  constructor; unfold closerOK, closerHolds, supervisorHolds, supervisorOK, pendingGo in *;
    simpl; rewrite ?Hstage; simpl; try assumption.
  repeat split; try assumption; try lia.
Qed.

Lemma stepClose_consistent w w' :
  consistent w -> stepClose w = Some w' -> consistent w'.
Proof.
  intros [Hmu Hex Hc Hs Hwg Htw]. unfold stepClose.
  destruct (closer w) as [[|e rest]|] eqn:Hcl; try discriminate.
  unfold closerOK, closerHolds in *. rewrite Hcl in *.
  destruct Hc as (Hshape & Hflag & Hstop & Hm & He & Hzero & Hjoin).
  destruct (closerShape_step _ _ Hshape)
    as (Hrest & [(-> & Hst)|[(-> & Hst)|[(-> & Hst)|[(-> & Hst)|(Htear & Hst0 & Hst)]]]]).
  - (* cg.mu.Lock() *)
    simpl. destruct (muHeld w) eqn:Hheld; [discriminate|].
    intros H; inversion H; subst w'; clear H.
    rewrite countEvent_cons_ne in Hm, He by discriminate. simpl in *. symmetry in Hmu.
    constructor; unfold closerOK, closerHolds, supervisorHolds, supervisorOK, pendingGo in *;
      simpl; rewrite ?Hst; simpl; try assumption; try reflexivity;
      repeat split; try assumption; try lia.
  - (* close(cg.stopper) *)
    simpl. intros H; inversion H; subst w'; clear H.
    rewrite countEvent_cons_ne in Hm, He by discriminate. simpl in *.
    constructor; unfold closerOK, closerHolds, supervisorHolds, supervisorOK, pendingGo in *;
      simpl; rewrite ?Hst; simpl; try assumption; try reflexivity.
    + repeat split; try assumption; try lia; intros; try lia; apply Hzero; lia.
    + destruct (supervisor w) as [| |st todo]; try exact I; try discriminate.
      destruct Hs as [Hs _]. split; [exact Hs|].
      apply negb_false_iff in Hex. intros Hsp.
      rewrite (svQuiet_no_spawns _ Hex) in Hsp. discriminate.
  - (* cg.mu.Unlock() *)
    simpl. intros H; inversion H; subst w'; clear H.
    rewrite countEvent_cons_ne in Hm, He by discriminate. simpl in *.
    constructor; unfold closerOK, closerHolds, supervisorHolds, supervisorOK, pendingGo in *;
      simpl; rewrite ?Hst; simpl; try assumption; try reflexivity.
    + symmetry. exact Hex.
    + repeat split; try assumption; try lia; intros; try lia; apply Hzero; lia.
  - (* cg.wg.Wait() *)
    simpl. destruct (Z.eqb_spec (wgCounter w) 0) as [Hz|Hz]; [|discriminate].
    intros H; inversion H; subst w'; clear H.
    rewrite countEvent_cons_ne in Hm, He by discriminate. simpl in *.
    constructor; unfold closerOK, closerHolds, supervisorHolds, supervisorOK, pendingGo in *;
      simpl; rewrite ?Hst; simpl; try assumption; try reflexivity.
    repeat split; try assumption; try lia; intros; try lia; apply Hzero; lia.
  - (* the teardown *)
    rewrite Hst0 in *. simpl in Hmu, Hex, Hstop.
    specialize (Hjoin ltac:(lia)).
    destruct e; simpl in Htear; try discriminate; simpl;
      intros H; inversion H; subst w'; clear H;
      first [rewrite countEvent_cons_eq in Hm | rewrite countEvent_cons_ne in Hm by discriminate];
      first [rewrite countEvent_cons_eq in He | rewrite countEvent_cons_ne in He by discriminate];
      (constructor;
       unfold closerOK, closerHolds, supervisorHolds, supervisorOK, pendingGo in *;
       simpl; rewrite ?Hst; simpl; try assumption; try reflexivity;
       repeat split; try assumption; try lia).
Qed.

Lemma stepSupervisor_event topics g tenv w st e rest :
  supervisor w = SupInIteration st (e :: rest) ->
  stepSupervisor topics g tenv w
  = let next := withSupervisor (SupInIteration st rest) in
    match e with
    | SvMuLock => if muHeld w then None else Some (next (withMu true w))
    | SvMuUnlock => Some (next (withMu false w))
    | SvWgAdd => Some (next (withWg (wgCounter w + 1) w))
    | SvWgWait => if wgCounter w =? 0 then Some (next w) else None
    | SvGoTopicConsumer topic =>
        let '(st', todo) := topicConsumer tenv (handle w) topic in
        Some (next (withTopicWorkers
                      (topicWorkers w
                         ++ [{| twStatus := st'; twTodo := todo; twWg := 0;
                                twPartitions := [] |}]) w))
    | _ => Some (next w)
    end.
Proof. intros H. unfold stepSupervisor. rewrite H. destruct st; reflexivity. Qed.

(** A topic worker that has just been started is running and in order. *)
Lemma topicConsumer_started env cg topic :
  let tw := {| twStatus := fst (topicConsumer env cg topic);
               twTodo := snd (topicConsumer env cg topic);
               twWg := 0; twPartitions := [] |} in
  runningTopic tw = true /\ topicOK tw.
Proof.
  cbv zeta. unfold runningTopic, topicOK. simpl.
  destruct (topicConsumer_shape env cg topic) as [H|[Hst H]].
  - split; [rewrite (runsOut_running _ _ _ H); reflexivity|].
    right. left. split; [exact H | constructor].
  - split.
    + unfold returned. destruct (snd (topicConsumer env cg topic)); [discriminate|].
      rewrite andb_false_r. reflexivity.
    + right. right. rewrite (spawnShape_next _ _ H). repeat split; try assumption.
      constructor.
Qed.

(** An effect of the loop that is neither lock nor unlock, adds nothing to
    the wait group and starts nobody leaves the loop where it is with
    respect to the mutex. *)
Lemma supervisor_quiet_step e rest :
  svQuiet e = true ->
  insideCS (nextIsGoTopic (e :: rest)) (e :: rest) = true \/
  forallb svQuiet (e :: rest) = true ->
  nextIsGoTopic (e :: rest) = false /\
  nextIsGoTopic rest = false /\
  forallb svQuiet (e :: rest) = forallb svQuiet rest /\
  existsb svSpawns (e :: rest) = existsb svSpawns rest /\
  (insideCS (nextIsGoTopic rest) rest = true \/ forallb svQuiet rest = true).
Proof.
  intros He H.
  assert (svSpawns e = false) as Hsp by (destruct e; simpl in *; congruence).
  assert (nextIsGoTopic (e :: rest) = false) as Hn by (destruct e; simpl in *; congruence).
  rewrite Hn in H.
  assert (insideCS false rest = true \/ forallb svQuiet rest = true) as H'.
  { destruct H as [H|H]; [left | right].
    - destruct e; simpl in *; congruence.
    - simpl in H. rewrite He in H. exact H. }
  assert (nextIsGoTopic rest = false) as Hr.
  { destruct H' as [H'|H']; [exact (insideCS_next _ _ H') | exact (svQuiet_next _ H')]. }
  split; [exact Hn|]. split; [exact Hr|].
  split; [simpl; rewrite He; reflexivity|].
  split; [simpl; rewrite Hsp; reflexivity|].
  rewrite Hr. exact H'.
Qed.

Lemma stepSupervisor_consistent topics g tenv w w' :
  consistent w -> stepSupervisor topics g tenv w = Some w' -> consistent w'.
Proof.
  intros [Hmu Hex Hc Hs Hwg Htw].
  destruct (supervisor w) as [| |st [|e rest]] eqn:Hsup.
  - (* cg.mu.Lock() *)
    unfold stepSupervisor. rewrite Hsup.
    destruct (muHeld w) eqn:Hheld; [discriminate|].
    intros H; inversion H; subst w'; clear H.
    unfold closerOK, closerHolds, supervisorHolds, supervisorOK, pendingGo in *.
    rewrite Hsup in *. rewrite orb_false_r in Hmu.
    constructor; unfold closerOK, closerHolds, supervisorHolds, supervisorOK, pendingGo;
      simpl; try assumption; try exact I.
    + rewrite orb_true_r. reflexivity.
    + rewrite andb_true_r. symmetry. exact Hmu.
  - (* the select on the stopper *)
    unfold stepSupervisor. rewrite Hsup. cbv zeta.
    destruct (topicListConsumer_iteration (handle w) topics
                {| stopperClosed := stopperIsClosed w;
                   watchInstances := watchInstances g;
                   generationEnds := generationEnds g |})
      as (st & cg' & todo & Heq & Hflag & Hcs & Hnospawn).
    rewrite Heq. intros H; inversion H; subst w'; clear H.
    unfold closerOK, closerHolds, supervisorHolds, supervisorOK, pendingGo in *.
    rewrite Hsup in *.
    constructor; unfold closerOK, closerHolds, supervisorHolds, supervisorOK, pendingGo;
      simpl; rewrite ?Hflag, ?(insideCS_holds _ _ Hcs), ?(insideCS_next _ _ Hcs);
      simpl; try assumption.
    split; [left; exact Hcs|].
    intros Hsp. destruct (stopperIsClosed w); [|reflexivity].
    rewrite (Hnospawn eq_refl) in Hsp. discriminate.
  - (* the end of an iteration *)
    unfold stepSupervisor. rewrite Hsup.
    destruct st; try discriminate.
    intros H; inversion H; subst w'; clear H.
    unfold closerOK, closerHolds, supervisorHolds, supervisorOK, pendingGo in *.
    rewrite Hsup in *. simpl in *.
    constructor; unfold closerOK, closerHolds, supervisorHolds, supervisorOK, pendingGo;
      simpl; try assumption; try exact I.
  - (* an effect inside the iteration *)
    rewrite (stepSupervisor_event _ _ _ _ _ _ _ Hsup). cbv zeta.
    unfold closerOK, closerHolds, supervisorHolds, supervisorOK, pendingGo in *.
    rewrite Hsup in *. destruct Hs as [Hshape Hspawn].
    destruct (svQuiet e) eqn:Hq.
    + (* neither lock, unlock, Add nor go *)
      destruct (supervisor_quiet_step e rest Hq Hshape) as (Hn & Hn' & Hf & Hsp & Hshape').
      rewrite Hn, Hf, Hsp in *. rewrite Hn' in Hshape'.
      assert (Some (withSupervisor (SupInIteration st rest) w) = Some w' ->
              consistent w') as Hsame.
      { intros H. inversion H; subst w'; clear H.
        constructor; unfold closerOK, closerHolds, supervisorHolds, supervisorOK, pendingGo;
          simpl; rewrite ?Hn'; try assumption.
        split; assumption. }
      destruct e; try discriminate; simpl; try exact Hsame.
      destruct (wgCounter w =? 0); [exact Hsame | discriminate].
    + destruct e; try discriminate; simpl in Hshape.
      * (* a second lock *)
        destruct Hshape; discriminate.
      * (* cg.mu.Unlock() *)
        destruct Hshape as [Hrest|?]; [|discriminate].
        intros H; inversion H; subst w'; clear H. simpl in *.
        constructor; unfold closerOK, closerHolds, supervisorHolds, supervisorOK, pendingGo;
          simpl; rewrite ?Hrest, ?(svQuiet_next _ Hrest); simpl; try assumption.
        { rewrite andb_true_r in Hex. rewrite Hex. reflexivity. }
        { apply andb_false_r. }
        { split; [right; reflexivity|]. intros Hsp.
          rewrite (svQuiet_no_spawns _ Hrest) in Hsp. discriminate. }
      * (* cg.wg.Add(1) *)
        destruct Hshape as [Hrest|?]; [|discriminate].
        intros H; inversion H; subst w'; clear H. simpl in *.
        constructor; unfold closerOK, closerHolds, supervisorHolds, supervisorOK, pendingGo;
          simpl; rewrite ?(insideCS_holds _ _ Hrest), ?(insideCS_next _ _ Hrest);
          simpl; try assumption.
        { specialize (Hspawn eq_refl).
          destruct (closer w) as [todo|]; [|exact Hc].
          destruct Hc as (H1 & H2 & H3 & H4 & H5 & H6 & H7).
          repeat split; try assumption; try (apply H6; assumption).
          intros Hjoin. rewrite Hspawn in H3.
          destruct (closerStage todo) as [|[|n]]; try discriminate; lia. }
        { split; [left; exact Hrest|]. intros _. apply Hspawn. reflexivity. }
        { lia. }
      * (* go cg.topicConsumer(...) *)
        destruct Hshape as [Hrest|?]; [|discriminate].
        destruct (topicConsumer_started tenv (handle w) topic) as [Hrun Hok].
        destruct (topicConsumer tenv (handle w) topic) as [st' todo'].
        intros H; inversion H; subst w'; clear H. simpl in *.
        constructor; unfold closerOK, closerHolds, supervisorHolds, supervisorOK, pendingGo;
          simpl; rewrite ?(insideCS_holds _ _ Hrest), ?(insideCS_next _ _ Hrest);
          simpl; try assumption.
        { split; [left; exact Hrest|]. intros _. apply Hspawn. reflexivity. }
        { rewrite filter_length_app. simpl. rewrite Hrun. simpl. lia. }
        { apply Forall_app. split; [assumption|]. constructor; [exact Hok | constructor]. }
Qed.

Lemma filter_length_lookup {A} (f : A -> bool) (l : list A) (i : nat) (x : A) :
  l !! i = Some x -> f x = true -> (1 <= length (List.filter f l))%nat.
Proof.
  intros Hi Hx. pose proof (filter_length_insert f l i x x Hi) as H.
  revert i Hi H. induction l as [|a l IH]; intros i Hi H; [discriminate|].
  destruct i as [|i]; simpl in *.
  - inversion Hi; subst a. rewrite Hx. simpl. lia.
  - destruct (f a); simpl; [lia|]. apply (IH i Hi).
    apply (filter_length_insert f l i x x Hi).
Qed.

(** Replacing a running topic worker by a running one, in order, keeps the
    world consistent. *)
Lemma replace_running_worker w i tw tw' :
  consistent w ->
  topicWorkers w !! i = Some tw ->
  runningTopic tw = true ->
  runningTopic tw' = true ->
  topicOK tw' ->
  consistent (withTopicWorkers (<[i := tw']> (topicWorkers w)) w).
Proof.
  intros [Hmu Hex Hc Hs Hwg Htw] Hi Hrun Hrun' Hok.
  constructor; unfold closerOK, closerHolds, supervisorHolds, supervisorOK, pendingGo in *;
    simpl; try assumption.
  - pose proof (filter_length_insert runningTopic _ i tw tw' Hi) as H.
    rewrite Hrun, Hrun' in H. lia.
  - apply Forall_insert; assumption.
Qed.

Lemma stepTopic_silent i penv w tw e rest :
  topicWorkers w !! i = Some tw ->
  twTodo tw = e :: rest ->
  silent e = true ->
  stepTopic i penv w
  = Some (withTopicWorkers
            (<[i := {| twStatus := twStatus tw; twTodo := rest; twWg := twWg tw;
                       twPartitions := twPartitions tw |}]> (topicWorkers w)) w).
Proof.
  intros Hi Htodo He. unfold stepTopic. rewrite Hi, Htodo.
  destruct e; try discriminate; reflexivity.
Qed.

Lemma returned_todo st e rest : returned st (e :: rest) = false.
Proof. unfold returned. apply andb_false_r. Qed.

Lemma spawnShape_silent pending e rest :
  silent e = true ->
  spawnShape pending (e :: rest) = true ->
  nextIsGoPartition (e :: rest) = false /\ spawnShape false rest = true.
Proof.
  intros He H. destruct e, pending; simpl in *; try discriminate; split;
    try reflexivity; exact H.
Qed.

Lemma stepTopic_consistent i penv w w' :
  consistent w -> stepTopic i penv w = Some w' -> consistent w'.
Proof.
  intros Hw.
  destruct (topicWorkers w !! i) as [tw|] eqn:Hi;
    [|unfold stepTopic; rewrite Hi; discriminate].
  destruct (twTodo tw) as [|e rest] eqn:Htodo;
    [unfold stepTopic; rewrite Hi, Htodo; discriminate|].
  assert (runningTopic tw = true) as Hrun
    by (unfold runningTopic; rewrite Htodo, returned_todo; reflexivity).
  pose proof (Forall_lookup_1 _ _ _ _ (workersConsistent w Hw) Hi) as Hok.
  destruct Hok as [[Hret _]|[[Hout Hparts]|(Hst & Hshape & Hlocal & Hparts)]].
  - congruence.
  - (* on the way out *)
    rewrite Htodo in Hout. simpl in Hout.
    destruct (bool_decide (e = EvWgDone)) eqn:Hdone.
    + (* cg.wg.Done() *)
      apply bool_decide_eq_true in Hdone. subst e.
      apply andb_true_iff in Hout. destruct Hout as [Hexits Hrest].
      destruct rest; [|discriminate].
      unfold stepTopic. rewrite Hi, Htodo. simpl.
      intros H; inversion H; subst w'; clear H.
      destruct Hw as [Hmu Hex Hc Hs Hwg Htw].
      pose proof (filter_length_lookup runningTopic _ i tw Hi Hrun) as Hone.
      assert (runningTopic {| twStatus := twStatus tw; twTodo := []; twWg := twWg tw;
                              twPartitions := twPartitions tw |} = false) as Hgone.
      { unfold runningTopic, returned. simpl. rewrite Hexits. reflexivity. }
      pose proof (filter_length_insert runningTopic _ i tw
                    {| twStatus := twStatus tw; twTodo := []; twWg := twWg tw;
                       twPartitions := twPartitions tw |} Hi) as Hcount.
      rewrite Hrun, Hgone in Hcount.
      constructor; unfold closerOK, closerHolds, supervisorHolds, supervisorOK, pendingGo in *;
        simpl; try assumption.
      * destruct (closer w) as [todo|]; [|exact Hc].
        destruct Hc as (H1 & H2 & H3 & H4 & H5 & H6 & H7).
        repeat split; try assumption; try (apply H6; assumption).
        intros Hjoin. specialize (H7 Hjoin).
        destruct (supervisor w) as [| |st todo'];
          try destruct (nextIsGoTopic todo'); lia.
      * lia.
      * apply Forall_insert; [assumption|]. left. split; [exact Hgone | exact Hparts].
    + (* a silent effect *)
      apply andb_true_iff in Hout. destruct Hout as [He Hout].
      rewrite (stepTopic_silent i penv w tw e rest Hi Htodo He).
      intros H; inversion H; subst w'; clear H.
      apply (replace_running_worker w i tw); try assumption.
      * unfold runningTopic. simpl. rewrite (runsOut_running _ _ _ Hout). reflexivity.
      * right. left. split; assumption.
  - (* starting the partition workers *)
    rewrite Htodo in Hshape, Hlocal.
    destruct (silent e) eqn:He.
    + rewrite (stepTopic_silent i penv w tw e rest Hi Htodo He).
      intros H; inversion H; subst w'; clear H.
      destruct (spawnShape_silent _ _ _ He Hshape) as [Hnext Hrest].
      rewrite Hnext in Hlocal.
      apply (replace_running_worker w i tw); try assumption.
      * unfold runningTopic. simpl. destruct rest; [discriminate|].
        rewrite returned_todo. reflexivity.
      * right. right. simpl. rewrite (spawnShape_next _ _ Hrest).
        repeat split; assumption.
    + unfold stepTopic. rewrite Hi, Htodo.
      destruct e; try discriminate; simpl in Hshape, Hlocal; try discriminate.
      * (* wg.Add(1) *)
        intros H; inversion H; subst w'; clear H.
        apply (replace_running_worker w i tw); try assumption.
        -- unfold runningTopic. simpl. destruct rest; [discriminate|].
           rewrite returned_todo. reflexivity.
        -- right. right. simpl. rewrite (spawnShape_next _ _ Hshape).
           repeat split; try assumption. lia.
      * (* go cg.partitionConsumer(...) *)
        pose proof (partitionConsumer_runsOut penv (handle w) topic part) as Hp.
        destruct (partitionConsumer penv (handle w) topic part) as [pst ptodo].
        simpl in Hp.
        intros H; inversion H; subst w'; clear H.
        apply (replace_running_worker w i tw); try assumption.
        -- unfold runningTopic. simpl. destruct rest; [discriminate|].
           rewrite returned_todo. reflexivity.
        -- right. right. simpl. rewrite (spawnShape_next _ _ Hshape).
           repeat split; try assumption.
           ++ rewrite filter_length_app. simpl. unfold runningPartition at 2. simpl.
              rewrite (runsOut_running _ _ _ Hp). simpl. lia.
           ++ apply Forall_app. split; [assumption|].
              constructor; [right; exact Hp | constructor].
      * (* wg.Wait() *)
        destruct (Z.eqb_spec (twWg tw) 0) as [Hz|Hz]; [|discriminate].
        intros H; inversion H; subst w'; clear H.
        apply (replace_running_worker w i tw); try assumption.
        -- unfold runningTopic. simpl. destruct rest; [discriminate|].
           rewrite returned_todo. reflexivity.
        -- right. left. simpl. rewrite Hst.
           rewrite bool_decide_eq_true_2 by reflexivity.
           split; [exact Hshape|]. apply filter_length_zero. lia.
Qed.

Lemma stepPartition_silent i j w tw pw e rest :
  topicWorkers w !! i = Some tw ->
  twPartitions tw !! j = Some pw ->
  pwTodo pw = e :: rest ->
  silent e = true ->
  stepPartition i j w
  = Some (withTopicWorkers
            (<[i := {| twStatus := twStatus tw; twTodo := twTodo tw; twWg := twWg tw;
                       twPartitions :=
                         <[j := {| pwStatus := pwStatus pw; pwTodo := rest |}]>
                           (twPartitions tw) |}]> (topicWorkers w)) w).
Proof.
  intros Hi Hj Htodo He. unfold stepPartition. rewrite Hi, Hj, Htodo.
  destruct e; try discriminate; reflexivity.
Qed.

Lemma stepPartition_consistent i j w w' :
  consistent w -> stepPartition i j w = Some w' -> consistent w'.
Proof.
  intros Hw.
  destruct (topicWorkers w !! i) as [tw|] eqn:Hi;
    [|unfold stepPartition; rewrite Hi; discriminate].
  destruct (twPartitions tw !! j) as [pw|] eqn:Hj;
    [|unfold stepPartition; rewrite Hi, Hj; discriminate].
  destruct (pwTodo pw) as [|e rest] eqn:Htodo;
    [unfold stepPartition; rewrite Hi, Hj, Htodo; discriminate|].
  assert (runningPartition pw = true) as Hrun
    by (unfold runningPartition; rewrite Htodo, returned_todo; reflexivity).
  pose proof (Forall_lookup_1 _ _ _ _ (workersConsistent w Hw) Hi) as Hok.
  destruct Hok as [[_ Hparts]|[[_ Hparts]|(Hst & Hshape & Hlocal & Hparts)]].
  - pose proof (Forall_lookup_1 _ _ _ _ Hparts Hj) as H. simpl in H. congruence.
  - pose proof (Forall_lookup_1 _ _ _ _ Hparts Hj) as H. simpl in H. congruence.
  - assert (runningTopic tw = true) as Htrun.
    { unfold runningTopic. destruct (twTodo tw); [discriminate|].
      rewrite returned_todo. reflexivity. }
    destruct (Forall_lookup_1 _ _ _ _ Hparts Hj) as [Hout|Hout]; [congruence|].
    rewrite Htodo in Hout. simpl in Hout.
    destruct (bool_decide (e = EvLocalWgDone)) eqn:Hdone.
    + (* wg.Done() *)
      apply bool_decide_eq_true in Hdone. subst e.
      apply andb_true_iff in Hout. destruct Hout as [Hexits Hrest].
      destruct rest; [|discriminate].
      unfold stepPartition. rewrite Hi, Hj, Htodo.
      intros H; inversion H; subst w'; clear H.
      assert (runningPartition {| pwStatus := pwStatus pw; pwTodo := [] |} = false)
        as Hgone.
      { unfold runningPartition, returned. simpl. rewrite Hexits. reflexivity. }
      pose proof (filter_length_insert runningPartition _ j pw
                    {| pwStatus := pwStatus pw; pwTodo := [] |} Hj) as Hcount.
      rewrite Hrun, Hgone in Hcount.
      apply (replace_running_worker w i tw); try assumption.
      right. right. simpl. repeat split; try assumption.
      * lia.
      * apply Forall_insert; [assumption|]. left. exact Hgone.
    + (* a silent effect *)
      apply andb_true_iff in Hout. destruct Hout as [He Hout].
      rewrite (stepPartition_silent i j w tw pw e rest Hi Hj Htodo He).
      intros H; inversion H; subst w'; clear H.
      assert (runningPartition {| pwStatus := pwStatus pw; pwTodo := rest |} = true)
        as Hstill.
      { unfold runningPartition. simpl. rewrite (runsOut_running _ _ _ Hout).
        reflexivity. }
      pose proof (filter_length_insert runningPartition _ j pw
                    {| pwStatus := pwStatus pw; pwTodo := rest |} Hj) as Hcount.
      rewrite Hrun, Hstill in Hcount.
      apply (replace_running_worker w i tw); try assumption.
      right. right. simpl. repeat split; try assumption.
      * lia.
      * apply Forall_insert; [assumption|]. right. exact Hout.
Qed.

(** Every world of a run from a consistent world is consistent. *)
Lemma run_consistent topics choices :
  forall w w', consistent w -> run topics w choices = Some w' -> consistent w'.
Proof.
  induction choices as [|c rest IH]; intros w w' Hw; simpl.
  - intros H; inversion H; subst w'. exact Hw.
  - destruct (schedule topics w c) as [w1|] eqn:Hstep; [|discriminate].
    apply IH. destruct c; simpl in Hstep.
    + exact (callClose_consistent _ _ _ Hw Hstep).
    + exact (stepClose_consistent _ _ Hw Hstep).
    + exact (stepSupervisor_consistent _ _ _ _ _ Hw Hstep).
    + exact (stepTopic_consistent _ _ _ _ Hw Hstep).
    + exact (stepPartition_consistent _ _ _ _ Hw Hstep).
Qed.

(** In a consistent world in which [cg.wg.Wait()] of [Close] has returned,
    every worker has returned; and a downstream channel is closed at most
    once, and only then. *)
Lemma consistent_joined_after_wait w :
  consistent w ->
  (joinPassed w = true -> wgCounter w = 0 /\ allJoined w = true) /\
  (messagesCloses w <= 1)%nat /\ (errorsCloses w <= 1)%nat /\
  ((0 < messagesCloses w)%nat \/ (0 < errorsCloses w)%nat -> joinPassed w = true).
Proof.
  intros [Hmu Hex Hc Hs Hwg Htw]. unfold joinPassed, closerOK in *.
  destruct (closer w) as [todo|].
  - destruct Hc as (H1 & H2 & H3 & H4 & H5 & H6 & H7).
    split; [|split; [lia | split; [lia|]]].
    + intros Hpassed. apply Nat.leb_le in Hpassed. specialize (H7 Hpassed).
      split; [exact H7|].
      assert (length (List.filter runningTopic (topicWorkers w)) = 0%nat) as Hnone.
      { unfold pendingGo in Hwg.
        destruct (supervisor w) as [| |st todo'];
          try destruct (nextIsGoTopic todo'); lia. }
      apply filter_length_zero in Hnone.
      unfold allJoined. apply forallb_forall. intros tw Hin.
      apply andb_true_iff.
      pose proof (proj1 (List.Forall_forall _ _) Hnone tw Hin) as Hret. simpl in Hret.
      pose proof (proj1 (List.Forall_forall _ _) Htw tw Hin) as Hok.
      split; [rewrite Hret; reflexivity|].
      assert (Forall (fun pw => runningPartition pw = false) (twPartitions tw)) as Hp.
      { destruct Hok as [[_ Hp]|[[_ Hp]|(Hst & Hshape & _)]]; try exact Hp.
        exfalso. unfold runningTopic, returned in Hret.
        destruct (twTodo tw); [discriminate|].
        rewrite andb_false_r in Hret. discriminate. }
      apply forallb_forall. intros pw Hpw.
      rewrite (proj1 (List.Forall_forall _ _) Hp pw Hpw). reflexivity.
    + intros Hclosed. apply Nat.leb_le.
      destruct (Nat.lt_ge_cases (closerStage todo) 4) as [Hlt|Hge]; [|exact Hge].
      destruct (H6 Hlt) as [Hm0 He0]. lia.
  - destruct Hc as (_ & Hm & He). rewrite Hm, He.
    split; [discriminate|]. split; [lia|]. split; [lia|]. intros [H|H]; lia.
Qed.

(** C3.  The first [Close] closes the stopper between locking and unlocking
    the mutex, joins the top-level wait group, closes the offset manager,
    deregisters the instance, closes the broker consumer, closes [messages]
    and then [errors], sets the instance handle to nil and closes the
    metadata-store client last, in this order.  Over any number of calls each
    of the two channels is closed exactly once, and neither worker closes
    them.  In every interleaving of [Close] with the top-level loop and the
    workers it starts, the counter of [cg.wg] is the number of topic workers
    that have not returned (plus one between an [Add] and its go
    statement); once the [cg.wg.Wait()] of [Close] has returned the counter
    is zero and every topic worker and every partition worker ever started
    has returned; and a channel is closed at most once and only after that
    wait. *)
Theorem Close_shutdown_order env cg :
  singleShutdown cg = false ->
  List.filter (fun e => negb (isLogf e)) (snd (Close env cg))
  = [EvMuLock; EvCloseStopper; EvMuUnlock; EvWgWait; EvOffsetManagerClose;
     EvDeregister; EvConsumerClose; EvCloseMessages; EvCloseErrors;
     EvSetInstanceNil; EvKazooClose] /\
  Closed (fst (fst (Close env cg))) = true /\
  (forall envs,
     let effects := concat (map snd (snd (closeCalls (env :: envs) cg))) in
     countEvent EvCloseMessages effects = 1%nat /\
     countEvent EvCloseErrors effects = 1%nat) /\
  (forall penv topic part,
     Forall (fun e => closesDownstream e = false)
       (snd (partitionConsumer penv cg topic part))) /\
  (forall tenv topic,
     Forall (fun e => closesDownstream e = false) (snd (topicConsumer tenv cg topic))) /\
  (forall topics choices w,
     run topics (joined cg) choices = Some w ->
     wgCounter w
     = Z.of_nat (length (List.filter runningTopic (topicWorkers w))) + pendingGo w /\
     (joinPassed w = true -> wgCounter w = 0 /\ allJoined w = true) /\
     (messagesCloses w <= 1)%nat /\ (errorsCloses w <= 1)%nat /\
     ((0 < messagesCloses w)%nat \/ (0 < errorsCloses w)%nat -> joinPassed w = true)).
Proof.
  intros H. split; [apply Close_first_effects; exact H|].
  split; [unfold Close; rewrite H; reflexivity|].
  split; [|split; [intros; apply partitionConsumer_no_close
                  |split; [intros; apply topicConsumer_no_close|]]].
  - intros envs. cbv zeta. rewrite closeCalls_first. simpl.
    rewrite concat_quiet_calls, app_nil_r.
    unfold Close. rewrite H. unfold shutdown. simpl.
    destruct (offsetManagerClose env), (instanceDeregister env), (consumerClose env);
      split; reflexivity.
  - intros topics choices w Hrun.
    pose proof (run_consistent topics choices _ _ (consistent_joined cg) Hrun) as Hw.
    split; [exact (waitGroupCounts w Hw)|].
    exact (consistent_joined_after_wait w Hw).
Qed.

(** The sample run ends with both channels closed once and every worker
    returned. *)
Lemma Close_shutdown_order_witness :
  exists w,
    run ["topic"%string] (joined (sampleGroup OffsetOldest 0)) sampleSchedule = Some w /\
    length (topicWorkers w) = 1%nat /\
    messagesCloses w = 1%nat /\ errorsCloses w = 1%nat /\
    wgCounter w = 0 /\ allJoined w = true.
Proof.
  eexists. split; [vm_compute; reflexivity|].
  split; [reflexivity|]. split; [reflexivity|]. split; [reflexivity|].
  destruct (Close_shutdown_order sampleCloseEnv (sampleGroup OffsetOldest 0) eq_refl)
    as (_ & _ & _ & _ & _ & Hruns).
  refine (proj1 (proj2 (Hruns ["topic"%string] sampleSchedule _ _)) _).
  - vm_compute. reflexivity.
  - reflexivity.
Defined.

(** While the topic worker runs, [Close] stays in [cg.wg.Wait()]: the step
    that would take it past the wait cannot be taken. *)
Example close_waits_for_workers :
  let before :=
    repeat (StepSupervisor sampleGeneration sampleTopicEnv) 8
      ++ [CallClose sampleCloseEnv; StepClose; StepClose; StepClose] in
  (exists w,
     run ["topic"%string] (joined (sampleGroup OffsetOldest 0)) before = Some w /\
     wgCounter w = 1 /\ stopperIsClosed w = true /\ joinPassed w = false) /\
  run ["topic"%string] (joined (sampleGroup OffsetOldest 0)) (before ++ [StepClose]) = None.
Proof.
  cbv zeta. split; [eexists; split; [vm_compute; reflexivity|]|];
    repeat split; vm_compute; reflexivity.
Qed.

(** A loop that takes the mutex after [Close] has closed the stopper starts
    no worker: it unlocks and returns. *)
Example late_loop_starts_nothing :
  exists w,
    run ["topic"%string] (joined (sampleGroup OffsetOldest 0))
      ([CallClose sampleCloseEnv; StepClose; StepClose; StepClose]
         ++ repeat (StepSupervisor sampleGeneration sampleTopicEnv) 3
         ++ repeat StepClose 9) = Some w /\
    supervisor w = SupInIteration SupReturned [] /\
    topicWorkers w = [] /\ messagesCloses w = 1%nat.
Proof. eexists. split; [vm_compute; reflexivity|]. repeat split; reflexivity. Qed.

(** C4.  Of [n > 1] successive calls of [Close] only the first performs the
    destructive steps, each of them once; every later call has no effect,
    returns [AlreadyClosing] and leaves the handle as the first call left
    it. *)
Theorem Close_idempotent env envs cg :
  singleShutdown cg = false ->
  (1 <= length envs)%nat ->
  let first := Close env cg in
  closeCalls (env :: envs) cg
  = (fst (fst first),
     (snd (fst first), snd first) :: repeat (Some AlreadyClosing, []) (length envs)) /\
  List.filter destructive (snd first)
  = [EvCloseStopper; EvOffsetManagerClose; EvDeregister; EvConsumerClose;
     EvCloseMessages; EvCloseErrors; EvSetInstanceNil; EvKazooClose] /\
  concat (map snd (snd (closeCalls (env :: envs) cg))) = snd first /\
  (forall env', Close env' (fst (fst first)) = (fst (fst first), Some AlreadyClosing, [])).
Proof.
  intros H _. cbv zeta. split; [apply closeCalls_first|]. split; [|split].
  - unfold Close. rewrite H. unfold shutdown. simpl.
    destruct (offsetManagerClose env), (instanceDeregister env), (consumerClose env);
      reflexivity.
  - rewrite closeCalls_first. simpl. rewrite concat_quiet_calls, app_nil_r. reflexivity.
  - intros env'. apply Close_again, Close_marks.
Qed.

(** Three calls in a row. *)
Lemma Close_idempotent_witness :
  snd (closeCalls [sampleCloseEnv; sampleCloseEnv; sampleCloseEnv]
         (sampleGroup OffsetOldest (60 * Second)))
  = [(None, snd (Close sampleCloseEnv (sampleGroup OffsetOldest (60 * Second))));
     (Some AlreadyClosing, []); (Some AlreadyClosing, [])].
Proof.
  refine (f_equal snd (proj1 (Close_idempotent sampleCloseEnv
            [sampleCloseEnv; sampleCloseEnv]
            (sampleGroup OffsetOldest (60 * Second)) _ _))).
  - reflexivity.
  - simpl. lia.
Defined.

(** ** Sends on the downstream channels *)

(** C5 does not hold of the error reports.  With [cg.errors] full and the
    generation already cancelled, the sends after a failed partition listing,
    a failed leader lookup, an exhausted claim and a failed release are plain
    sends and the worker stays in them; the forwards of the main loop select
    against the cancellation and leave. *)
Theorem error_sends_block_after_cancel :
  (forall cg topic partitions leaderOf err,
     topicConsumer {| doneAtStart := false;
                      topicPartitions := (partitions, Some err);
                      partitionLeaderOf := leaderOf;
                      topicErrorsState := wedgedState |} cg topic
     = (BlockedOnErrors,
        [EvLogf (LogTopicStarted topic); EvTopicPartitions topic;
         EvLogf (LogPartitionsFailed topic err)])) /\
  (forall cg topic p err,
     topicConsumer {| doneAtStart := false;
                      topicPartitions := ([p], None);
                      partitionLeaderOf := fun _ => (0, Some err);
                      topicErrorsState := wedgedState |} cg topic
     = (BlockedOnErrors,
        [EvLogf (LogTopicStarted topic); EvTopicPartitions topic;
         EvRetrievePartitionLeaders; EvLogf (LogLeadersFailed topic err)])) /\
  partitionConsumer (contendedEnv wedgedState) (sampleGroup OffsetOldest 0) "topic" 0
  = (BlockedOnErrors,
     [EvTimeAfter (1 * Second); EvClaimPartition "topic" 0;
      EvTimeAfter (1 * Second); EvClaimPartition "topic" 0;
      EvLogf (LogClaimFailed "topic" 0 ErrPartitionClaimedByOther)]) /\
  partitionConsumer
    (claimedEnv 7 (fun _ _ => None) [InputDone] (Some (ExternalError 1)) wedgedState)
    (sampleGroup OffsetOldest 0) "topic" 0
  = (BlockedOnErrors,
     [EvTimeAfter (1 * Second); EvClaimPartition "topic" 0;
      EvInitializePartition "topic" 0; EvLogf (LogStartingAt "topic" 0 7);
      EvConsumePartition "topic" 0 7; EvLogf (LogStopping "topic" 0 (-1));
      EvFinalizePartition "topic" 0 (-1) 0; EvPartitionConsumerClose 0;
      EvReleasePartition "topic" 0;
      EvLogf (LogReleaseFailed "topic" 0 (ExternalError 1))]) /\
  (forall cg broker topic part err msg rest calls lastOffset,
     partitionConsumerLoop cg broker topic part
       (InputError (Some err) wedgedState :: rest) calls lastOffset
     = (LoopBreak lastOffset, []) /\
     partitionConsumerLoop cg broker topic part
       (InputMessage (Some msg) wedgedState :: rest) calls lastOffset
     = (LoopBreak lastOffset, [])).
Proof.
  split; [intros; reflexivity|].
  split; [intros; reflexivity|].
  split; [vm_compute; reflexivity|].
  split; [vm_compute; reflexivity|].
  intros. split; reflexivity.
Qed.

(** ** Joining *)

Section Joining.

Variable sarama_NewConfig : SaramaConfig.
Variable kazoo_NewConfig : KazooConfig.
Variable sarama_Validate : SaramaConfig -> option error.

(** The checks that precede the constructor switch, for every list of
    constructors: either one of them settles the call, with no effect, by an
    error or by the panic of a nil embedded pointer, or all of them pass and
    the call goes on to the switch with the effective configuration. *)
Lemma Join_checks name topics zookeeper config :
  let given := match config with
               | None => NewConfig sarama_NewConfig kazoo_NewConfig
               | Some c => c
               end in
  (exists r,
     (forall env cgConstructor,
        JoinConsumerGroup sarama_NewConfig kazoo_NewConfig sarama_Validate
          env name topics zookeeper config cgConstructor = (r, [])) /\
     ((exists err, r = Return (None, Some err)) \/ r = Panic) /\
     (r = Panic <->
      name <> ""%string /\ topics <> [] /\ zookeeper <> [] /\
      (saramaConfig given = None \/ Zookeeper given = None)) /\
     ~ (name <> ""%string /\ topics <> [] /\ zookeeper <> [] /\
        exists effective,
          setClientID given name = Return effective /\
          Validate sarama_Validate effective = Return None)) \/
  (name <> ""%string /\ topics <> [] /\ zookeeper <> [] /\
   saramaConfig given <> None /\ Zookeeper given <> None /\
   exists effective,
     setClientID given name = Return effective /\
     Validate sarama_Validate effective = Return None /\
     forall env first second others,
       JoinConsumerGroup sarama_NewConfig kazoo_NewConfig sarama_Validate
         env name topics zookeeper config (first :: second :: others)
       = (Return (None, Some (ErrorsNew "more than one cgConstructor is not supported")),
          [])).
Proof.
  cbv zeta. unfold JoinConsumerGroup.
  set (given := match config with
                | None => NewConfig sarama_NewConfig kazoo_NewConfig
                | Some c => c
                end).
  destruct (decide (name = ""%string)) as [Hname|Hname].
  { left. eexists. split; [intros; reflexivity|].
    split; [left; eexists; reflexivity|].
    split; [split; [discriminate | intros (H & _); contradiction]|].
    intros (H & _). contradiction. }
  destruct topics as [|t topics].
  { left. eexists. split; [intros; reflexivity|].
    split; [left; eexists; reflexivity|].
    split; [split; [discriminate | intros (_ & H & _); contradiction]|].
    intros (_ & H & _). contradiction. }
  destruct zookeeper as [|z zookeeper].
  { left. eexists. split; [intros; reflexivity|].
    split; [left; eexists; reflexivity|].
    split; [split; [discriminate | intros (_ & _ & H & _); contradiction]|].
    intros (_ & _ & H & _). contradiction. }
  simpl. unfold setClientID.
  destruct (saramaConfig given) as [sc|] eqn:Hsc.
  2:{ left. eexists. split; [intros; reflexivity|].
      split; [right; reflexivity|].
      split; [split; [intros _; repeat split; try discriminate; try assumption;
                      left; reflexivity
                     | reflexivity]|].
      intros (_ & _ & _ & effective & H & _). discriminate. }
  set (effective := {| saramaConfig := _; Zookeeper := Zookeeper given;
                       Offsets := Offsets given |}).
  destruct (Validate sarama_Validate effective) as [[err|]|] eqn:Hval.
  - left. eexists. split; [intros; reflexivity|].
    split; [left; eexists; reflexivity|].
    split; [split; [discriminate | intros (_ & _ & _ & [H|H])]|].
    + discriminate.
    + revert Hval. unfold Validate. simpl. rewrite H. discriminate.
    + intros (_ & _ & _ & effective' & H & H'). inversion H; subst effective'.
      rewrite Hval in H'. discriminate.
  - right. repeat split; try discriminate; try assumption.
    + revert Hval. unfold Validate. simpl. destruct (Zookeeper given); discriminate.
    + exists effective. repeat split; intros; try exact Hval; reflexivity.
  - left. eexists. split; [intros; reflexivity|].
    split; [right; reflexivity|].
    split.
    + split; [intros _; repeat split; try discriminate; try assumption; right
             | reflexivity].
      revert Hval. unfold Validate. simpl.
      destruct (Zookeeper given) as [kz|]; [|reflexivity].
      destruct (Timeout kz <=? 0); [discriminate|].
      destruct (CommitInterval (Offsets given) <? 0); [discriminate|].
      destruct (_ && _); [discriminate|].
      destruct (sarama_Validate _); discriminate.
    + intros (_ & _ & _ & effective' & H & H'). inversion H; subst effective'.
      rewrite Hval in H'. discriminate.
Qed.

(** C6.  Whenever the group name is empty, no topic or
    no endpoint is given, or the supplied configuration has a negative commit
    interval, a session timeout that is not positive, or an initial offset
    that is neither oldest nor newest, [JoinConsumerGroup] has no effect at
    all, whatever the store, the broker and the constructors are: it returns
    a nil handle and an error, or it panics, and it panics exactly when the
    three arguments are non-empty and the embedded [*sarama.Config] or the
    [Zookeeper] pointer of the configuration is nil. *)
Theorem JoinConsumerGroup_rejects_before_io name topics zookeeper config :
  (name = ""%string \/ topics = [] \/ zookeeper = [] \/
   exists c,
     config = Some c /\
     (CommitInterval (Offsets c) < 0 \/
      (exists kz, Zookeeper c = Some kz /\ Timeout kz <= 0) \/
      (Initial (Offsets c) <> OffsetOldest /\ Initial (Offsets c) <> OffsetNewest))) ->
  exists r,
    (forall env cgConstructor,
       JoinConsumerGroup sarama_NewConfig kazoo_NewConfig sarama_Validate
         env name topics zookeeper config cgConstructor = (r, [])) /\
    ((exists err, r = Return (None, Some err)) \/ r = Panic) /\
    (r = Panic <->
     name <> ""%string /\ topics <> [] /\ zookeeper <> [] /\
     exists c, config = Some c /\ (saramaConfig c = None \/ Zookeeper c = None)).
Proof.
  intros Hbad.
  destruct (Join_checks name topics zookeeper config)
    as [(r & Hrun & Hshape & Hpanic & _)
       |(Hname & Htopics & Hzk & Hsc & Hkz & effective & Hset & Hval & _)].
  - exists r. split; [exact Hrun|]. split; [exact Hshape|].
    rewrite Hpanic. clear Hrun Hshape Hpanic.
    split; intros (Hn & Ht & Hz & H); repeat split; try assumption.
    + destruct config as [c|]; [exists c; split; [reflexivity | exact H]|].
      simpl in H. destruct H; discriminate.
    + destruct H as (c & -> & H). exact H.
  - exfalso. destruct Hbad as [H|[H|[H|(c & -> & Hbad)]]]; try contradiction.
    unfold setClientID in Hset. destruct (saramaConfig c) as [sc|]; [|contradiction].
    inversion Hset; subst effective. clear Hset Hsc.
    revert Hval. unfold Validate. simpl.
    destruct (Zookeeper c) as [kz|]; [|contradiction].
    destruct (Z.leb_spec (Timeout kz) 0) as [Ht|Ht]; [discriminate|].
    destruct (Z.ltb_spec (CommitInterval (Offsets c)) 0) as [Hc|Hc]; [discriminate|].
    destruct (Z.eqb_spec (Initial (Offsets c)) OffsetOldest) as [Ho|Ho];
      destruct (Z.eqb_spec (Initial (Offsets c)) OffsetNewest) as [Hn|Hn];
      simpl; try discriminate;
      destruct Hbad as [?|[(kz' & Hkz' & ?)|[? ?]]];
      try lia; try contradiction; inversion Hkz'; subst; lia.
Qed.

(** C10.  Called with more than one constructor,
    [JoinConsumerGroup] invokes none of them and starts no goroutine, and it
    returns a nil handle and an error or panics.  The error is
    "more than one cgConstructor is not supported" when the other arguments
    pass the checks that precede the switch; when they do not, the outcome
    is that of the failing check, the same as for any other list of
    constructors; the call panics exactly when the three arguments are
    non-empty and an embedded pointer of the configuration is nil. *)
Theorem JoinConsumerGroup_many_constructors name topics zookeeper config :
  exists r,
    (forall env (first second : cgConstructorT) (others : list cgConstructorT),
       JoinConsumerGroup sarama_NewConfig kazoo_NewConfig sarama_Validate
         env name topics zookeeper config (first :: second :: others) = (r, [])) /\
    ((exists err, r = Return (None, Some err)) \/ r = Panic) /\
    ((name <> ""%string /\ topics <> [] /\ zookeeper <> [] /\
      exists effective,
        setClientID (match config with
                     | None => NewConfig sarama_NewConfig kazoo_NewConfig
                     | Some c => c
                     end) name = Return effective /\
        Validate sarama_Validate effective = Return None) ->
     r = Return (None, Some (ErrorsNew "more than one cgConstructor is not supported"))) /\
    (~ (name <> ""%string /\ topics <> [] /\ zookeeper <> [] /\
        exists effective,
          setClientID (match config with
                       | None => NewConfig sarama_NewConfig kazoo_NewConfig
                       | Some c => c
                       end) name = Return effective /\
          Validate sarama_Validate effective = Return None) ->
     forall env cgConstructor,
       JoinConsumerGroup sarama_NewConfig kazoo_NewConfig sarama_Validate
         env name topics zookeeper config cgConstructor = (r, [])) /\
    (r = Panic <->
     name <> ""%string /\ topics <> [] /\ zookeeper <> [] /\
     exists c, config = Some c /\ (saramaConfig c = None \/ Zookeeper c = None)).
Proof.
  destruct (Join_checks name topics zookeeper config)
    as [(r & Hrun & Hshape & Hpanic & Hfail)
       |(Hname & Htopics & Hzk & Hsc & Hkz & effective & Hset & Hval & Hmany)].
  - exists r. split; [intros; apply Hrun|]. split; [exact Hshape|].
    split; [intros Hpass; contradiction|]. split; [intros _; exact Hrun|].
    rewrite Hpanic. clear.
    split; intros (Hn & Ht & Hz & H); repeat split; try assumption.
    + destruct config as [c|]; [exists c; split; [reflexivity | exact H]|].
      simpl in H. destruct H; discriminate.
    + destruct H as (c & -> & H). exact H.
  - eexists. split; [exact Hmany|]. split; [left; eexists; reflexivity|].
    split; [reflexivity|]. split.
    + intros Hfail. exfalso. apply Hfail. repeat split; try assumption.
      exists effective. split; assumption.
    + split; [discriminate|].
      intros (_ & _ & _ & c & -> & [H|H]); contradiction.
Qed.

End Joining.

(** C6 as stated fails: a configuration with a negative commit interval and
    a nil embedded [*sarama.Config] makes the call panic at
    [config.ClientID = name], and one with a nil [Zookeeper] pointer makes it
    panic in [Validate]; neither returns an error. *)
Lemma JoinConsumerGroup_nil_pointer_panics :
  ~ (forall name topics zookeeper (c : Config),
       (name = ""%string \/ topics = [] \/ zookeeper = [] \/
        CommitInterval (Offsets c) < 0 \/
        (exists kz, Zookeeper c = Some kz /\ Timeout kz <= 0) \/
        (Initial (Offsets c) <> OffsetOldest /\ Initial (Offsets c) <> OffsetNewest)) ->
       exists err,
         forall env cgConstructor,
           JoinConsumerGroup sampleSaramaConfig sampleKazooConfig (fun _ => None)
             env name topics zookeeper (Some c) cgConstructor
           = (Return (None, Some err), [])).
Proof.
  intros H.
  destruct (H "group"%string ["topic"%string] ["localhost:2181"%string]
              {| saramaConfig := None;
                 Zookeeper := Some sampleKazooConfig;
                 Offsets := {| Initial := OffsetOldest;
                               ProcessingTimeout := 60 * Second;
                               CommitInterval := -1;
                               ResetOffsets := false |} |}) as [err Herr].
  { right. right. right. left. simpl. lia. }
  specialize (Herr sampleConstructEnv []). discriminate Herr.
Qed.

(** C10 as stated fails: with an empty group name the error of a call with
    two constructors is the one of the name check. *)
Lemma JoinConsumerGroup_many_constructors_other_error :
  ~ (forall env name topics zookeeper config
            (first second : cgConstructorT) (others : list cgConstructorT),
       JoinConsumerGroup sampleSaramaConfig sampleKazooConfig (fun _ => None)
         env name topics zookeeper config (first :: second :: others)
       = (Return (None, Some (ErrorsNew "more than one cgConstructor is not supported")),
          [])).
Proof.
  intros H.
  specialize (H sampleConstructEnv ""%string ["topic"%string] ["localhost:2181"%string]
                None (DefaultConsumerGroup sampleConstructEnv)
                (DefaultConsumerGroup sampleConstructEnv) []).
  discriminate H.
Qed.

(** An initial offset of 0 is rejected with an error; the same configuration
    without its embedded [*sarama.Config] panics. *)
Lemma JoinConsumerGroup_rejects_before_io_witness :
  exists r,
    (forall env cgConstructor,
       JoinConsumerGroup sampleSaramaConfig sampleKazooConfig (fun _ => None) env
         "group" ["topic"] ["localhost:2181"]
         (Some (sampleConfig 0 (60 * Second) (10 * Second))) cgConstructor
       = (r, [])) /\
    ((exists err, r = Return (None, Some err)) \/ r = Panic) /\
    (r = Panic <->
     "group"%string <> ""%string /\ ["topic"%string] <> [] /\
     ["localhost:2181"%string] <> [] /\
     exists c,
       Some (sampleConfig 0 (60 * Second) (10 * Second)) = Some c /\
       (saramaConfig c = None \/ Zookeeper c = None)).
Proof.
  apply (JoinConsumerGroup_rejects_before_io sampleSaramaConfig sampleKazooConfig
           (fun _ => None)).
  right. right. right.
  exists (sampleConfig 0 (60 * Second) (10 * Second)).
  split; [reflexivity|]. right. right. split; discriminate.
Defined.

(** Two constructors and the default configuration. *)
Lemma JoinConsumerGroup_many_constructors_witness :
  JoinConsumerGroup sampleSaramaConfig sampleKazooConfig (fun _ => None)
    sampleConstructEnv "group" ["topic"] ["localhost:2181"] None
    [DefaultConsumerGroup sampleConstructEnv; DefaultConsumerGroup sampleConstructEnv]
  = (Return (None, Some (ErrorsNew "more than one cgConstructor is not supported")), []).
Proof.
  destruct (JoinConsumerGroup_many_constructors sampleSaramaConfig sampleKazooConfig
              (fun _ => None) "group" ["topic"] ["localhost:2181"] None)
    as (r & Hrun & _ & Hpass & _).
  rewrite Hrun. f_equal. apply Hpass.
  repeat split; try discriminate. eexists. split; reflexivity.
Defined.

(** ** Worked examples *)

(** Scenario 2: two members and partitions 0 to 3. *)
Example divide_two_members :
  let divided :=
    dividePartitionsBetweenConsumers ["host-1:member-a"; "host-2:member-b"]
      samplePartitions in
  map ID (mapIndex divided "host-1:member-a") = [0; 1] /\
  map ID (mapIndex divided "host-2:member-b") = [2; 3] /\
  mapIndex divided "host-3:member-c" = [].
Proof. vm_compute. repeat split; reflexivity. Qed.

(** Three members and four partitions: the first member gets the extra one. *)
Example divide_three_members :
  let divided := dividePartitionsBetweenConsumers ["a"; "b"; "c"] samplePartitions in
  map ID (mapIndex divided "a") = [0; 1] /\
  map ID (mapIndex divided "b") = [2] /\
  map ID (mapIndex divided "c") = [3].
Proof. vm_compute. repeat split; reflexivity. Qed.

(** The default timeout of one minute allows 62 attempts; a negative timeout
    is truncated toward zero. *)
Example maxRetries_default :
  maxRetriesOf (sampleGroup OffsetOldest (60 * Second)) = 62 /\
  maxRetriesOf (sampleGroup OffsetOldest 1999999999) = 3 /\
  maxRetriesOf (sampleGroup OffsetOldest (-1500000000)) = 1.
Proof. vm_compute. repeat split; reflexivity. Qed.

(** A stored offset that has fallen out of range, scenario 3. *)
Example out_of_range_recovery :
  partitionConsumer
    (claimedEnv 100
       (fun n _ => if (n =? 0)%nat then Some ErrOffsetOutOfRange else None)
       [InputMessage (Some {| msgTopic := "topic"; msgPartition := 0;
                              msgOffset := 500; msgValue := "v" |}) readyState;
        InputDone]
       None readyState)
    (sampleGroup OffsetOldest 0) "topic" 0
  = (Exited,
     [EvTimeAfter (1 * Second); EvClaimPartition "topic" 0;
      EvInitializePartition "topic" 0; EvLogf (LogStartingAt "topic" 0 100);
      EvConsumePartition "topic" 0 100; EvLogf (LogOutOfRange "topic" 0);
      EvLogf (LogResetOldest "topic" 0); EvConsumePartition "topic" 0 OffsetOldest;
      EvSendMessages {| msgTopic := "topic"; msgPartition := 0;
                        msgOffset := 500; msgValue := "v" |};
      EvLogf (LogStopping "topic" 0 500);
      EvFinalizePartition "topic" 0 500 0; EvPartitionConsumerClose 1;
      EvReleasePartition "topic" 0; EvLocalWgDone]).
Proof. vm_compute. reflexivity. Qed.

(** Joining with the default constructor starts the top-level loop last. *)
Example join_default :
  JoinConsumerGroup sampleSaramaConfig sampleKazooConfig (fun _ => None)
    sampleConstructEnv "group" ["topic"] ["localhost:2181"] None []
  = (Return
       (Some {| config :=
                  {| saramaConfig :=
                       Some {| ClientID := "group"; ChannelBufferSize := 256;
                               saramaOther := 0 |};
                     Zookeeper := Some sampleKazooConfig;
                     Offsets := {| Initial := OffsetOldest;
                                   ProcessingTimeout := 60 * Second;
                                   CommitInterval := 10 * Second;
                                   ResetOffsets := false |} |};
                groupName := "group"; instance := true;
                instanceID := "host-1:member-a"; singleShutdown := false;
                consumers := [] |}, None),
     [EvNewKazoo ["localhost:2181"]; EvBrokerList; EvGenerateInstanceID;
      EvNewConsumer; EvGroupExists; EvRegister ["topic"];
      EvLogf (LogRegistered "host-1:member-a"); EvNewOffsetManager;
      EvGoTopicListConsumer ["topic"]]).
Proof. vm_compute. reflexivity. Qed.

(** * Further properties *)

(** ** Validation *)

Section ValidateFacts.

Variable sarama_NewConfig : SaramaConfig.
Variable kazoo_NewConfig : KazooConfig.
Variable sarama_Validate : SaramaConfig -> option error.

(** X1.  [Validate] accepts a configuration whose store configuration is set exactly
    when the session timeout is positive, the commit interval is not
    negative, the initial offset is one of the two sentinels and the broker
    client accepts the embedded configuration, if there is one. *)
Theorem Validate_accepts_iff (cgc : Config) (kz : KazooConfig) :
  Zookeeper cgc = Some kz ->
  (Validate sarama_Validate cgc = Return None <->
   0 < Timeout kz /\
   0 <= CommitInterval (Offsets cgc) /\
   (Initial (Offsets cgc) = OffsetOldest \/ Initial (Offsets cgc) = OffsetNewest) /\
   (forall sc, saramaConfig cgc = Some sc -> sarama_Validate sc = None)).
Proof.
  intros Hkz. unfold Validate. rewrite Hkz.
  destruct (Z.leb_spec (Timeout kz) 0) as [Ht|Ht].
  { split; [discriminate | intros (H & _); lia]. }
  destruct (Z.ltb_spec (CommitInterval (Offsets cgc)) 0) as [Hc|Hc].
  { split; [discriminate | intros (_ & H & _); lia]. }
  destruct (Z.eqb_spec (Initial (Offsets cgc)) OffsetOldest) as [Ho|Ho];
    destruct (Z.eqb_spec (Initial (Offsets cgc)) OffsetNewest) as [Hn|Hn]; simpl;
    try (split; [discriminate | intros (_ & _ & [H|H] & _); congruence]);
    (destruct (saramaConfig cgc) as [sc|];
     [ destruct (sarama_Validate sc) eqn:Hs;
       [ split; [discriminate | intros (_ & _ & _ & H); specialize (H sc eq_refl); congruence]
       | split; [intros _; repeat split; auto; intros sc' Hsc; congruence | reflexivity] ]
     | split; [intros _; repeat split; auto; discriminate | reflexivity] ]).
Qed.

(** X2.  [Validate] reports the first check that fails, in the order session
    timeout, commit interval, initial offset, and hands on the verdict of the
    broker client only when all three pass; a nil embedded configuration is
    then accepted. *)
Theorem Validate_first_failure (cgc : Config) (kz : KazooConfig) :
  Zookeeper cgc = Some kz ->
  (Timeout kz <= 0 ->
   Validate sarama_Validate cgc
   = Return (Some (ConfigurationError "ZookeeperTimeout should have a duration > 0"))) /\
  (0 < Timeout kz -> CommitInterval (Offsets cgc) < 0 ->
   Validate sarama_Validate cgc
   = Return (Some (ConfigurationError "CommitInterval should have a duration >= 0"))) /\
  (0 < Timeout kz -> 0 <= CommitInterval (Offsets cgc) ->
   Initial (Offsets cgc) <> OffsetOldest -> Initial (Offsets cgc) <> OffsetNewest ->
   Validate sarama_Validate cgc
   = Return (Some (ErrorsNew "Offsets.Initial should be sarama.OffsetOldest or sarama.OffsetNewest."))) /\
  (0 < Timeout kz -> 0 <= CommitInterval (Offsets cgc) ->
   Initial (Offsets cgc) = OffsetOldest \/ Initial (Offsets cgc) = OffsetNewest ->
   Validate sarama_Validate cgc
   = Return (match saramaConfig cgc with
             | Some sc => sarama_Validate sc
             | None => None
             end)).
Proof.
  intros Hkz. unfold Validate. rewrite Hkz. repeat split.
  - intros Ht. destruct (Z.leb_spec (Timeout kz) 0); [reflexivity | lia].
  - intros Ht Hc. destruct (Z.leb_spec (Timeout kz) 0); [lia|].
    destruct (Z.ltb_spec (CommitInterval (Offsets cgc)) 0); [reflexivity | lia].
  - intros Ht Hc Ho Hn. destruct (Z.leb_spec (Timeout kz) 0); [lia|].
    destruct (Z.ltb_spec (CommitInterval (Offsets cgc)) 0); [lia|].
    destruct (Z.eqb_spec (Initial (Offsets cgc)) OffsetOldest); [congruence|].
    destruct (Z.eqb_spec (Initial (Offsets cgc)) OffsetNewest); [congruence|].
    reflexivity.
  - intros Ht Hc Hi. destruct (Z.leb_spec (Timeout kz) 0); [lia|].
    destruct (Z.ltb_spec (CommitInterval (Offsets cgc)) 0); [lia|].
    assert (negb (Initial (Offsets cgc) =? OffsetOldest)
            && negb (Initial (Offsets cgc) =? OffsetNewest) = false) as ->.
    { destruct Hi as [-> | ->]; reflexivity. }
    destruct (saramaConfig cgc) as [sc|]; [destruct (sarama_Validate sc)|]; reflexivity.
Qed.

(** X3.  When the store client's default session timeout is positive, the
    configuration built by [NewConfig] passes the three checks of the package,
    before and after [JoinConsumerGroup] has written the group name into its
    client ID: [Validate] returns whatever the broker client's validation
    returns. *)
Theorem NewConfig_passes_own_checks :
  0 < Timeout kazoo_NewConfig ->
  Validate sarama_Validate (NewConfig sarama_NewConfig kazoo_NewConfig)
  = Return (sarama_Validate sarama_NewConfig) /\
  forall name,
    exists effective,
      setClientID (NewConfig sarama_NewConfig kazoo_NewConfig) name = Return effective /\
      Validate sarama_Validate effective
      = Return (sarama_Validate {| ClientID := name;
                                   ChannelBufferSize := ChannelBufferSize sarama_NewConfig;
                                   saramaOther := saramaOther sarama_NewConfig |}).
Proof.
  intros Ht. split.
  - unfold Validate, NewConfig. simpl.
    destruct (Z.leb_spec (Timeout kazoo_NewConfig) 0); [lia|].
    destruct (sarama_Validate sarama_NewConfig); reflexivity.
  - intros name. eexists. split; [reflexivity|].
    unfold Validate. simpl.
    destruct (Z.leb_spec (Timeout kazoo_NewConfig) 0); [lia|].
    destruct (sarama_Validate _); reflexivity.
Qed.

End ValidateFacts.

(** ** Leaders of partitions *)

(** X4.  [RetrievePartitionLeaders] returns one entry per partition, in the order
    given, with the partition's own id and the leader looked up, when every
    lookup succeeds; otherwise it returns no entry at all and the error of the
    first partition whose lookup fails. *)
Theorem RetrievePartitionLeaders_all_or_nothing leaderOf (partitions : list Partition) :
  ((forall p, In p partitions -> snd (leaderOf p) = None) ->
   RetrievePartitionLeaders leaderOf partitions
   = (map (fun p => {| id := ID p; leader := fst (leaderOf p); partition := p |})
        partitions, None)) /\
  (forall ok p rest err,
     partitions = ok ++ p :: rest ->
     (forall q, In q ok -> snd (leaderOf q) = None) ->
     snd (leaderOf p) = Some err ->
     RetrievePartitionLeaders leaderOf partitions = ([], Some err)).
Proof.
  split.
  - induction partitions as [|p ps IH]; intros Hok; simpl; [reflexivity|].
    pose proof (Hok p (or_introl eq_refl)) as Hp.
    destruct (leaderOf p) as [l e]. simpl in Hp. subst e.
    rewrite IH; [reflexivity|]. intros q Hq. apply Hok. right. exact Hq.
  - intros ok. revert partitions.
    induction ok as [|q ok IH]; intros partitions p rest err -> Hok Hp; simpl.
    + destruct (leaderOf p) as [l e]. simpl in Hp. subst e. reflexivity.
    + pose proof (Hok q (or_introl eq_refl)) as Hq.
      destruct (leaderOf q) as [l e]. simpl in Hq. subst e.
      rewrite (IH (ok ++ p :: rest) p rest err eq_refl); [reflexivity | | exact Hp].
      intros q' Hq'. apply Hok. right. exact Hq'.
Qed.

Lemma RetrievePartitionLeaders_all_or_nothing_witness :
  RetrievePartitionLeaders (fun p => (ID p + 1, None))
    [{| ID := 0; Replicas := [1] |}; {| ID := 1; Replicas := [2] |}]
  = ([{| id := 0; leader := 1; partition := {| ID := 0; Replicas := [1] |} |};
      {| id := 1; leader := 2; partition := {| ID := 1; Replicas := [2] |} |}], None).
Proof.
  refine (proj1 (RetrievePartitionLeaders_all_or_nothing (fun p => (ID p + 1, None))
                   [{| ID := 0; Replicas := [1] |}; {| ID := 1; Replicas := [2] |}]) _).
  intros p _. reflexivity.
Defined.

Lemma RetrievePartitionLeaders_success leaderOf (partitions : list Partition) pls :
  RetrievePartitionLeaders leaderOf partitions = (pls, None) ->
  map partition pls = partitions /\
  Forall (fun pl => id pl = ID (partition pl)
                    /\ leaderOf (partition pl) = (leader pl, None)) pls.
Proof.
  revert pls. induction partitions as [|p ps IH]; intros pls H; simpl in H.
  - inversion H; subst. split; [reflexivity | constructor].
  - destruct (leaderOf p) as [l [e|]] eqn:Hp; [discriminate|].
    destruct (RetrievePartitionLeaders leaderOf ps) as [pls' [e|]]; [discriminate|].
    inversion H; subst. destruct (IH pls' eq_refl) as [Hmap Hall].
    split; [simpl; rewrite Hmap; reflexivity|].
    constructor; [split; [reflexivity | exact Hp] | exact Hall].
Qed.

(** X5.  A successful [RetrievePartitionLeaders] gives back the partitions it was
    given, in the same order and under their own ids, so a list in increasing
    order of partition id yields a list of leaders in that order. *)
Theorem RetrievePartitionLeaders_keeps_order leaderOf (partitions : list Partition) pls :
  RetrievePartitionLeaders leaderOf partitions = (pls, None) ->
  map partition pls = partitions /\
  map id pls = map ID partitions /\
  (StronglySorted (fun a b => ID a < ID b) partitions -> sortedPartitions pls).
Proof.
  intros H. destruct (RetrievePartitionLeaders_success leaderOf partitions pls H)
    as [Hmap Hall].
  split; [exact Hmap|]. split.
  - rewrite <- Hmap. clear H Hmap. induction Hall as [|pl pls [Hid _] _ IH]; simpl;
      [reflexivity | rewrite Hid, IH; reflexivity].
  - intros Hs. rewrite <- Hmap in Hs. clear H Hmap Hall.
    unfold sortedPartitions. induction pls as [|pl pls IH]; [constructor|].
    simpl in Hs. inversion Hs as [|a l Hs' Hall]; subst.
    constructor; [apply IH; exact Hs'|].
    rewrite List.Forall_forall in *. intros b Hb. unfold partitionLess.
    apply Hall. apply in_map. exact Hb.
Qed.

Lemma RetrievePartitionLeaders_keeps_order_witness :
  map id (fst (RetrievePartitionLeaders (fun p => (ID p + 1, None))
                 [{| ID := 0; Replicas := [1] |}; {| ID := 1; Replicas := [2] |}]))
  = [0; 1].
Proof.
  refine (proj1 (proj2 (RetrievePartitionLeaders_keeps_order (fun p => (ID p + 1, None))
            [{| ID := 0; Replicas := [1] |}; {| ID := 1; Replicas := [2] |}] _ _))).
  reflexivity.
Defined.

(** ** Construction *)

Ltac constructor_cases env config :=
  unfold DefaultConsumerGroup;
  destruct env as [nk bl ro [gid gerr] nc [ex exerr] gc ir];
  destruct config as [[sc|] zk [ini pt ci reset]]; simpl;
  destruct nk, bl, reset, ro, gerr, nc, exerr, ex, gc, ir; simpl;
  try destruct (ChannelBufferSize sc <? 0); simpl.

Lemma DefaultConsumerGroup_result env name topics zookeeper cfg cg err tr :
  DefaultConsumerGroup env name topics zookeeper cfg = (Return (cg, err), tr) ->
  (cg <> None <-> err = None) /\
  (forall h, cg = Some h -> groupName h = name /\ config h = cfg).
Proof.
  constructor_cases env cfg; intros H; inversion H; subst; clear H;
    (split; [split; congruence|]);
    intros h Hh; inversion Hh; subst; simpl; split; reflexivity.
Qed.

(** X6.  [DefaultConsumerGroup] returns a handle exactly when it returns no error,
    and that is exactly when it has created the offset manager, as its last
    step.  The handle is live, not shut down, and carries the group name, the
    generated instance ID and the configuration it was given. *)
Theorem DefaultConsumerGroup_handle_iff_no_error env name topics zookeeper cfg cg err tr :
  DefaultConsumerGroup env name topics zookeeper cfg = (Return (cg, err), tr) ->
  (cg <> None <-> err = None) /\
  (In EvNewOffsetManager tr <-> err = None) /\
  (forall h, cg = Some h ->
     instance h = true /\ singleShutdown h = false /\ groupName h = name /\
     instanceID h = fst (generateConsumerInstanceID env) /\
     config h = cfg /\
     last tr = Some EvNewOffsetManager).
Proof.
  constructor_cases env cfg; intros H; inversion H; subst; clear H;
    (split; [split; congruence|]);
    (split; [split; [ intros Hin; simpl in Hin; first [reflexivity | intuition discriminate]
                    | intros He; first [discriminate He | simpl; auto 20] ]|]);
    intros h Hh; inversion Hh; subst; simpl; repeat split; reflexivity.
Qed.

Ltac decide_in :=
  match goal with
  | |- In _ _ <-> In _ _ =>
      split; intros Hin; simpl in Hin |- *; first [intuition discriminate | auto 20]
  | |- ~ In _ _ => intros Hin; simpl in Hin; intuition discriminate
  end.

(** X7.  When [DefaultConsumerGroup] fails after it has connected to the store, it
    closes the store connection as its last step, after closing the broker
    consumer if the failure came from checking or creating the group; only a
    failed registration of the instance returns with both left open. *)
Theorem DefaultConsumerGroup_cleanup env name topics zookeeper cfg cg err tr :
  DefaultConsumerGroup env name topics zookeeper cfg = (Return (cg, Some err), tr) ->
  (newKazoo env = Some err /\ tr = [EvNewKazoo zookeeper]) \/
  (last tr = Some EvKazooClose /\
   (In EvConsumerClose tr <-> In EvGroupExists tr)) \/
  (instanceRegister env = Some err /\
   ~ In EvKazooClose tr /\ ~ In EvConsumerClose tr).
Proof.
  constructor_cases env cfg; intros H; inversion H; subst; clear H;
    first [ left; split; reflexivity
          | right; left; split; [reflexivity | decide_in]
          | right; right; split; [reflexivity | split; decide_in] ].
Qed.

(** X8.  [DefaultConsumerGroup] resets the stored offsets exactly when
    [Offsets.ResetOffsets] is set and the store and its broker list were
    reached, and it creates the group only when the store reports, without
    error, that the group does not exist. *)
Theorem DefaultConsumerGroup_optional_steps env name topics zookeeper cfg :
  let tr := snd (DefaultConsumerGroup env name topics zookeeper cfg) in
  (In EvResetOffsets tr <->
   ResetOffsets (Offsets cfg) = true /\ newKazoo env = None /\ brokerList env = None) /\
  (In EvGroupCreate tr -> groupExists env = (false, None)).
Proof.
  cbv zeta. constructor_cases env cfg;
    (split; [split; [ intros Hin; simpl in Hin;
                      first [ repeat split; reflexivity | intuition discriminate ]
                    | intros (H1 & H2 & H3);
                      first [ discriminate | simpl; auto 20 ] ]
            | intros Hin; simpl in Hin;
              first [ reflexivity | intuition discriminate ] ]).
Qed.

(** ** Joining, continued *)

Section JoinFacts.

Variable sarama_NewConfig : SaramaConfig.
Variable kazoo_NewConfig : KazooConfig.
Variable sarama_Validate : SaramaConfig -> option error.

(** X9.  Calling [JoinConsumerGroup] without a constructor is the same as calling
    it with [DefaultConsumerGroup] as its only constructor. *)
Theorem JoinConsumerGroup_default_constructor env name topics zookeeper cfg :
  JoinConsumerGroup sarama_NewConfig kazoo_NewConfig sarama_Validate
    env name topics zookeeper cfg []
  = JoinConsumerGroup sarama_NewConfig kazoo_NewConfig sarama_Validate
      env name topics zookeeper cfg [DefaultConsumerGroup env].
Proof.
  unfold JoinConsumerGroup.
  destruct (decide (name = ""%string)); [reflexivity|].
  destruct (length topics =? 0)%nat; [reflexivity|].
  destruct (length zookeeper =? 0)%nat; [reflexivity|].
  destruct (setClientID _ name) as [effective|]; [|reflexivity].
  destruct (Validate sarama_Validate effective) as [[e|]|]; reflexivity.
Qed.

Lemma Join_reaches_constructor env name topics zookeeper cfg ctors cg tr :
  JoinConsumerGroup sarama_NewConfig kazoo_NewConfig sarama_Validate
    env name topics zookeeper cfg ctors = (Return (cg, None), tr) ->
  exists effective construct tr0,
    name <> ""%string /\ topics <> [] /\ zookeeper <> [] /\
    setClientID (match cfg with
                 | None => NewConfig sarama_NewConfig kazoo_NewConfig
                 | Some c => c
                 end) name = Return effective /\
    Validate sarama_Validate effective = Return None /\
    (ctors = [] /\ construct = DefaultConsumerGroup env \/ ctors = [construct]) /\
    construct name topics zookeeper effective = (Return (cg, None), tr0) /\
    tr = tr0 ++ [EvGoTopicListConsumer topics].
Proof.
  unfold JoinConsumerGroup.
  destruct (decide (name = ""%string)) as [Hn|Hn]; [discriminate|].
  destruct topics as [|t topics']; [discriminate|].
  destruct zookeeper as [|z zookeeper']; [discriminate|]. simpl.
  destruct (setClientID _ name) as [effective|] eqn:Hset; [|discriminate].
  destruct (Validate sarama_Validate effective) as [[e|]|] eqn:Hval; try discriminate.
  destruct ctors as [|construct [|second others]]; [| |discriminate].
  - destruct (DefaultConsumerGroup env name (t :: topics') (z :: zookeeper') effective)
      as [[[cg0 [e0|]]|] tr0] eqn:Hc; try discriminate.
    intros H; inversion H; subst.
    exists effective, (DefaultConsumerGroup env), tr0.
    repeat split; try discriminate; auto.
  - destruct (construct name (t :: topics') (z :: zookeeper') effective)
      as [[[cg0 [e0|]]|] tr0] eqn:Hc; try discriminate.
    intros H; inversion H; subst.
    exists effective, construct, tr0.
    repeat split; try discriminate; auto.
Qed.

Lemma Join_default_handle_iff env name topics zookeeper cfg cg err tr :
  JoinConsumerGroup sarama_NewConfig kazoo_NewConfig sarama_Validate
    env name topics zookeeper cfg [] = (Return (cg, err), tr) ->
  (In (EvGoTopicListConsumer topics) tr <-> err = None) /\
  (cg <> None <-> err = None).
Proof.
  destruct err as [err|]; intros H.
  - assert (~ In (EvGoTopicListConsumer topics) tr /\ cg = None) as [Hno ->].
    { revert H. unfold JoinConsumerGroup.
      destruct (decide (name = ""%string));
        [intros H; inversion H; subst; split; [intros []|reflexivity]|].
      destruct (length topics =? 0)%nat;
        [intros H; inversion H; subst; split; [intros []|reflexivity]|].
      destruct (length zookeeper =? 0)%nat;
        [intros H; inversion H; subst; split; [intros []|reflexivity]|].
      destruct (setClientID _ name) as [effective|]; [|discriminate].
      destruct (Validate sarama_Validate effective) as [[e|]|]; try discriminate;
        [intros H; inversion H; subst; split; [intros []|reflexivity]|].
      destruct (DefaultConsumerGroup env name topics zookeeper effective)
        as [[[cg0 [e0|]]|] tr0] eqn:Hc; try discriminate.
      intros H; inversion H; subst.
      destruct (DefaultConsumerGroup_result _ _ _ _ _ _ _ _ Hc) as (Hcg & _).
      split.
      - revert Hc. clear. constructor_cases env effective; intros H; inversion H;
          subst; intros Hin; simpl in Hin; intuition discriminate.
      - destruct cg; [|reflexivity]. exfalso.
        assert (Some err = None) by (apply Hcg; discriminate). discriminate. }
    split; split; intros; try contradiction; discriminate.
  - destruct (Join_reaches_constructor _ _ _ _ _ _ _ _ H)
      as (effective & construct & tr0 & _ & _ & _ & _ & _ & Hc & Hrun & ->).
    destruct Hc as [[_ ->]|Hc]; [|discriminate].
    destruct (DefaultConsumerGroup_result _ _ _ _ _ _ _ _ Hrun) as (Hcg & _).
    split; split; intros; try reflexivity.
    + apply in_or_app. right. left. reflexivity.
    + apply Hcg. reflexivity.
Qed.

(** X10.  Whenever [JoinConsumerGroup] returns a nil error it was given at most one
    constructor and its last step was to start the top-level loop.  With the
    default constructor the loop is started exactly when the error is nil,
    and a handle is returned exactly then. *)
Theorem JoinConsumerGroup_starts_loop_on_success env name topics zookeeper cfg :
  (forall ctors cg tr,
     JoinConsumerGroup sarama_NewConfig kazoo_NewConfig sarama_Validate
       env name topics zookeeper cfg ctors = (Return (cg, None), tr) ->
     last tr = Some (EvGoTopicListConsumer topics) /\ (length ctors <= 1)%nat) /\
  (forall cg err tr,
     JoinConsumerGroup sarama_NewConfig kazoo_NewConfig sarama_Validate
       env name topics zookeeper cfg [] = (Return (cg, err), tr) ->
     (In (EvGoTopicListConsumer topics) tr <-> err = None) /\
     (cg <> None <-> err = None)).
Proof.
  split.
  - intros ctors cg tr H.
    destruct (Join_reaches_constructor _ _ _ _ _ _ _ _ H)
      as (effective & construct & tr0 & _ & _ & _ & _ & _ & Hc & _ & ->).
    split; [apply last_snoc|].
    destruct Hc as [[-> _]| ->]; simpl; lia.
  - intros cg err tr H. exact (Join_default_handle_iff _ _ _ _ _ _ _ _ H).
Qed.

(** X11.  A handle returned by [JoinConsumerGroup] with the default constructor
    comes without error, bears the group name, and holds the caller's
    configuration (the defaults for a nil one) with the client ID replaced by
    the group name and nothing else changed. *)
Theorem JoinConsumerGroup_overrides_ClientID env name topics zookeeper cfg h err tr :
  JoinConsumerGroup sarama_NewConfig kazoo_NewConfig sarama_Validate
    env name topics zookeeper cfg [] = (Return (Some h, err), tr) ->
  let given := match cfg with
               | None => NewConfig sarama_NewConfig kazoo_NewConfig
               | Some c => c
               end in
  err = None /\
  groupName h = name /\
  (exists sc given_sc,
     saramaConfig (config h) = Some sc /\ saramaConfig given = Some given_sc /\
     ClientID sc = name /\
     ChannelBufferSize sc = ChannelBufferSize given_sc /\
     saramaOther sc = saramaOther given_sc) /\
  Zookeeper (config h) = Zookeeper given /\
  Offsets (config h) = Offsets given.
Proof.
  intros H. cbv zeta.
  assert (err = None) as ->.
  { destruct (Join_default_handle_iff _ _ _ _ _ _ _ _ H) as [_ Hcg].
    apply Hcg. discriminate. }
  destruct (Join_reaches_constructor _ _ _ _ _ _ _ _ H)
    as (effective & construct & tr0 & _ & _ & _ & Hset & _ & Hc & Hrun & ->).
  destruct Hc as [[_ ->]|Hc]; [|discriminate].
  destruct (DefaultConsumerGroup_result _ _ _ _ _ _ _ _ Hrun) as (_ & Hh).
  destruct (Hh h eq_refl) as (Hname & Hcfg).
  split; [reflexivity|]. split; [exact Hname|]. rewrite Hcfg.
  unfold setClientID in Hset.
  destruct (saramaConfig (match cfg with
                          | Some c => c
                          | None => NewConfig sarama_NewConfig kazoo_NewConfig
                          end)) as [gsc|] eqn:Hg; [|discriminate].
  inversion Hset; subst effective. simpl.
  split; [|split; reflexivity].
  exists {| ClientID := name; ChannelBufferSize := ChannelBufferSize gsc;
            saramaOther := saramaOther gsc |}, gsc.
  repeat split; reflexivity.
Qed.

End JoinFacts.

(** ** The partition worker, continued *)

Lemma countEvent_app e tr1 tr2 :
  countEvent e (tr1 ++ tr2) = (countEvent e tr1 + countEvent e tr2)%nat.
Proof. unfold countEvent. rewrite List.filter_app, length_app. reflexivity. Qed.

Lemma countEvent_absent (q : event -> bool) e tr :
  q e = false -> Forall (fun e' => q e' = true) tr -> countEvent e tr = 0%nat.
Proof.
  intros He Hall. unfold countEvent.
  rewrite (filter_none _ q); [reflexivity | | exact Hall].
  intros x Hx. apply bool_decide_eq_false. intros ->. congruence.
Qed.

Lemma countEvent_In e tr : In e tr <-> (0 < countEvent e tr)%nat.
Proof.
  unfold countEvent. induction tr as [|x tr IH]; simpl; [split; [intros []|lia]|].
  destruct (bool_decide (x = e)) eqn:Hx.
  - apply bool_decide_eq_true in Hx. simpl. split; [lia | intros _; left; exact Hx].
  - apply bool_decide_eq_false in Hx. rewrite <- IH. split; [intros [H|H]|]; tauto.
Qed.

Lemma sentMessages_app tr1 tr2 :
  sentMessages (tr1 ++ tr2) = sentMessages tr1 ++ sentMessages tr2.
Proof.
  induction tr1 as [|e tr1 IH]; simpl; [reflexivity|].
  destruct e; simpl; rewrite ?IH; reflexivity.
Qed.

Lemma finalizeCalls_app tr1 tr2 :
  finalizeCalls (tr1 ++ tr2) = finalizeCalls tr1 ++ finalizeCalls tr2.
Proof.
  induction tr1 as [|e tr1 IH]; simpl; [reflexivity|].
  destruct e; simpl; rewrite ?IH; reflexivity.
Qed.

Lemma claimPhase_quiet tr :
  Forall (fun e => claimPhaseEvent e = true) tr ->
  sentMessages tr = [] /\ finalizeCalls tr = [].
Proof.
  induction 1 as [|e tr He _ [IH1 IH2]]; simpl; [split; reflexivity|].
  destruct e; simpl in *; try discriminate; split; assumption.
Qed.

(** Shapes of the worker's result, by the outcome of the claim phase. *)
Lemma partitionConsumer_shape env cg topic part :
  let claim := partitionClaimLoop (Z.to_nat (maxRetriesOf cg)) env topic part
                 (maxRetriesOf cg) 0 in
  let body := consumeClaimed env cg topic part in
  let released := [EvReleasePartition topic part] in
  fst claim <> ClaimOutOfFuel /\
  match fst claim with
  | ClaimOutOfFuel => True
  | ClaimCancelled =>
      partitionConsumer env cg topic part = (Exited, snd claim ++ [EvLocalWgDone])
  | ClaimFailed err =>
      partitionConsumer env cg topic part
      = if chanReady (errorsState env)
        then (Exited, snd claim ++ [EvSendErrors (ConsumerError topic part err);
                                    EvLocalWgDone])
        else (BlockedOnErrors, snd claim)
  | ClaimProceed =>
      match fst body with
      | Exited =>
          match releasePartition env with
          | None =>
              partitionConsumer env cg topic part
              = (Exited, snd claim ++ snd body ++ released ++ [EvLocalWgDone])
          | Some err =>
              partitionConsumer env cg topic part
              = if chanReady (errorsState env)
                then (Exited,
                      snd claim ++ snd body ++ released
                        ++ [EvLogf (LogReleaseFailed topic part err);
                            EvSendErrors (ConsumerError topic part err);
                            EvLocalWgDone])
                else (BlockedOnErrors,
                      snd claim ++ snd body ++ released
                        ++ [EvLogf (LogReleaseFailed topic part err)])
          end
      | st => partitionConsumer env cg topic part = (st, snd claim ++ snd body)
      end
  end.
Proof.
  cbv zeta. split.
  - apply partitionClaimLoop_fuel. lia.
  - unfold partitionConsumer.
    destruct (partitionClaimLoop _ env topic part (maxRetriesOf cg) 0)
      as [[| |err|] tr]; simpl; try exact I; try reflexivity.
    + destruct (consumeClaimed env cg topic part) as [[] tr']; simpl; try reflexivity.
      destruct (releasePartition env) as [e|]; [|reflexivity].
      unfold sendConsumerError, bareSend.
      destruct (chanReady (errorsState env)); simpl;
        rewrite <- ?app_assoc; reflexivity.
    + unfold sendConsumerError, bareSend.
      destruct (chanReady (errorsState env)); reflexivity.
Qed.

Lemma consumeClaimed_status env cg topic part :
  fst (consumeClaimed env cg topic part) = Exited \/
  fst (consumeClaimed env cg topic part) = Waiting.
Proof.
  unfold consumeClaimed.
  destruct (initializePartition env) as [nextOffset [err|]]; [left; reflexivity|].
  destruct (startOffset cg topic part nextOffset) as [next lines].
  destruct (consumePartition cg (brokerConsumePartition env) 0 topic part next)
    as [[[consumer err] calls] tr].
  destruct consumer as [handle|], err as [e|]; try (left; reflexivity).
  destruct (partitionConsumerLoop cg (brokerConsumePartition env) topic part
              (inputs env) calls (-1)) as [[lastOffset|] tr'];
    [left | right]; reflexivity.
Qed.

Ltac count_events ev Hclaim Hbody :=
  repeat rewrite countEvent_app;
  rewrite ?(countEvent_absent claimPhaseEvent ev _ eq_refl Hclaim);
  rewrite ?(countEvent_absent consumePhaseEvent ev _ eq_refl Hbody);
  unfold countEvent; simpl;
  repeat (rewrite bool_decide_eq_true_2 by reflexivity);
  repeat (rewrite bool_decide_eq_false_2 by discriminate);
  simpl.

(** X12.  A partition worker calls [ReleasePartition] at most once, and it does so
    exactly when it got past the claim phase and then returned from
    consuming; a worker whose claim phase was cancelled or failed never
    releases. *)
Theorem release_pairs_with_claim env cg topic part :
  let r := partitionConsumer env cg topic part in
  let claim := fst (partitionClaimLoop (Z.to_nat (maxRetriesOf cg)) env topic part
                      (maxRetriesOf cg) 0) in
  let released := countEvent (EvReleasePartition topic part) (snd r) in
  (released <= 1)%nat /\
  (released = 1%nat <->
   claim = ClaimProceed /\ fst (consumeClaimed env cg topic part) = Exited) /\
  (fst r = Exited -> claim = ClaimProceed -> released = 1%nat) /\
  (claim <> ClaimProceed -> released = 0%nat).
Proof.
  cbv zeta.
  pose proof (partitionConsumer_shape env cg topic part) as [Hfuel Hshape].
  cbv zeta in Hshape, Hfuel.
  pose proof (partitionClaimLoop_events env topic part (maxRetriesOf cg)
                (Z.to_nat (maxRetriesOf cg)) 0) as Hclaim.
  pose proof (consumeClaimed_events env cg topic part) as Hbody.
  destruct (partitionClaimLoop _ env topic part (maxRetriesOf cg) 0)
    as [[| |err|] tr]; simpl in *; try congruence.
  - destruct (consumeClaimed env cg topic part) as [[] tr']; simpl in *.
    + destruct (releasePartition env) as [e|];
        [destruct (chanReady (errorsState env))|]; rewrite Hshape; simpl;
        count_events (EvReleasePartition topic part) Hclaim Hbody;
        (split; [lia|]); (split; [split; [intros _; split; reflexivity | reflexivity]|]);
        (split; [reflexivity | congruence]).
    + rewrite Hshape. simpl. count_events (EvReleasePartition topic part) Hclaim Hbody.
      split; [lia|]. split; [split; [lia | intros [_ H]; discriminate]|].
      split; [discriminate | congruence].
    + rewrite Hshape. simpl. count_events (EvReleasePartition topic part) Hclaim Hbody.
      split; [lia|]. split; [split; [lia | intros [_ H]; discriminate]|].
      split; [discriminate | congruence].
    + rewrite Hshape. simpl. count_events (EvReleasePartition topic part) Hclaim Hbody.
      split; [lia|]. split; [split; [lia | intros [_ H]; discriminate]|].
      split; [discriminate | congruence].
  - rewrite Hshape. simpl. count_events (EvReleasePartition topic part) Hclaim Hbody.
    split; [lia|]. split; [split; [lia | intros [H _]; discriminate]|].
    split; [congruence | reflexivity].
  - destruct (chanReady (errorsState env)); rewrite Hshape; simpl;
      count_events (EvReleasePartition topic part) Hclaim Hbody;
      (split; [lia|]); (split; [split; [lia | intros [H _]; discriminate]|]);
      (split; [congruence | reflexivity]).
Qed.

(** X13.  The partition worker calls [wg.Done] exactly once when it returns, as its
    last step, and not at all while it is blocked; the model never runs out
    of fuel. *)
Theorem waitgroup_signalled_on_return env cg topic part :
  let r := partitionConsumer env cg topic part in
  fst r <> OutOfFuel /\
  (fst r = Exited <-> last (snd r) = Some EvLocalWgDone) /\
  countEvent EvLocalWgDone (snd r) = (if decide (fst r = Exited) then 1 else 0)%nat.
Proof.
  cbv zeta.
  pose proof (partitionConsumer_shape env cg topic part) as [Hfuel Hshape].
  cbv zeta in Hshape, Hfuel.
  pose proof (partitionClaimLoop_events env topic part (maxRetriesOf cg)
                (Z.to_nat (maxRetriesOf cg)) 0) as Hclaim.
  pose proof (consumeClaimed_events env cg topic part) as Hbody.
  assert (forall tr q, Forall (fun e => q e = true) tr -> q EvLocalWgDone = false ->
            last tr <> Some EvLocalWgDone) as Hlast.
  { intros tr q Hall Hq Hl. apply last_Some in Hl as [l' ->].
    apply Forall_app in Hall as [_ Hall]. inversion Hall; subst. congruence. }
  assert (forall tr1 tr2 : list event,
            Forall (fun e => claimPhaseEvent e = true) tr1 ->
            Forall (fun e => consumePhaseEvent e = true) tr2 ->
            last (tr1 ++ tr2) <> Some EvLocalWgDone) as Hlast2.
  { intros tr1 tr2 H1 H2 Hl. apply last_Some in Hl as [l' Hl].
    assert (In EvLocalWgDone (tr1 ++ tr2)) as Hin
      by (rewrite Hl; apply in_or_app; right; left; reflexivity).
    apply in_app_or in Hin as [Hin|Hin].
    - rewrite List.Forall_forall in H1. specialize (H1 _ Hin). discriminate.
    - rewrite List.Forall_forall in H2. specialize (H2 _ Hin). discriminate. }
  destruct (partitionClaimLoop _ env topic part (maxRetriesOf cg) 0)
    as [[| |err|] tr]; simpl in *; try congruence.
  - pose proof (consumeClaimed_status env cg topic part) as Hst.
    destruct (consumeClaimed env cg topic part) as [[] tr']; simpl in *;
      try (destruct Hst; discriminate).
    + destruct (releasePartition env) as [e|];
        [destruct (chanReady (errorsState env))|]; rewrite Hshape; simpl;
        (split; [discriminate|]); split;
        try (count_events EvLocalWgDone Hclaim Hbody; reflexivity);
        rewrite !last_app; simpl;
        split; try reflexivity; try discriminate.
    + rewrite Hshape. simpl. split; [discriminate|]. split.
      * split; [discriminate|]. intros Hl. exfalso. exact (Hlast2 _ _ Hclaim Hbody Hl).
      * count_events EvLocalWgDone Hclaim Hbody. reflexivity.
  - rewrite Hshape. simpl. split; [discriminate|]. split.
    + split; [intros _; apply last_snoc | reflexivity].
    + count_events EvLocalWgDone Hclaim Hbody. reflexivity.
  - destruct (chanReady (errorsState env)); rewrite Hshape; simpl.
    + split; [discriminate|]. split.
      * split; [intros _|reflexivity]. rewrite last_app. reflexivity.
      * count_events EvLocalWgDone Hclaim Hbody. reflexivity.
    + split; [discriminate|]. split.
      * split; [discriminate|]. intros Hl. exfalso. exact (Hlast _ _ Hclaim eq_refl Hl).
      * count_events EvLocalWgDone Hclaim Hbody. reflexivity.
Qed.

Lemma lastOffsetOf_cons fallback m msgs :
  lastOffsetOf fallback (m :: msgs) = lastOffsetOf (msgOffset m) msgs.
Proof.
  unfold lastOffsetOf. destruct msgs as [|m' msgs]; [reflexivity|].
  simpl. destruct (last (m' :: msgs)) eqn:Hl; [reflexivity|].
  apply last_None in Hl. discriminate.
Qed.

Lemma quiet_trace tr :
  Forall (fun e => quietEvent e = true) tr ->
  sentMessages tr = [] /\ finalizeCalls tr = [].
Proof.
  induction 1 as [|e tr He _ [IH1 IH2]]; simpl; [split; reflexivity|].
  destruct e; simpl in *; try discriminate; split; assumption.
Qed.

Lemma consumePartition_quiet cg broker calls topic part nextOffset :
  Forall (fun e => quietEvent e = true)
    (snd (consumePartition cg broker calls topic part nextOffset)).
Proof.
  unfold consumePartition.
  destruct (decide (broker calls nextOffset = Some ErrOffsetOutOfRange)).
  - destruct (Initial (Offsets (config cg)) =? OffsetOldest);
      destruct (broker (S calls) _); simpl; forall_events.
  - destruct (broker calls nextOffset); simpl; forall_events.
Qed.

Lemma startOffset_quiet cg topic part stored :
  Forall (fun e => quietEvent e = true) (snd (startOffset cg topic part stored)).
Proof.
  unfold startOffset. destruct (0 <=? stored); simpl; [forall_events|].
  destruct (_ =? OffsetOldest); [forall_events|].
  destruct (_ =? OffsetNewest); forall_events.
Qed.

Lemma partitionConsumerLoop_tracks cg broker topic part ins :
  forall calls lastOffset,
    let r := partitionConsumerLoop cg broker topic part ins calls lastOffset in
    finalizeCalls (snd r) = [] /\
    (exists rest, receivedMessages ins = sentMessages (snd r) ++ rest) /\
    (forall lo, fst r = LoopBreak lo -> lo = lastOffsetOf lastOffset (sentMessages (snd r))).
Proof.
  induction ins as [|i rest IH]; intros calls lastOffset; cbv zeta; simpl.
  - split; [reflexivity|]. split; [exists []; reflexivity | discriminate].
  - assert (
      let r := let '(_, cErr, calls', tr) :=
                 consumePartition cg broker calls topic part lastOffset in
               match cErr with
               | Some _ => (LoopBreak lastOffset, EvLogf (LogInvalidState topic part) :: tr)
               | None =>
                   let '(r, tr') :=
                     partitionConsumerLoop cg broker topic part rest calls' lastOffset in
                   (r, EvLogf (LogInvalidState topic part) :: tr ++ tr')
               end in
      finalizeCalls (snd r) = [] /\
      (exists more, receivedMessages rest = sentMessages (snd r) ++ more) /\
      (forall lo, fst r = LoopBreak lo ->
         lo = lastOffsetOf lastOffset (sentMessages (snd r)))) as Hreconnect.
    { cbv zeta.
      pose proof (quiet_trace _ (consumePartition_quiet cg broker calls topic part
                                   lastOffset)) as [Hs Hf].
      destruct (consumePartition cg broker calls topic part lastOffset)
        as [[[consumer cErr] calls'] tr]. simpl in Hs, Hf.
      destruct cErr as [e|]; simpl.
      - rewrite Hs, Hf. split; [reflexivity|].
        split; [eexists; reflexivity|]. intros lo H; inversion H; reflexivity.
      - specialize (IH calls' lastOffset). cbv zeta in IH.
        destruct (partitionConsumerLoop cg broker topic part rest calls' lastOffset)
          as [r tr']. simpl in *.
        rewrite finalizeCalls_app, sentMessages_app, Hs, Hf. simpl. exact IH. }
    destruct i as [|[err|] s|[message|] s]; simpl.
    + split; [reflexivity|]. split; [eexists; reflexivity|].
      intros lo H; inversion H; reflexivity.
    + destruct (selectSend s); simpl.
      * specialize (IH calls lastOffset). cbv zeta in IH.
        destruct (partitionConsumerLoop cg broker topic part rest calls lastOffset)
          as [r tr']. simpl in *. exact IH.
      * split; [reflexivity|]. split; [eexists; reflexivity|].
        intros lo H; inversion H; reflexivity.
      * split; [reflexivity|]. split; [eexists; reflexivity | discriminate].
    + exact Hreconnect.
    + destruct (selectSend s); simpl.
      * specialize (IH calls (msgOffset message)). cbv zeta in IH.
        destruct (partitionConsumerLoop cg broker topic part rest calls
                    (msgOffset message)) as [r tr']. simpl in *.
        destruct IH as (Hf & [more Hm] & Hlo).
        split; [exact Hf|]. split.
        -- exists more. rewrite Hm. reflexivity.
        -- intros lo H. rewrite lastOffsetOf_cons. apply Hlo, H.
      * split; [reflexivity|]. split; [eexists; reflexivity|].
        intros lo H; inversion H; reflexivity.
      * split; [reflexivity|]. split; [eexists; reflexivity | discriminate].
    + destruct Hreconnect as (Hf & [more Hm] & Hlo).
      split; [exact Hf|]. split; [exists more; exact Hm | exact Hlo].
Qed.

Lemma consumeClaimed_tracks env cg topic part :
  let tr := snd (consumeClaimed env cg topic part) in
  (exists rest, receivedMessages (inputs env) = sentMessages tr ++ rest) /\
  (finalizeCalls tr = [] \/
   finalizeCalls tr
   = [(lastOffsetOf (-1) (sentMessages tr), ProcessingTimeout (Offsets (config cg)))]).
Proof.
  cbv zeta. unfold consumeClaimed.
  destruct (initializePartition env) as [nextOffset [err|]]; simpl.
  { split; [eexists; reflexivity | left; reflexivity]. }
  pose proof (quiet_trace _ (startOffset_quiet cg topic part nextOffset)) as [Hs1 Hf1].
  destruct (startOffset cg topic part nextOffset) as [next lines]. simpl in Hs1, Hf1.
  pose proof (quiet_trace _ (consumePartition_quiet cg (brokerConsumePartition env) 0
                               topic part next)) as [Hs2 Hf2].
  destruct (consumePartition cg (brokerConsumePartition env) 0 topic part next)
    as [[[consumer err] calls] tr]. simpl in Hs2, Hf2.
  destruct consumer as [handle|], err as [e|]; simpl;
    try (rewrite ?sentMessages_app, ?finalizeCalls_app, ?Hs1, ?Hs2, ?Hf1, ?Hf2; simpl;
         split; [eexists; reflexivity | left; reflexivity]).
  pose proof (partitionConsumerLoop_tracks cg (brokerConsumePartition env) topic part
                (inputs env) calls (-1)) as Hloop. cbv zeta in Hloop.
  destruct (partitionConsumerLoop cg (brokerConsumePartition env) topic part
              (inputs env) calls (-1)) as [[lastOffset|] tr']; simpl in *;
    destruct Hloop as (Hf & [more Hm] & Hlo).
  - rewrite !sentMessages_app, !finalizeCalls_app, Hs1, Hs2, Hf1, Hf2, Hf. simpl.
    assert (sentMessages
              (match finalizePartition env with
               | Some e => [EvLogf (LogFinalizeFailed topic part e)]
               | None => []
               end ++ [EvPartitionConsumerClose handle]) = []) as ->
      by (destruct (finalizePartition env); reflexivity).
    assert (finalizeCalls
              (match finalizePartition env with
               | Some e => [EvLogf (LogFinalizeFailed topic part e)]
               | None => []
               end ++ [EvPartitionConsumerClose handle]) = []) as ->
      by (destruct (finalizePartition env); reflexivity).
    rewrite app_nil_r. split; [exists more; exact Hm|].
    right. rewrite (Hlo lastOffset eq_refl). reflexivity.
  - rewrite !sentMessages_app, !finalizeCalls_app, Hs1, Hs2, Hf1, Hf2, Hf. simpl.
    split; [exists more; exact Hm | left; reflexivity].
Qed.

Lemma partitionConsumer_tracks env cg topic part :
  sentMessages (snd (partitionConsumer env cg topic part))
  = match fst (partitionClaimLoop (Z.to_nat (maxRetriesOf cg)) env topic part
                 (maxRetriesOf cg) 0) with
    | ClaimProceed => sentMessages (snd (consumeClaimed env cg topic part))
    | _ => []
    end /\
  finalizeCalls (snd (partitionConsumer env cg topic part))
  = match fst (partitionClaimLoop (Z.to_nat (maxRetriesOf cg)) env topic part
                 (maxRetriesOf cg) 0) with
    | ClaimProceed => finalizeCalls (snd (consumeClaimed env cg topic part))
    | _ => []
    end.
Proof.
  pose proof (partitionConsumer_shape env cg topic part) as [Hfuel Hshape].
  cbv zeta in Hshape, Hfuel.
  pose proof (claimPhase_quiet _ (partitionClaimLoop_events env topic part
                (maxRetriesOf cg) (Z.to_nat (maxRetriesOf cg)) 0)) as [Hs Hf].
  destruct (partitionClaimLoop _ env topic part (maxRetriesOf cg) 0)
    as [[| |err|] tr]; simpl in *; try congruence.
  - destruct (consumeClaimed env cg topic part) as [[] tr']; simpl in *;
      [ destruct (releasePartition env) as [e|];
        [destruct (chanReady (errorsState env))|] | | | ];
      rewrite Hshape; simpl;
      rewrite !sentMessages_app, !finalizeCalls_app, Hs, Hf; simpl;
      rewrite ?app_nil_r; split; reflexivity.
  - rewrite Hshape. simpl. rewrite sentMessages_app, finalizeCalls_app, Hs, Hf.
    split; reflexivity.
  - destruct (chanReady (errorsState env)); rewrite Hshape; simpl;
      rewrite ?sentMessages_app, ?finalizeCalls_app, Hs, Hf; split; reflexivity.
Qed.

(** X14.  The messages a partition worker sends on [messages] are, in the same
    order, an initial part of the messages its broker stream delivered:
    nothing is reordered, repeated or made up. *)
Theorem messages_forwarded_in_order env cg topic part :
  exists rest,
    receivedMessages (inputs env)
    = sentMessages (snd (partitionConsumer env cg topic part)) ++ rest.
Proof.
  destruct (partitionConsumer_tracks env cg topic part) as [-> _].
  destruct (fst (partitionClaimLoop _ env topic part (maxRetriesOf cg) 0));
    try (eexists; reflexivity).
  apply (consumeClaimed_tracks env cg topic part).
Qed.






Lemma partitionClaimLoop_decided env topic part maxRetries (k : Z) :
  0 <= k < maxRetries ->
  (forall i, 0 <= i < k -> doneBeforeTimer env i = false /\ claimPartition env i <> None) ->
  forall (n : nat) tries (fuel : nat),
    0 <= tries -> tries + Z.of_nat n = k ->
    (Z.to_nat (maxRetries - tries) <= fuel)%nat ->
    let r := partitionClaimLoop fuel env topic part maxRetries tries in
    (doneBeforeTimer env k = true ->
     fst r = ClaimCancelled /\
     waitsAndClaims (snd r)
     = concat (repeat [EvTimeAfter (1 * Second); EvClaimPartition topic part] n)) /\
    (doneBeforeTimer env k = false -> claimPartition env k = None ->
     fst r = ClaimProceed /\
     waitsAndClaims (snd r)
     = concat (repeat [EvTimeAfter (1 * Second); EvClaimPartition topic part] (S n))).
Proof.
  intros Hk Hbefore n. induction n as [|n IH]; intros tries fuel Ht Hsum Hfuel; cbv zeta.
  - assert (tries = k) as -> by lia.
    destruct fuel as [|fuel]; [lia|]. simpl.
    assert ((k <? maxRetries) = true) as -> by (apply Z.ltb_lt; lia).
    split.
    + intros ->. split; reflexivity.
    + intros -> Hc. unfold claimAttempt. rewrite Hc. split; reflexivity.
  - destruct fuel as [|fuel]; [lia|]. simpl.
    assert ((tries <? maxRetries) = true) as -> by (apply Z.ltb_lt; lia).
    destruct (Hbefore tries ltac:(lia)) as [-> Hc].
    unfold claimAttempt. destruct (claimPartition env tries) as [err|]; [|congruence].
    assert ((tries + 1 <? maxRetries) = true) as -> by (apply Z.ltb_lt; lia).
    specialize (IH (tries + 1) fuel ltac:(lia) ltac:(lia) ltac:(lia)). cbv zeta in IH.
    destruct (partitionClaimLoop fuel env topic part maxRetries (tries + 1)) as [r tr'].
    simpl in *. destruct IH as [IHc IHp].
    split.
    + intros Hd. destruct (IHc Hd) as [-> Hw]. split; [reflexivity|].
      change (EvTimeAfter (1 * Second) :: ?l) with ([EvTimeAfter (1 * Second)] ++ l).
      rewrite !waitsAndClaims_app, Hw.
      destruct (decide (err = ErrPartitionClaimedByOther)); reflexivity.
    + intros Hd Hg. destruct (IHp Hd Hg) as [-> Hw]. split; [reflexivity|].
      change (EvTimeAfter (1 * Second) :: ?l) with ([EvTimeAfter (1 * Second)] ++ l).
      rewrite !waitsAndClaims_app, Hw.
      destruct (decide (err = ErrPartitionClaimedByOther)); reflexivity.
Qed.


(** X17.  If the generation is cancelled during the wait that precedes attempt
    [k + 1], the worker returns after exactly [k] attempts: it sends no
    error, releases nothing and only signals its wait group. *)
Theorem claim_wait_cancelled env cg topic part (k : Z) :
  0 <= k < maxRetriesOf cg ->
  (forall i, 0 <= i < k -> doneBeforeTimer env i = false /\ claimPartition env i <> None) ->
  doneBeforeTimer env k = true ->
  exists tr,
    partitionConsumer env cg topic part = (Exited, tr ++ [EvLocalWgDone]) /\
    Forall (fun e => claimPhaseEvent e = true) tr /\
    claimAttempts tr = Z.to_nat k /\
    (forall err, ~ In (EvSendErrors err) (tr ++ [EvLocalWgDone])) /\
    ~ In (EvReleasePartition topic part) (tr ++ [EvLocalWgDone]).
Proof.
  intros Hk Hbefore Hdone.
  destruct (partitionClaimLoop_decided env topic part (maxRetriesOf cg) k Hk Hbefore
              (Z.to_nat k) 0 (Z.to_nat (maxRetriesOf cg)) ltac:(lia) ltac:(lia)
              ltac:(lia)) as [Hc _].
  destruct (Hc Hdone) as [Hcancel Hw].
  pose proof (partitionConsumer_shape env cg topic part) as [_ Hshape].
  cbv zeta in Hshape. rewrite Hcancel in Hshape.
  pose proof (partitionClaimLoop_events env topic part (maxRetriesOf cg)
                (Z.to_nat (maxRetriesOf cg)) 0) as Hev.
  exists (snd (partitionClaimLoop (Z.to_nat (maxRetriesOf cg)) env topic part
                 (maxRetriesOf cg) 0)).
  split; [exact Hshape|]. split; [exact Hev|]. split.
  - rewrite <- claimAttempts_waitsAndClaims, Hw. apply claimAttempts_rounds.
  - split.
    + intros err Hin. apply in_app_or in Hin as [Hin|[Hin|[]]]; [|discriminate].
      revert Hin. apply claimPhase_not_In; [reflexivity | exact Hev].
    + intros Hin. apply in_app_or in Hin as [Hin|[Hin|[]]]; [|discriminate].
      revert Hin. apply claimPhase_not_In; [reflexivity | exact Hev].
Qed.

Lemma claim_wait_cancelled_witness :
  exists tr,
    partitionConsumer
      {| doneBeforeTimer := fun i => 1 <=? i;
         claimPartition := fun _ => Some ErrPartitionClaimedByOther;
         errorsState := readyState; releasePartition := None;
         initializePartition := (-1, None);
         brokerConsumePartition := fun _ _ => None;
         inputs := []; finalizePartition := None |}
      (sampleGroup OffsetOldest (60 * Second)) "topic" 0
    = (Exited, tr ++ [EvLocalWgDone]) /\ claimAttempts tr = 1%nat.
Proof.
  destruct (claim_wait_cancelled
              {| doneBeforeTimer := fun i => 1 <=? i;
                 claimPartition := fun _ => Some ErrPartitionClaimedByOther;
                 errorsState := readyState; releasePartition := None;
                 initializePartition := (-1, None);
                 brokerConsumePartition := fun _ _ => None;
                 inputs := []; finalizePartition := None |}
              (sampleGroup OffsetOldest (60 * Second)) "topic" 0 1)
    as (tr & Hpc & _ & Hn & _).
  - vm_compute. split; [discriminate | reflexivity].
  - intros i Hi. assert (i = 0) as -> by lia. split; [reflexivity | discriminate].
  - reflexivity.
  - exists tr. split; [exact Hpc | exact Hn].
Defined.


(** X18.  With a processing timeout of minus two seconds or less the retry budget
    is not positive: the worker makes no claim attempt and starts by asking
    for the initial offset. *)
Theorem negative_timeout_skips_claim env cg topic part :
  in_int64 (ProcessingTimeout (Offsets (config cg))) ->
  ProcessingTimeout (Offsets (config cg)) <= - (2 * Second) ->
  let tr := snd (partitionConsumer env cg topic part) in
  claimAttempts tr = 0%nat /\
  head tr = Some (EvInitializePartition topic part).
Proof.
  intros Hrange Hneg. cbv zeta.
  assert (maxRetriesOf cg <= 0) as Hmax.
  { rewrite (maxRetriesOf_eq cg Hrange). unfold Second in *.
    Z.to_euclidean_division_equations. lia. }
  assert (partitionClaimLoop (Z.to_nat (maxRetriesOf cg)) env topic part
            (maxRetriesOf cg) 0 = (ClaimProceed, [])) as Hloop.
  { replace (Z.to_nat (maxRetriesOf cg)) with 0%nat by lia. simpl.
    assert ((0 <? maxRetriesOf cg) = false) as -> by (apply Z.ltb_ge; lia).
    reflexivity. }
  split.
  - rewrite <- claimAttempts_waitsAndClaims, partitionConsumer_waitsAndClaims, Hloop.
    reflexivity.
  - pose proof (partitionConsumer_shape env cg topic part) as [_ Hshape].
    cbv zeta in Hshape. rewrite Hloop in Hshape. simpl in Hshape.
    assert (exists l, snd (consumeClaimed env cg topic part)
                      = EvInitializePartition topic part :: l) as [l Hl].
    { unfold consumeClaimed.
      destruct (initializePartition env) as [nextOffset [err|]]; [eexists; reflexivity|].
      destruct (startOffset cg topic part nextOffset) as [next lines].
      destruct (consumePartition cg (brokerConsumePartition env) 0 topic part next)
        as [[[consumer err] calls] tr0].
      destruct consumer as [handle|], err as [e|]; try (eexists; reflexivity).
      destruct (partitionConsumerLoop cg (brokerConsumePartition env) topic part
                  (inputs env) calls (-1)) as [[lastOffset|] tr'];
        eexists; reflexivity. }
    destruct (consumeClaimed env cg topic part) as [[] tr']; simpl in *; subst tr';
      [ destruct (releasePartition env) as [e|];
        [destruct (chanReady (errorsState env))|] | | | ];
      rewrite Hshape; reflexivity.
Qed.

Lemma negative_timeout_skips_claim_witness :
  head (snd (partitionConsumer (contendedEnv readyState)
               (sampleGroup OffsetOldest (- (3 * Second))) "topic" 0))
  = Some (EvInitializePartition "topic" 0).
Proof.
  refine (proj2 (negative_timeout_skips_claim (contendedEnv readyState)
                   (sampleGroup OffsetOldest (- (3 * Second))) "topic" 0 _ _)).
  - unfold in_int64, int64_min, int64_max, Second. simpl. lia.
  - apply Z.leb_le. reflexivity.
Defined.

(** X19.  For a non-negative processing timeout the retry budget, at one second per
    attempt, exceeds the timeout by more than one second and by at most
    two. *)
Theorem claim_budget_outlasts_timeout cg :
  in_int64 (ProcessingTimeout (Offsets (config cg))) ->
  0 <= ProcessingTimeout (Offsets (config cg)) ->
  ProcessingTimeout (Offsets (config cg)) + Second < maxRetriesOf cg * Second /\
  maxRetriesOf cg * Second <= ProcessingTimeout (Offsets (config cg)) + 2 * Second.
Proof.
  intros Hrange Hpos. rewrite (maxRetriesOf_eq cg Hrange). unfold Second.
  generalize dependent (ProcessingTimeout (Offsets (config cg))). intros pt _ Hpos.
  pose proof (Z.quot_rem' pt 1000000000).
  pose proof (Z.rem_bound_pos pt 1000000000 Hpos ltac:(lia)).
  lia.
Qed.

Lemma claim_budget_outlasts_timeout_witness :
  1500000000 + Second < maxRetriesOf (sampleGroup OffsetOldest 1500000000) * Second.
Proof.
  refine (proj1 (claim_budget_outlasts_timeout
                   (sampleGroup OffsetOldest 1500000000) _ _)).
  - unfold in_int64, int64_min, int64_max. simpl. lia.
  - simpl. lia.
Defined.

(** ** Reconnection and the topic worker *)

(** X20.  When the broker stream yields a nil message or a nil error after some
    messages were forwarded, the worker reopens the stream at the offset of
    the last forwarded message (at the offset it started with if none was),
    not at the one after it. *)
Theorem reconnect_resumes_at_last_delivered cg broker topic part
    (delivered : list (ConsumerMessage * selectState)) (sentinel : loopInput)
    (rest : list loopInput) (calls : nat) (lastOffset : Z) :
  Forall (fun d => selectSend (snd d) = Sent) delivered ->
  (exists s, sentinel = InputMessage None s \/ sentinel = InputError None s) ->
  let ins := map (fun d => InputMessage (Some (fst d)) (snd d)) delivered
               ++ sentinel :: rest in
  let tr := snd (partitionConsumerLoop cg broker topic part ins calls lastOffset) in
  head (consumeOffsets tr) = Some (lastOffsetOf lastOffset (map fst delivered)) /\
  exists more, sentMessages tr = map fst delivered ++ more.
Proof.
  intros Hsent [s Hs]. cbv zeta. revert lastOffset.
  induction Hsent as [|[m sm] delivered Hm _ IH]; intros lastOffset; simpl.
  - assert (forall r : loopExit * list event,
              r = (let '(_, cErr, calls', tr) :=
                     consumePartition cg broker calls topic part lastOffset in
                   match cErr with
                   | Some _ =>
                       (LoopBreak lastOffset, EvLogf (LogInvalidState topic part) :: tr)
                   | None =>
                       let '(r, tr') :=
                         partitionConsumerLoop cg broker topic part rest calls'
                           lastOffset in
                       (r, EvLogf (LogInvalidState topic part) :: tr ++ tr')
                   end) ->
              head (consumeOffsets (snd r)) = Some lastOffset /\
              exists more, sentMessages (snd r) = more) as Hgen.
    { intros r ->.
      pose proof (consumePartition_first_offset cg broker calls topic part lastOffset)
        as Hhead.
      destruct (consumePartition cg broker calls topic part lastOffset)
        as [[[consumer cErr] calls'] tr]. simpl in Hhead.
      destruct (consumeOffsets tr) as [|o os] eqn:Hco; [discriminate|].
      simpl in Hhead. inversion Hhead; subst o.
      destruct cErr as [e|]; simpl.
      - rewrite Hco. split; [reflexivity | eexists; reflexivity].
      - destruct (partitionConsumerLoop cg broker topic part rest calls' lastOffset)
          as [r tr']. simpl. rewrite consumeOffsets_app, Hco.
        split; [reflexivity | eexists; reflexivity]. }
    destruct Hs as [-> | ->]; simpl; apply Hgen; reflexivity.
  - simpl in Hm. rewrite Hm. rewrite lastOffsetOf_cons.
    specialize (IH (msgOffset m)).
    destruct (partitionConsumerLoop cg broker topic part
                (map (fun d => InputMessage (Some (fst d)) (snd d)) delivered
                   ++ sentinel :: rest) calls (msgOffset m)) as [r tr'].
    simpl in *. destruct IH as [Hh [more Hmore]].
    split; [exact Hh | exists more; rewrite Hmore; reflexivity].
Qed.

Lemma reconnect_resumes_at_last_delivered_witness :
  head (consumeOffsets
          (snd (partitionConsumerLoop (sampleGroup OffsetOldest 0) (fun _ _ => None)
                  "topic" 0
                  [InputMessage (Some {| msgTopic := "topic"; msgPartition := 0;
                                         msgOffset := 41; msgValue := "a" |}) readyState;
                   InputMessage (Some {| msgTopic := "topic"; msgPartition := 0;
                                         msgOffset := 42; msgValue := "b" |}) readyState;
                   InputMessage None readyState]
                  1 (-1))))
  = Some 42.
Proof.
  refine (proj1 (reconnect_resumes_at_last_delivered (sampleGroup OffsetOldest 0)
            (fun _ _ => None) "topic" 0
            [({| msgTopic := "topic"; msgPartition := 0;
                 msgOffset := 41; msgValue := "a" |}, readyState);
             ({| msgTopic := "topic"; msgPartition := 0;
                 msgOffset := 42; msgValue := "b" |}, readyState)]
            (InputMessage None readyState) [] 1 (-1) _ _)).
  - repeat constructor.
  - exists readyState. left. reflexivity.
Defined.


(** X21.  When listing the partitions or looking up their leaders fails, the topic
    worker starts no partition worker; if [cg.errors] takes the value it
    sends a consumer error with partition -1, then cancels the generation
    and signals the wait group, and otherwise it stays in the send having done
    neither. *)
Theorem topicConsumer_reports_and_cancels env cg topic err :
  doneAtStart env = false ->
  (snd (topicPartitions env) = Some err \/
   snd (topicPartitions env) = None /\
   snd (RetrievePartitionLeaders (partitionLeaderOf env) (fst (topicPartitions env)))
   = Some err) ->
  let r := topicConsumer env cg topic in
  spawnedPartitions (snd r) = [] /\
  (chanReady (topicErrorsState env) = true ->
   fst r = Exited /\
   exists tr, snd r = tr ++ [EvSendErrors (ConsumerError topic (-1) err);
                             EvCancel; EvWgDone]
              /\ ~ In EvCancel tr) /\
  (chanReady (topicErrorsState env) = false ->
   fst r = BlockedOnErrors /\ ~ In EvCancel (snd r) /\ ~ In EvWgDone (snd r)).
Proof.
  intros Hstart Hfail. cbv zeta. unfold topicConsumer. rewrite Hstart.
  destruct (topicPartitions env) as [partitions [e|]]; simpl in Hfail.
  - destruct Hfail as [Hfail|[Hfail _]]; [|discriminate]. inversion Hfail; subst e.
    unfold sendConsumerError, bareSend.
    destruct (chanReady (topicErrorsState env)); simpl.
    + split; [reflexivity|]. split; [|discriminate].
      intros _. split; [reflexivity|].
      exists [EvLogf (LogTopicStarted topic); EvTopicPartitions topic;
              EvLogf (LogPartitionsFailed topic err)].
      split; [reflexivity|].
      intros Hin. simpl in Hin. intuition discriminate.
    + split; [reflexivity|]. split; [discriminate|].
      intros _. split; [reflexivity|].
      split; intros Hin; simpl in Hin; intuition discriminate.
  - destruct Hfail as [Hfail|[_ Hfail]]; [discriminate|].
    destruct (RetrievePartitionLeaders (partitionLeaderOf env) partitions)
      as [leaders [e|]]; simpl in Hfail; [|discriminate].
    inversion Hfail; subst e.
    unfold sendConsumerError, bareSend.
    destruct (chanReady (topicErrorsState env)); simpl.
    + split; [reflexivity|]. split; [|discriminate].
      intros _. split; [reflexivity|].
      exists [EvLogf (LogTopicStarted topic); EvTopicPartitions topic;
              EvRetrievePartitionLeaders; EvLogf (LogLeadersFailed topic err)].
      split; [reflexivity|].
      intros Hin. simpl in Hin. intuition discriminate.
    + split; [reflexivity|]. split; [discriminate|].
      intros _. split; [reflexivity|].
      split; intros Hin; simpl in Hin; intuition discriminate.
Qed.

Lemma topicConsumer_reports_and_cancels_witness :
  fst (topicConsumer {| doneAtStart := false;
                        topicPartitions := ([], Some (ErrorsNew "test error"));
                        partitionLeaderOf := fun _ => (0, None);
                        topicErrorsState := readyState |}
         (sampleGroup OffsetOldest (60 * Second)) "Topic") = Exited.
Proof.
  refine (proj1 (proj1 (proj2 (topicConsumer_reports_and_cancels
            {| doneAtStart := false;
               topicPartitions := ([], Some (ErrorsNew "test error"));
               partitionLeaderOf := fun _ => (0, None);
               topicErrorsState := readyState |}
            (sampleGroup OffsetOldest (60 * Second)) "Topic"
            (ErrorsNew "test error") _ _)) _)).
  - reflexivity.
  - left. reflexivity.
  - reflexivity.
Defined.




(** ** The top-level loop *)

Lemma lockDiscipline_app held tr1 tr2 :
  lockDiscipline held (tr1 ++ tr2)
  = match lockDiscipline held tr1 with
    | Some held' => lockDiscipline held' tr2
    | None => None
    end.
Proof.
  revert held. induction tr1 as [|e tr1 IH]; intros held; simpl; [reflexivity|].
  destruct e, held; simpl; try reflexivity; apply IH.
Qed.

Lemma joinedBeforeNext_app live tr1 tr2 :
  joinedBeforeNext live (tr1 ++ tr2)
  = joinedBeforeNext live tr1 && joinedBeforeNext (liveAfter live tr1) tr2.
Proof.
  revert live. induction tr1 as [|e tr1 IH]; intros live; simpl; [reflexivity|].
  destruct e; simpl; rewrite ?IH; try reflexivity.
  rewrite andb_assoc. reflexivity.
Qed.

Lemma liveAfter_app live tr1 tr2 :
  liveAfter live (tr1 ++ tr2) = liveAfter (liveAfter live tr1) tr2.
Proof.
  revert live. induction tr1 as [|e tr1 IH]; intros live; simpl; [reflexivity|].
  destruct e; simpl; apply IH.
Qed.

Lemma spawnedTopics_app tr1 tr2 :
  spawnedTopics (tr1 ++ tr2) = spawnedTopics tr1 ++ spawnedTopics tr2.
Proof.
  induction tr1 as [|e tr1 IH]; simpl; [reflexivity|].
  destruct e; simpl; rewrite ?IH; reflexivity.
Qed.

Lemma generationsStarted_app tr1 tr2 :
  generationsStarted (tr1 ++ tr2)
  = (generationsStarted tr1 + generationsStarted tr2)%nat.
Proof.
  induction tr1 as [|e tr1 IH]; simpl; [reflexivity|].
  destruct e as [| | | |[]| | | | | | |]; simpl; rewrite ?IH; reflexivity.
Qed.

Lemma countWgAdd_app tr1 tr2 :
  countWgAdd (tr1 ++ tr2) = (countWgAdd tr1 + countWgAdd tr2)%nat.
Proof.
  induction tr1 as [|e tr1 IH]; simpl; [reflexivity|].
  destruct e; simpl; rewrite ?IH; reflexivity.
Qed.

Lemma spawnAll_facts topics :
  lockDiscipline true (spawnAll topics) = Some true /\
  (forall live, joinedBeforeNext live (spawnAll topics) = true) /\
  spawnedTopics (spawnAll topics) = topics /\
  generationsStarted (spawnAll topics) = 0%nat /\
  countWgAdd (spawnAll topics) = length topics.
Proof.
  unfold spawnAll. induction topics as [|t ts (IH1 & IH2 & IH3 & IH4 & IH5)]; simpl.
  - repeat split; reflexivity.
  - rewrite IH1, IH3, IH4, IH5. repeat split; try reflexivity. intros live. apply IH2.
Qed.

Lemma generationStart_facts members topics :
  lockDiscipline false (generationStart members topics) = Some false /\
  joinedBeforeNext false (generationStart members topics) = true /\
  spawnedTopics (generationStart members topics) = topics /\
  generationsStarted (generationStart members topics) = 1%nat /\
  countWgAdd (generationStart members topics) = length topics.
Proof.
  destruct (spawnAll_facts topics) as (H1 & H2 & H3 & H4 & H5).
  unfold generationStart. simpl.
  rewrite lockDiscipline_app, H1, joinedBeforeNext_app, H2, spawnedTopics_app, H3,
    generationsStarted_app, H4, countWgAdd_app, H5. simpl.
  rewrite app_nil_r. repeat split; try reflexivity. lia.
Qed.

Lemma sameIdentity_trans a b c : sameIdentity a b -> sameIdentity b c -> sameIdentity a c.
Proof.
  intros (H1 & H2 & H3 & H4 & H5) (K1 & K2 & K3 & K4 & K5).
  repeat split; congruence.
Qed.

(** Induction over the iterations of the loop: a property of traces holds of
    every run if it holds of the runs that end in each of the ways an
    iteration can end, and is kept by an iteration that goes on. *)
Lemma topicListConsumer_trace_ind (topics : list string)
    (P : list supervisorEvent -> Prop) :
  P [] ->
  P [SvMuLock; SvMuUnlock] ->
  (forall err,
     P [SvMuLock; SvLimiterWait; SvWatchInstances; SvLogf (LogWatchFailed err);
        SvCancel; SvMuUnlock]) ->
  (forall members, P (generationStart members topics)) ->
  (forall members (failureInjection : bool),
     P (generationStart members topics
          ++ (if failureInjection then [SvSleep (1 * Millisecond)] else [])
          ++ [SvCancel])) ->
  (forall members tr,
     P tr -> P (generationStart members topics ++ SvWgWait :: tr)) ->
  (forall members lines tr,
     Forall (fun e => reregistration e = true) lines ->
     P tr ->
     P (generationStart members topics
          ++ lines ++ SvLogf LogRebalance :: SvCancel :: SvWgWait :: tr)) ->
  forall cg gens, P (snd (topicListConsumer cg topics gens)).
Proof.
  intros Hnil Hstop Hwatch Hstart Hquit Hdone Hchange cg gens. revert cg.
  induction gens as [|g rest IH]; intros cg; [exact Hnil|].
  change (topicListConsumer cg topics (g :: rest))
    with (if stopperClosed g then (SupReturned, cg, [SvMuLock; SvMuUnlock])
          else
            match watchInstances g with
            | (_, Some err) =>
                (SupReturned, cg,
                 [SvMuLock; SvLimiterWait; SvWatchInstances;
                  SvLogf (LogWatchFailed err); SvCancel; SvMuUnlock])
            | (members, None) =>
                let cg1 := setConsumers cg members in
                let tr := generationStart members topics in
                match generationEnds g with
                | EndBlocked => (SupWaiting, cg1, tr)
                | EndCtxDone =>
                    let '(st, cg2, tr') := topicListConsumer cg1 topics rest in
                    (st, cg2, tr ++ SvWgWait :: tr')
                | EndStopper failureInjection =>
                    (SupReturned, cg1,
                     tr ++ (if failureInjection then [SvSleep (1 * Millisecond)]
                            else [])
                        ++ [SvCancel])
                | EndChanges registered register =>
                    if instance cg1 then
                      let lines :=
                        match registered with
                        | (_, Some err) =>
                            [SvRegistered; SvLogf (LogRegisterStatusFailed err)]
                        | (true, None) => [SvRegistered]
                        | (false, None) =>
                            [SvRegistered; SvRegister topics;
                             match register with
                             | Some err => SvLogf (LogReregisterFailed err)
                             | None => SvLogf (LogReregistered (instanceID cg1))
                             end]
                        end in
                      let '(st, cg2, tr') := topicListConsumer cg1 topics rest in
                      (st, cg2,
                       tr ++ lines ++ SvLogf LogRebalance :: SvCancel :: SvWgWait :: tr')
                    else (SupPanicked, cg1, tr)
                end
            end).
  destruct (stopperClosed g); [exact Hstop|].
  destruct (watchInstances g) as [members [err|]]; [apply Hwatch|]. cbv zeta.
  destruct (generationEnds g) as [|inj|registered register|].
  - specialize (IH (setConsumers cg members)).
    destruct (topicListConsumer (setConsumers cg members) topics rest) as [[st cg2] tr'].
    apply Hdone. exact IH.
  - apply Hquit.
  - destruct (instance (setConsumers cg members)); [|apply Hstart].
    specialize (IH (setConsumers cg members)).
    destruct (topicListConsumer (setConsumers cg members) topics rest) as [[st cg2] tr'].
    apply Hchange; [|exact IH].
    destruct registered as [[] [e|]]; try destruct register; repeat constructor.
  - apply Hstart.
Qed.

Lemma reregistration_neutral lines :
  Forall (fun e => reregistration e = true) lines ->
  (forall held, lockDiscipline held lines = Some held) /\
  (forall live, joinedBeforeNext live lines = true /\ liveAfter live lines = live) /\
  spawnedTopics lines = [] /\
  countWgAdd lines = 0%nat.
Proof.
  induction 1 as [|e lines He _ (IH1 & IH2 & IH3 & IH4)]; simpl.
  - repeat split; reflexivity.
  - destruct e as [| | | |[]| | | | | | |]; simpl in He; try discriminate; repeat split;
      try apply IH1; try apply IH2; assumption.
Qed.

(** X23.  In every run of the top-level loop the mutex is locked and unlocked
    alternately and is free whenever the loop returns or waits; the member
    list is watched and topic workers are added to the wait group and started
    only while it is held. *)
Theorem topicListConsumer_mutex_discipline cg topics gens :
  lockDiscipline false (snd (topicListConsumer cg topics gens)) = Some false.
Proof.
  apply topicListConsumer_trace_ind; clear cg gens.
  - reflexivity.
  - reflexivity.
  - reflexivity.
  - intros members. apply generationStart_facts.
  - intros members inj. rewrite lockDiscipline_app.
    rewrite (proj1 (generationStart_facts members topics)).
    destruct inj; reflexivity.
  - intros members tr IH. rewrite lockDiscipline_app.
    rewrite (proj1 (generationStart_facts members topics)). exact IH.
  - intros members lines tr Hlines IH. rewrite lockDiscipline_app.
    rewrite (proj1 (generationStart_facts members topics)). simpl.
    rewrite lockDiscipline_app.
    rewrite (proj1 (reregistration_neutral lines Hlines)). exact IH.
Qed.

(** X24.  The top-level loop never begins an iteration while topic workers it
    started are unjoined: a [wg.Wait] lies between the workers of one
    generation and the next lock. *)
Theorem topicListConsumer_joins_before_next_generation cg topics gens :
  joinedBeforeNext false (snd (topicListConsumer cg topics gens)) = true.
Proof.
  apply topicListConsumer_trace_ind; clear cg gens.
  - reflexivity.
  - reflexivity.
  - reflexivity.
  - intros members. apply generationStart_facts.
  - intros members inj. rewrite joinedBeforeNext_app.
    rewrite (proj1 (proj2 (generationStart_facts members topics))).
    destruct inj; reflexivity.
  - intros members tr IH. rewrite joinedBeforeNext_app.
    rewrite (proj1 (proj2 (generationStart_facts members topics))). exact IH.
  - intros members lines tr Hlines IH. rewrite !joinedBeforeNext_app.
    rewrite (proj1 (proj2 (generationStart_facts members topics))).
    destruct (reregistration_neutral lines Hlines) as (_ & Hn & _).
    rewrite (proj1 (Hn _)). exact IH.
Qed.

Lemma addedBeforeGo_app pending tr1 tr2 :
  addedBeforeGo pending tr1 = true ->
  addedBeforeGo pending (tr1 ++ tr2) = addedBeforeGo false tr2.
Proof.
  revert pending. induction tr1 as [|e tr1 IH]; intros pending H.
  - destruct pending; [discriminate | reflexivity].
  - destruct e, pending; simpl in *; try discriminate; apply IH; exact H.
Qed.

Lemma addedBeforeGo_go pending tr :
  addedBeforeGo pending tr = true ->
  forall pre topic post,
    tr = pre ++ SvGoTopicConsumer topic :: post ->
    (pre = [] /\ pending = true) \/ exists pre', pre = pre' ++ [SvWgAdd].
Proof.
  intros H pre. revert pending tr H.
  induction pre as [|e pre IH]; intros pending tr H topic post ->.
  - left. split; [reflexivity|]. destruct pending; [reflexivity | discriminate].
  - right.
    assert (exists pending',
              addedBeforeGo pending' (pre ++ SvGoTopicConsumer topic :: post) = true /\
              (pending' = true -> e = SvWgAdd)) as (pending' & H' & He).
    { destruct e, pending; simpl in H; try discriminate;
        eexists; (split; [exact H | intros; reflexivity || discriminate]). }
    destruct (IH pending' _ H' topic post eq_refl) as [[-> Hp]|[pre' ->]].
    + exists []. rewrite (He Hp). reflexivity.
    + exists (e :: pre'). reflexivity.
Qed.

Lemma addedBeforeGo_add pending tr :
  addedBeforeGo pending tr = true ->
  forall pre post,
    tr = pre ++ SvWgAdd :: post ->
    exists topic post', post = SvGoTopicConsumer topic :: post'.
Proof.
  intros H pre. revert pending tr H.
  induction pre as [|e pre IH]; intros pending tr H post ->.
  - simpl in H. destruct pending; [discriminate|]. simpl in H.
    destruct post as [|e post]; [discriminate|].
    destruct e; try discriminate. eexists _, _. reflexivity.
  - assert (exists pending', addedBeforeGo pending' (pre ++ SvWgAdd :: post) = true)
      as (pending' & H').
    { destruct e, pending; simpl in H; try discriminate; eexists; exact H. }
    exact (IH pending' _ H' post eq_refl).
Qed.

Lemma spawnAll_addedBeforeGo topics : addedBeforeGo false (spawnAll topics) = true.
Proof. unfold spawnAll. induction topics as [|t ts IH]; simpl; [reflexivity | exact IH]. Qed.

Lemma generationStart_addedBeforeGo members topics :
  addedBeforeGo false (generationStart members topics) = true.
Proof.
  unfold generationStart. simpl.
  rewrite (addedBeforeGo_app _ _ _ (spawnAll_addedBeforeGo topics)). reflexivity.
Qed.

Lemma reregistration_addedBeforeGo lines :
  Forall (fun e => reregistration e = true) lines -> addedBeforeGo false lines = true.
Proof.
  induction 1 as [|e lines He _ IH]; simpl; [reflexivity|].
  destruct e as [| | | |[]| | | | | | |]; simpl in He; try discriminate; exact IH.
Qed.

Lemma topicListConsumer_addedBeforeGo cg topics gens :
  addedBeforeGo false (snd (topicListConsumer cg topics gens)) = true.
Proof.
  apply topicListConsumer_trace_ind; clear cg gens.
  - reflexivity.
  - reflexivity.
  - reflexivity.
  - intros members. apply generationStart_addedBeforeGo.
  - intros members inj.
    rewrite (addedBeforeGo_app _ _ _ (generationStart_addedBeforeGo members topics)).
    destruct inj; reflexivity.
  - intros members tr IH.
    rewrite (addedBeforeGo_app _ _ _ (generationStart_addedBeforeGo members topics)).
    exact IH.
  - intros members lines tr Hlines IH.
    rewrite (addedBeforeGo_app _ _ _ (generationStart_addedBeforeGo members topics)).
    rewrite (addedBeforeGo_app _ _ _ (reregistration_addedBeforeGo lines Hlines)).
    exact IH.
Qed.

(** X25.  Every generation that obtained a member list starts one topic worker per
    subscribed topic, in subscription order.  Every [go cg.topicConsumer] is
    the statement directly after a [cg.wg.Add(1)], and every [cg.wg.Add(1)]
    is directly followed by the go statement of one worker, so each worker
    is counted in the wait group before it starts and none is counted
    twice. *)
Theorem topicListConsumer_spawns_every_topic cg topics gens :
  let tr := snd (topicListConsumer cg topics gens) in
  spawnedTopics tr = concat (repeat topics (generationsStarted tr)) /\
  countWgAdd tr = length (spawnedTopics tr) /\
  (forall pre topic post,
     tr = pre ++ SvGoTopicConsumer topic :: post ->
     exists pre', pre = pre' ++ [SvWgAdd]) /\
  (forall pre post,
     tr = pre ++ SvWgAdd :: post ->
     exists topic post', post = SvGoTopicConsumer topic :: post').
Proof.
  cbv zeta.
  assert (spawnedTopics (snd (topicListConsumer cg topics gens))
          = concat (repeat topics
                      (generationsStarted (snd (topicListConsumer cg topics gens)))) /\
          countWgAdd (snd (topicListConsumer cg topics gens))
          = length (spawnedTopics (snd (topicListConsumer cg topics gens)))) as [H1 H2].
  { apply topicListConsumer_trace_ind; clear cg gens.
    - split; reflexivity.
    - split; reflexivity.
    - intros err. split; reflexivity.
    - intros members.
      destruct (generationStart_facts members topics) as (_ & _ & G3 & G4 & G5).
      rewrite G3, G4, G5. simpl. rewrite app_nil_r. split; reflexivity.
    - intros members inj.
      destruct (generationStart_facts members topics) as (_ & _ & G3 & G4 & G5).
      rewrite !spawnedTopics_app, !generationsStarted_app, !countWgAdd_app, G3, G4, G5.
      destruct inj; simpl; rewrite !app_nil_r; split; try reflexivity; lia.
    - intros members tr [IH1 IH2].
      destruct (generationStart_facts members topics) as (_ & _ & G3 & G4 & G5).
      rewrite !spawnedTopics_app, !generationsStarted_app, !countWgAdd_app, G3, G4, G5.
      simpl. rewrite IH1 at 1. rewrite IH2, length_app. split; reflexivity.
    - intros members lines tr Hlines [IH1 IH2].
      destruct (generationStart_facts members topics) as (_ & _ & G3 & G4 & G5).
      destruct (reregistration_neutral lines Hlines) as (_ & _ & L3 & L5).
      assert (generationsStarted lines = 0%nat) as L4.
      { clear -Hlines. induction Hlines as [|e l He _ IH]; simpl; [reflexivity|].
        destruct e as [| | | |[]| | | | | | |]; simpl in *; try discriminate; exact IH. }
      rewrite !spawnedTopics_app, !generationsStarted_app, !countWgAdd_app, G3, G4, G5,
        L3, L4, L5.
      simpl. rewrite IH1 at 1. rewrite IH2, length_app. split; reflexivity. }
  pose proof (topicListConsumer_addedBeforeGo cg topics gens) as Horder.
  split; [exact H1|]. split; [exact H2|]. split.
  - intros pre topic post Heq.
    destruct (addedBeforeGo_go _ _ Horder pre topic post Heq) as [[_ H]|H];
      [discriminate | exact H].
  - intros pre post Heq. exact (addedBeforeGo_add _ _ Horder pre post Heq).
Qed.

Example addedBeforeGo_rejects :
  addedBeforeGo false [SvGoTopicConsumer "t"; SvWgAdd] = false /\
  addedBeforeGo false [SvWgAdd; SvWgAdd; SvGoTopicConsumer "t"] = false /\
  addedBeforeGo false [SvWgAdd; SvMuUnlock; SvGoTopicConsumer "t"] = false /\
  addedBeforeGo false [SvWgAdd; SvGoTopicConsumer "t"; SvWgAdd; SvGoTopicConsumer "u"]
  = true.
Proof. repeat split; reflexivity. Qed.

(** X26.  The top-level loop changes nothing of the handle but the member list,
    which is either the one it had or a snapshot that [WatchInstances]
    returned without error. *)
Theorem topicListConsumer_updates_only_consumers topics gens :
  forall cg,
    let cg' := snd (fst (topicListConsumer cg topics gens)) in
    sameIdentity cg' cg /\
    (consumers cg' = consumers cg \/
     exists g, In g gens /\ watchInstances g = (consumers cg', None)).
Proof.
  induction gens as [|g rest IH]; intros cg; cbv zeta; simpl.
  { split; [repeat split; reflexivity | left; reflexivity]. }
  destruct (stopperClosed g).
  { split; [repeat split; reflexivity | left; reflexivity]. }
  destruct (watchInstances g) as [members [err|]] eqn:Hwatch.
  { split; [repeat split; reflexivity | left; reflexivity]. }
  assert (exists g0, In g0 (g :: rest) /\ watchInstances g0 = (members, None)) as Hsnap
    by (exists g; split; [left; reflexivity | exact Hwatch]).
  assert (sameIdentity (setConsumers cg members) cg) as Hid
    by (repeat split; reflexivity).
  assert (forall st cg2 tr,
            topicListConsumer (setConsumers cg members) topics rest = (st, cg2, tr) ->
            sameIdentity cg2 cg /\
            (consumers cg2 = consumers cg \/
             exists g0, In g0 (g :: rest) /\ watchInstances g0 = (consumers cg2, None)))
    as Hnext.
  { intros st cg2 tr Heq. specialize (IH (setConsumers cg members)). cbv zeta in IH.
    rewrite Heq in IH. simpl in IH. destruct IH as [I1 I2]. split.
    - exact (sameIdentity_trans _ _ _ I1 Hid).
    - right. destruct I2 as [I2|(g0 & Hin & Hg0)].
      + rewrite I2. exact Hsnap.
      + exists g0. split; [right; exact Hin | exact Hg0]. }
  destruct (generationEnds g) as [|inj|registered register|]; simpl.
  - destruct (topicListConsumer (setConsumers cg members) topics rest)
      as [[st cg2] tr'] eqn:Heq. simpl. exact (Hnext _ _ _ eq_refl).
  - split; [exact Hid | right; exact Hsnap].
  - destruct (instance cg).
    + destruct (topicListConsumer (setConsumers cg members) topics rest)
        as [[st cg2] tr'] eqn:Heq. simpl. exact (Hnext _ _ _ eq_refl).
    + split; [exact Hid | right; exact Hsnap].
  - split; [exact Hid | right; exact Hsnap].
Qed.

Example lockDiscipline_rejects :
  lockDiscipline false [SvMuLock; SvMuLock] = None /\
  lockDiscipline false [SvMuLock; SvMuUnlock; SvWgAdd] = None /\
  lockDiscipline false [SvMuLock; SvWgAdd; SvGoTopicConsumer "t"] = Some true /\
  joinedBeforeNext false [SvMuLock; SvGoTopicConsumer "t"; SvMuUnlock; SvMuLock] = false /\
  joinedBeforeNext false
    [SvMuLock; SvGoTopicConsumer "t"; SvMuUnlock; SvCancel; SvWgWait; SvMuLock] = true.
Proof. repeat split; reflexivity. Qed.

Example rebalance_then_stop :
  topicListConsumer (sampleGroup OffsetOldest (60 * Second)) ["t1"; "t2"]
    [ {| stopperClosed := false;
         watchInstances := (["host-1:member-a"], None);
         generationEnds := EndChanges (false, None) None |};
      {| stopperClosed := false;
         watchInstances := (["host-1:member-a"; "host-2:member-b"], None);
         generationEnds := EndStopper false |} ]
  = (SupReturned,
     setConsumers (sampleGroup OffsetOldest (60 * Second))
       ["host-1:member-a"; "host-2:member-b"],
     [SvMuLock; SvLimiterWait; SvWatchInstances; SvLogf (LogRegisteredConsumers 1);
      SvWgAdd; SvGoTopicConsumer "t1"; SvWgAdd; SvGoTopicConsumer "t2"; SvMuUnlock;
      SvRegistered; SvRegister ["t1"; "t2"];
      SvLogf (LogReregistered "host-1:member-a");
      SvLogf LogRebalance; SvCancel; SvWgWait;
      SvMuLock; SvLimiterWait; SvWatchInstances; SvLogf (LogRegisteredConsumers 2);
      SvWgAdd; SvGoTopicConsumer "t1"; SvWgAdd; SvGoTopicConsumer "t2"; SvMuUnlock;
      SvCancel]).
Proof. reflexivity. Qed.

(** ** The log prefix *)

Lemma substring_full (s : string) : String.substring 0 (String.length s) s = s.
Proof. induction s as [|c s IH]; simpl; [reflexivity | rewrite IH; reflexivity]. Qed.

Lemma substring_suffix (s : string) (n : nat) :
  (n <= String.length s)%nat ->
  exists pre,
    s = String.append pre (String.substring n (String.length s - n) s) /\
    String.length pre = n.
Proof.
  revert n. induction s as [|c s IH]; intros n Hn.
  - simpl in Hn. assert (n = 0%nat) as -> by lia. exists EmptyString.
    split; reflexivity.
  - destruct n as [|n].
    + exists EmptyString. split; [|reflexivity].
      rewrite Nat.sub_0_r, substring_full. reflexivity.
    + simpl in Hn. destruct (IH n ltac:(lia)) as (pre & Hpre & Hlen).
      exists (String c pre). split; [|simpl; lia].
      change (String c s
              = String c (String.append pre
                            (String.substring n (String.length s - n) s))).
      f_equal. exact Hpre.
Qed.

Lemma length_append (a b : string) :
  String.length (String.append a b) = (String.length a + String.length b)%nat.
Proof. induction a as [|c a IH]; simpl; [reflexivity | rewrite IH; reflexivity]. Qed.

(** X27.  On a live handle whose instance ID has at least twelve bytes the
    identifier in a log line is the last twelve bytes of the instance ID. *)
Theorem logIdentifier_is_suffix cg :
  instance cg = true ->
  (12 <= String.length (instanceID cg))%nat ->
  exists identifier pre,
    logIdentifier cg = Return identifier /\
    instanceID cg = String.append pre identifier /\
    String.length identifier = 12%nat.
Proof.
  intros Hlive Hlen. unfold logIdentifier. rewrite Hlive.
  destruct (Nat.ltb_spec (String.length (instanceID cg)) 12) as [H|H]; [lia|].
  destruct (substring_suffix (instanceID cg) (String.length (instanceID cg) - 12)
              ltac:(lia)) as (pre & Hpre & Hplen).
  replace (String.length (instanceID cg) - (String.length (instanceID cg) - 12))%nat
    with 12%nat in Hpre by lia.
  eexists _, pre. split; [reflexivity|]. split; [exact Hpre|].
  apply (f_equal String.length) in Hpre. rewrite length_append, Hplen in Hpre. lia.
Qed.

Lemma logIdentifier_is_suffix_witness :
  exists identifier pre,
    logIdentifier (sampleGroup OffsetOldest (60 * Second)) = Return identifier /\
    "host-1:member-a"%string = String.append pre identifier /\
    String.length identifier = 12%nat.
Proof.
  apply (logIdentifier_is_suffix (sampleGroup OffsetOldest (60 * Second))).
  - reflexivity.
  - simpl. lia.
Defined.

(** X28.  [Logf] panics exactly on a live handle whose instance ID is shorter than
    twelve bytes.  On a handle whose instance is nil it prints "(defunct)"
    whatever the ID, and so it does on the handle that the first [Close] of a
    live handle leaves behind, when the ID has the twelve bytes that the log
    lines of [Close] themselves need. *)
Theorem Logf_panics_iff cg message :
  (Logf cg message = Panic <->
   instance cg = true /\ (String.length (instanceID cg) < 12)%nat) /\
  (instance cg = false ->
   Logf cg message
   = Return (String.append "["
               (String.append (groupName cg)
                  (String.append "/(defunct)] " message)))) /\
  (forall env,
     instance cg = true ->
     (12 <= String.length (instanceID cg))%nat ->
     singleShutdown cg = false ->
     (forall line, Logf cg line <> Panic) /\
     Logf (fst (fst (Close env cg))) message
     = Return (String.append "["
                 (String.append (groupName cg)
                    (String.append "/(defunct)] " message)))).
Proof.
  assert (forall h line,
            Logf h line = Panic <->
            instance h = true /\ (String.length (instanceID h) < 12)%nat) as Hiff.
  { intros h line. unfold Logf, logIdentifier. destruct (instance h).
    - destruct (Nat.ltb_spec (String.length (instanceID h)) 12) as [H|H].
      + split; [intros _; split; [reflexivity | exact H] | reflexivity].
      + split; [discriminate | intros [_ H']; lia].
    - split; [discriminate | intros [H _]; discriminate]. }
  split; [apply Hiff|]. split.
  - intros Hnil. unfold Logf, logIdentifier. rewrite Hnil. reflexivity.
  - intros env Hlive Hlen Hfresh. split.
    + intros line Hpanic. apply Hiff in Hpanic. lia.
    + unfold Close. rewrite Hfresh. reflexivity.
Qed.

Lemma Logf_panics_iff_witness :
  Logf (fst (fst (Close sampleCloseEnv (sampleGroup OffsetOldest (60 * Second)))))
    "Stopped"
  = Return "[group/(defunct)] Stopped"%string.
Proof.
  refine (proj2 (proj2 (proj2 (Logf_panics_iff (sampleGroup OffsetOldest (60 * Second))
                                 "Stopped")) sampleCloseEnv _ _ _)).
  - reflexivity.
  - simpl. lia.
  - reflexivity.
Defined.

(** ** Concrete instances *)

Lemma Validate_accepts_iff_witness :
  Validate (fun _ => None) (sampleConfig OffsetOldest (60 * Second) (10 * Second))
  = Return None.
Proof.
  apply (proj2 (Validate_accepts_iff (fun _ => None)
                  (sampleConfig OffsetOldest (60 * Second) (10 * Second))
                  sampleKazooConfig eq_refl)).
  repeat split; simpl; unfold Second; lia.
Defined.

Lemma Validate_first_failure_witness :
  Validate (fun _ => None)
    {| saramaConfig := Some sampleSaramaConfig;
       Zookeeper := Some {| Timeout := 0; kazooOther := 0 |};
       Offsets := {| Initial := 0; ProcessingTimeout := 0; CommitInterval := -1;
                     ResetOffsets := false |} |}
  = Return (Some (ConfigurationError "ZookeeperTimeout should have a duration > 0")).
Proof.
  refine (proj1 (Validate_first_failure (fun _ => None)
                   {| saramaConfig := Some sampleSaramaConfig;
                      Zookeeper := Some {| Timeout := 0; kazooOther := 0 |};
                      Offsets := {| Initial := 0; ProcessingTimeout := 0;
                                    CommitInterval := -1; ResetOffsets := false |} |}
                   {| Timeout := 0; kazooOther := 0 |} eq_refl) _).
  simpl. lia.
Defined.

Lemma NewConfig_passes_own_checks_witness :
  Validate (fun _ => None) (NewConfig sampleSaramaConfig sampleKazooConfig) = Return None.
Proof.
  refine (proj1 (NewConfig_passes_own_checks sampleSaramaConfig sampleKazooConfig
                   (fun _ => None) _)).
  simpl. unfold Second. lia.
Defined.

Lemma DefaultConsumerGroup_handle_iff_no_error_witness :
  match fst (DefaultConsumerGroup sampleConstructEnv "group" ["topic"]
               ["localhost:2181"]
               (sampleConfig OffsetOldest (60 * Second) (10 * Second))) with
  | Return (Some h, _) => instance h = true /\ instanceID h = "host-1:member-a"%string
  | _ => False
  end.
Proof.
  destruct (DefaultConsumerGroup_handle_iff_no_error sampleConstructEnv "group"
              ["topic"] ["localhost:2181"]
              (sampleConfig OffsetOldest (60 * Second) (10 * Second)) _ _ _ eq_refl)
    as (_ & _ & H).
  destruct (H _ eq_refl) as (H1 & _ & _ & H4 & _).
  exact (conj H1 H4).
Defined.

Lemma DefaultConsumerGroup_cleanup_witness :
  last (snd (DefaultConsumerGroup
               {| newKazoo := None; brokerList := None; resetOffsets := None;
                  generateConsumerInstanceID := ("host-1:member-a", None);
                  newConsumer := None; groupExists := (false, Some (ExternalError 7));
                  groupCreate := None; instanceRegister := None |}
               "group" ["topic"] ["localhost:2181"]
               (sampleConfig OffsetOldest (60 * Second) (10 * Second))))
  = Some EvKazooClose.
Proof.
  destruct (DefaultConsumerGroup_cleanup
              {| newKazoo := None; brokerList := None; resetOffsets := None;
                 generateConsumerInstanceID := ("host-1:member-a", None);
                 newConsumer := None; groupExists := (false, Some (ExternalError 7));
                 groupCreate := None; instanceRegister := None |}
              "group" ["topic"] ["localhost:2181"]
              (sampleConfig OffsetOldest (60 * Second) (10 * Second)) _ _ _ eq_refl)
    as [[H _]|[[H _]|[H _]]].
  - discriminate H.
  - exact H.
  - discriminate H.
Defined.

Lemma DefaultConsumerGroup_optional_steps_witness :
  ~ In EvResetOffsets
      (snd (DefaultConsumerGroup sampleConstructEnv "group" ["topic"] ["localhost:2181"]
              (sampleConfig OffsetOldest (60 * Second) (10 * Second)))).
Proof.
  intros Hin.
  destruct (proj1 (proj1 (DefaultConsumerGroup_optional_steps sampleConstructEnv "group"
                            ["topic"] ["localhost:2181"]
                            (sampleConfig OffsetOldest (60 * Second) (10 * Second))))
              Hin) as [H _].
  discriminate H.
Defined.

Lemma JoinConsumerGroup_starts_loop_on_success_witness :
  last (snd (JoinConsumerGroup sampleSaramaConfig sampleKazooConfig (fun _ => None)
               sampleConstructEnv "group" ["topic"] ["localhost:2181"] None []))
  = Some (EvGoTopicListConsumer ["topic"]).
Proof.
  refine (proj1 (proj1 (JoinConsumerGroup_starts_loop_on_success sampleSaramaConfig
            sampleKazooConfig (fun _ => None) sampleConstructEnv "group" ["topic"]
            ["localhost:2181"] None) [] _ _ _)).
  reflexivity.
Defined.

Lemma JoinConsumerGroup_overrides_ClientID_witness :
  match JoinConsumerGroup sampleSaramaConfig sampleKazooConfig (fun _ => None)
          sampleConstructEnv "group" ["topic"] ["localhost:2181"] None [] with
  | (Return (Some h, _), _) => groupName h = "group"%string
  | _ => False
  end.
Proof.
  exact (proj1 (proj2 (JoinConsumerGroup_overrides_ClientID sampleSaramaConfig
                         sampleKazooConfig (fun _ => None) sampleConstructEnv "group"
                         ["topic"] ["localhost:2181"] None _ _ _ eq_refl))).
Defined.

Lemma release_pairs_with_claim_witness :
  countEvent (EvReleasePartition "topic" 0)
    (snd (partitionConsumer (claimedEnv 7 (fun _ _ => None) [InputDone] None readyState)
            (sampleGroup OffsetOldest 0) "topic" 0)) = 1%nat.
Proof.
  refine (proj1 (proj2 (proj2 (release_pairs_with_claim
            (claimedEnv 7 (fun _ _ => None) [InputDone] None readyState)
            (sampleGroup OffsetOldest 0) "topic" 0))) _ _).
  - reflexivity.
  - vm_compute. reflexivity.
Defined.

Lemma waitgroup_signalled_on_return_witness :
  last (snd (partitionConsumer
               (claimedEnv 7 (fun _ _ => None) [InputDone] None readyState)
               (sampleGroup OffsetOldest 0) "topic" 0)) = Some EvLocalWgDone.
Proof.
  refine (proj1 (proj1 (proj2 (waitgroup_signalled_on_return
            (claimedEnv 7 (fun _ _ => None) [InputDone] None readyState)
            (sampleGroup OffsetOldest 0) "topic" 0))) _).
  reflexivity.
Defined.

